(** * Ingestion, reconstruction and discovery-crawl core of the telephony
    (ADA compliance advisor) application, embedded from its TypeScript
    sources.

    Conventions of the embedding.
    - A JavaScript string is a [string] of ASCII characters; text outside
      ASCII occurs only in fixed messages, as its UTF-8 bytes, and no
      operation modelled here looks inside it.  Numbers that the code
      counts, compares or prints are [nat] or [Z]; a number that comes
      unchecked from a request is a [number], fractions included.
    - The collaborators that the routes [await] (Drive, OpenAI, Pinecone,
      axios) and the platform classes ([URL], [JSON.parse]) are the
      methods of a class that the route is parameterised by; a call that
      can throw returns an [Exc], whose [Throw] branch is the exception.
    - Module-level variables and mutated local arrays are explicit
      state. *)

From stdpp Require Import gmap strings pretty sorting.
From Stdlib Require Import Ascii ZArith QArith Qround Lia.

Local Set Warnings "-register-all,-clear-no-such-hyp".

Local Open Scope nat_scope.

(** ** JavaScript strings *)

Module JS.

Definition LF : ascii := "010"%char.

(** [\s] of a regular expression and the characters removed by [trim],
    among the ASCII characters: TAB, LF, VT, FF, CR and SPACE. *)
Definition is_ws (c : ascii) : bool :=
  match N_of_ascii c with
  | 9%N | 10%N | 11%N | 12%N | 13%N | 32%N => true
  | _ => false
  end.

Fixpoint trimStart (s : string) : string :=
  match s with
  | "" => ""
  | String c s' => if is_ws c then trimStart s' else s
  end.

Fixpoint trimEnd (s : string) : string :=
  match s with
  | "" => ""
  | String c s' =>
      match trimEnd s' with
      | "" => if is_ws c then "" else String c ""
      | t => String c t
      end
  end.

Definition trim (s : string) : string := trimEnd (trimStart s).

(** The string does not start with white space. *)
Definition no_lead_ws (s : string) : Prop :=
  match s with
  | String c _ => is_ws c = false
  | "" => True
  end.

(** [s.substring(i, i + n)] for [0 <= i] and [0 <= n]. *)
Definition substring (s : string) (i n : nat) : string := String.substring i n s.

(** [c.toLowerCase()] on one ASCII character. *)
Definition lower_char (c : ascii) : ascii :=
  let n := N_of_ascii c in
  if ((65 <=? n) && (n <=? 90))%N then ascii_of_N (n + 32) else c.

Fixpoint toLowerCase (s : string) : string :=
  match s with
  | "" => ""
  | String c s' => String (lower_char c) (toLowerCase s')
  end.

Fixpoint startsWith (s p : string) {struct p} : bool :=
  match p, s with
  | "", _ => true
  | String a p', String b s' => if decide (a = b) then startsWith s' p' else false
  | String _ _, "" => false
  end.

Definition endsWith (s p : string) : bool :=
  startsWith (String.rev s) (String.rev p).

Fixpoint includes (s p : string) : bool :=
  startsWith s p ||
  match s with
  | "" => false
  | String _ s' => includes s' p
  end.

(** [s.split(re)] for a regular expression [re] without capture groups
    that never matches the empty string.  [m t] is the length of the
    match of [re] anchored at the start of [t], if any.  The scan follows
    the loop of [String.prototype.split]: try the positions from left to
    right, close the current piece at a match and resume after it; the
    rest of the string is the last piece. *)
Fixpoint split_go (m : string → option nat) (s : string) (skip : nat)
    (cur : string) : list string :=
  match s with
  | "" => [String.rev cur]
  | String c s' =>
      match skip with
      | S k => split_go m s' k cur
      | 0 =>
          match m s with
          | Some (S n) => String.rev cur :: split_go m s' n ""
          | _ => split_go m s' 0 (String c cur)
          end
      end
  end.

Definition split_re (m : string → option nat) (s : string) : list string :=
  split_go m s 0 "".

(** [arr.join(sep)] on strings. *)
Fixpoint join (sep : string) (l : list string) : string :=
  match l with
  | [] => ""
  | [x] => x
  | x :: l' => x +:+ sep +:+ join sep l'
  end.

(** [a || b] on possibly-undefined values with a truthiness test. *)
Definition or_else {A} (truthy : A → bool) (a b : option A) : option A :=
  match a with
  | Some x => if truthy x then a else b
  | None => b
  end.

(** Truthiness of a possibly-undefined string. *)
Definition truthy_str (o : option string) : bool :=
  match o with
  | Some s => negb (bool_decide (s = ""))
  | None => false
  end.

(** [p] occurs in [t] as a run of consecutive characters. *)
Definition partOf (p t : string) : Prop := ∃ a b, t = a +:+ p +:+ b.

(** Two consecutive characters of [s] satisfy [q]. *)
Fixpoint hasPair (q : ascii → ascii → bool) (s : string) : bool :=
  match s with
  | String c s' =>
      match s' with
      | String d _ => q c d || hasPair q s'
      | "" => false
      end
  | "" => false
  end.

(** Every character of [s] satisfies [p]. *)
Fixpoint allChars (p : ascii → bool) (s : string) : bool :=
  match s with
  | "" => true
  | String c s' => p c && allChars p s'
  end.

(** A decimal digit. *)
Definition is_digit (c : ascii) : bool :=
  match Ascii.is_nat c with
  | Some _ => true
  | None => false
  end.

(** A number.  A double is a rational, an infinity or NaN; the finite
    ones are given by the rational they denote.  The code modelled here
    only compares a number with a length or a literal and subtracts a
    length from it.  The difference is exact on the rationals; on the
    doubles it is exact as well whenever the length is below the number,
    the only case in which the code computes it. *)
Inductive number :=
  | Finite (q : Q)
  | PlusInfinity
  | MinusInfinity
  | NaN.

(** [n < x] for a length [n] *)
Definition lengthBelow (n : nat) (x : number) : bool :=
  match x with
  | Finite q => negb (Qle_bool q (inject_Z (Z.of_nat n)))
  | PlusInfinity => true
  | MinusInfinity | NaN => false
  end.

(** [x > z] for an integer literal [z] *)
Definition above (x : number) (z : Z) : bool :=
  match x with
  | Finite q => negb (Qle_bool q (inject_Z z))
  | PlusInfinity => true
  | MinusInfinity | NaN => false
  end.

(** [x - n] for a length [n] *)
Definition minusLength (x : number) (n : nat) : number :=
  match x with
  | Finite q => Finite (q - inject_Z (Z.of_nat n))
  | _ => x
  end.

(** A list of length [n] can have been filled under the guard
    [length < x]: it is empty, or its last element was added when the
    length was [n - 1]. *)
Definition admits (x : number) (n : nat) : Prop :=
  n = 0 ∨ lengthBelow (n - 1) x = true.

(** The last character of a string. *)
Fixpoint lastChar (s : string) : option ascii :=
  match s with
  | "" => None
  | String c s' => match lastChar s' with Some l => Some l | None => Some c end
  end.

End JS.

(** ** Thrown values and fallible calls *)

Inductive thrown :=
  | ErrorObj (message : string)   (* [error instanceof Error] *)
  | NonError.                     (* any other thrown value *)

Inductive Exc (A : Type) :=
  | Ok (a : A)
  | Throw (e : thrown).
Arguments Ok {A} a.
Arguments Throw {A} e.

Definition exc_bind {A B} (x : Exc A) (k : A → Exc B) : Exc B :=
  match x with
  | Ok a => k a
  | Throw e => Throw e
  end.

Notation "x ← y ;;; z" := (exc_bind y (λ x, z))
  (at level 20, y at level 100, z at level 200, right associativity, only parsing).

(** [error instanceof Error ? error.message : 'Unknown error'] *)
Definition errorMessage (e : thrown) : string :=
  match e with
  | ErrorObj m => m
  | NonError => "Unknown error"
  end.

(** ** The chunker of the Drive sync route *)

Module Chunker.
Import JS.

Definition is_terminator (c : ascii) : bool :=
  match c with
  | "."%char | "!"%char | "?"%char => true
  | _ => false
  end.

Fixpoint nl_run (s : string) : nat :=
  match s with
  | String c s' => if decide (c = LF) then S (nl_run s') else 0
  | "" => 0
  end.

(** [/\n\n+/] anchored at the start of [s]. *)
Definition match_blank (s : string) : option nat :=
  let n := nl_run s in if 2 <=? n then Some n else None.

Fixpoint ws_run (s : string) : nat :=
  match s with
  | String c s' => if is_ws c then S (ws_run s') else 0
  | "" => 0
  end.

(** [/[.!?]+\s+/] anchored at the start of [s]: the longest run of
    terminators, then the longest non-empty run of white space. *)
Fixpoint match_sentence (s : string) : option nat :=
  match s with
  | String c s' =>
      if is_terminator c then
        match match_sentence s' with
        | Some n => Some (S n)
        | None => match ws_run s' with 0 => None | w => Some (S w) end
        end
      else None
  | "" => None
  end.

Definition minLength : nat := 20.
Definition chunkSize : nat := 500.

(** [chunk => chunk.trim().length > 20] *)
Definition keep (chunk : string) : Prop := minLength < String.length (trim chunk).
Global Instance keep_dec chunk : Decision (keep chunk).
Proof. unfold keep. apply _. Defined.

Definition paragraphChunks (text : string) : list string :=
  filter keep (split_re match_blank text).

Definition sentenceChunks (text : string) : list string :=
  filter keep (split_re match_sentence text).

(** [for (let i = 0; i < text.length; i += chunkSize) { ... }]; the loop
    runs at most [text.length] times, which is the fuel given below. *)
Fixpoint fixedLoop (text : string) (i fuel : nat) (chunks : list string) : list string :=
  match fuel with
  | 0 => chunks
  | S fuel' =>
      if i <? String.length text then
        let chunk := trim (substring text i chunkSize) in
        fixedLoop text (i + chunkSize) fuel'
          (if decide (minLength < String.length chunk) then chunks ++ [chunk] else chunks)
      else chunks
  end.

Definition fixedChunks (text : string) : list string :=
  fixedLoop text 0 (String.length text) [].

Inductive tier := Paragraph | Sentence | Fixed.

Definition tierChunks (t : tier) (text : string) : list string :=
  match t with
  | Paragraph => paragraphChunks text
  | Sentence => sentenceChunks text
  | Fixed => fixedChunks text
  end.

(** Lines 72-91 of the route, with the list of the tiers whose split was
    evaluated, in order. *)
Definition chunkTraced (text : string) : list tier * list string :=
  let paragraphChunks := paragraphChunks text in
  if 0 <? length paragraphChunks then ([Paragraph], paragraphChunks)
  else
    let sentenceChunks := sentenceChunks text in
    if 0 <? length sentenceChunks then ([Paragraph; Sentence], sentenceChunks)
    else ([Paragraph; Sentence; Fixed], fixedChunks text).

Definition chunkText (text : string) : list string := (chunkTraced text).2.

Definition LFLF : string := String LF (String LF "").

(** A sentence terminator directly followed by white space occurs in
    [s]. *)
Fixpoint has_sentence_break (s : string) : bool :=
  match s with
  | String c s' =>
      match s' with
      | String d _ => (is_terminator c && is_ws d) || has_sentence_break s'
      | "" => false
      end
  | "" => false
  end.

(** The matcher [m] fails at every position of [s]. *)
Fixpoint never (m : string → option nat) (s : string) : Prop :=
  match s with
  | "" => True
  | String _ s' => m s = None ∧ never m s'
  end.

(** The window that the fixed-size tier cuts at its [k]-th round. *)
Definition window (text : string) (k : nat) : string :=
  trim (substring text (k * chunkSize) chunkSize).

(** The number of rounds of the fixed-size loop. *)
Definition rounds (text : string) : nat :=
  (String.length text + (chunkSize - 1)) / chunkSize.

(** Two line feeds in a row. *)
Definition blankPair (a b : ascii) : bool :=
  bool_decide (a = LF) && bool_decide (b = LF).

(** A sentence terminator followed by white space. *)
Definition breakPair (a b : ascii) : bool := is_terminator a && is_ws b.

End Chunker.

(** ** The Drive sync route: per-file ingestion and its report *)

Module Sync.
Import JS Chunker.

(** An entry of the folder listing; a field the API left out is [None]. *)
Record DriveFile := {
  id : option string;
  name : option string;
  mimeType : option string;
}.

Definition Buffer := list Byte.byte.

Record Metadata := {
  fileId : string;
  title : string;
  text : string;
  chunkIndex : nat;
  md_mimeType : option string;
}.

Record Vector (E : Type) := {
  vid : string;
  values : E;
  metadata : Metadata;
}.
Arguments vid {E} _.
Arguments values {E} _.
Arguments metadata {E} _.

(** The modules the route imports.  [Embedding] stands for the array of
    floats returned by the embedding model; the route only passes it on. *)
Class Collaborators := {
  Embedding : Type;
  listFilesInFolder : string → Exc (list DriveFile);
  getFileContent : string → string → Exc Buffer;
  extractTextFromDocument : Buffer → string → Exc string;
  getEmbedding : string → Exc Embedding;
  upsertToPinecone : list (Vector Embedding) → Exc unit;
}.

Record Entry := {
  e_name : string;
  chunks : nat;
  error : option string;
}.

Record Failed := {
  f_name : string;
  f_error : string;
}.

(** The three locals the loop over the files mutates. *)
Record Acc := {
  processedFiles : list Entry;
  totalChunks : nat;
  failedFileDetails : list Failed;
}.

Definition emptyAcc : Acc :=
  {| processedFiles := []; totalChunks := 0; failedFileDetails := [] |}.

Definition pushProcessed (acc : Acc) (e : Entry) : Acc :=
  {| processedFiles := processedFiles acc ++ [e];
     totalChunks := totalChunks acc;
     failedFileDetails := failedFileDetails acc |}.

(** [`${file.id}-chunk-${chunkIndex}`] *)
Definition chunkId (fileId : string) (chunkIndex : nat) : string :=
  fileId +:+ "-chunk-" +:+ pretty chunkIndex.

(** [file.mimeType || 'text/plain'] *)
Definition mimeOrPlain (f : DriveFile) : string :=
  match mimeType f with
  | Some m => if bool_decide (m = "") then "text/plain" else m
  | None => "text/plain"
  end.

(** Lines 109-119: the vector pushed for the chunk at [chunkIndex]. *)
Definition chunkVector {E} (fid fname : string) (mime : option string)
    (chunkIndex : nat) (chunk : string) (embedding : E) : Vector E :=
  {| vid := chunkId fid chunkIndex;
     values := embedding;
     metadata := {| fileId := fid; title := fname; text := chunk;
                    chunkIndex := chunkIndex; md_mimeType := mime |} |}.

(** Lines 104-120: the loop over [chunkIndex], from the index reached and
    the vectors pushed so far; [getEmbedding] is the embedder called. *)
Fixpoint vectorLoop {E} (getEmbedding : string → Exc E) (fid fname : string)
    (mime : option string) (rest : list string) (chunkIndex : nat)
    (vectors : list (Vector E)) : Exc (list (Vector E)) :=
  match rest with
  | [] => Ok vectors
  | chunk :: rest' =>
      embedding ← getEmbedding chunk;;;
      vectorLoop getEmbedding fid fname mime rest' (S chunkIndex)
        (vectors ++ [chunkVector fid fname mime chunkIndex chunk embedding])
  end.

Definition buildVectors {E} (getEmbedding : string → Exc E) (fid fname : string)
    (mime : option string) (chunks : list string) : Exc (list (Vector E)) :=
  vectorLoop getEmbedding fid fname mime chunks 0 [].

(** [!file.id || !file.name] *)
Definition missingIdOrName (f : DriveFile) : bool :=
  negb (truthy_str (id f)) || negb (truthy_str (name f)).

(** The accumulator after the pushes of [a] and then those of [b]. *)
Definition merge (a b : Acc) : Acc :=
  {| processedFiles := processedFiles a ++ processedFiles b;
     totalChunks := totalChunks a + totalChunks b;
     failedFileDetails := failedFileDetails a ++ failedFileDetails b |}.

(** What the [catch] of the loop pushes for the file [fname]. *)
Definition failure (fname : string) (e : thrown) : Acc :=
  {| processedFiles := [{| e_name := fname; chunks := 0; error := Some (errorMessage e) |}];
     totalChunks := 0;
     failedFileDetails := [{| f_name := fname; f_error := errorMessage e |}] |}.

Section Route.
Context `{C : Collaborators}.

(** Lines 43-129: the body of the [try] for a file with an id and a name.
    Every push happens after the last call that can throw, so a throw
    leaves the accumulator as it was. *)
Definition tryBody (f : DriveFile) (fid fname : string) (acc : Acc) : Exc Acc :=
  buffer ← getFileContent fid (mimeOrPlain f);;;
  if length buffer =? 0 then
    Ok (pushProcessed acc
          {| e_name := fname; chunks := 0; error := Some "File is empty (0 bytes)" |})
  else
    text ← extractTextFromDocument buffer (mimeOrPlain f);;;
    if bool_decide (text = "") || (String.length (trim text) =? 0) then
      Ok (pushProcessed acc
            {| e_name := fname; chunks := 0; error := Some "No text extracted" |})
    else
      let chunks := chunkText text in
      if length chunks =? 0 then
        Ok (pushProcessed acc
              {| e_name := fname; chunks := 0; error := Some "No valid chunks created" |})
      else
        vectors ← buildVectors getEmbedding fid fname (mimeType f) chunks;;;
        _ ← upsertToPinecone vectors;;;
        Ok {| processedFiles :=
                processedFiles acc
                ++ [{| e_name := fname; chunks := length vectors; error := None |}];
              totalChunks := totalChunks acc + length vectors;
              failedFileDetails := failedFileDetails acc |}.

(** The stages of the [try] at which the processing of a file can throw:
    the download, the text extraction, the embedding of a chunk, the
    upsert. *)
Inductive raises (f : DriveFile) (fid fname : string) (e : thrown) : Prop :=
  | raises_download :
      getFileContent fid (mimeOrPlain f) = Throw e →
      raises f fid fname e
  | raises_extraction buffer :
      getFileContent fid (mimeOrPlain f) = Ok buffer →
      length buffer ≠ 0 →
      extractTextFromDocument buffer (mimeOrPlain f) = Throw e →
      raises f fid fname e
  | raises_embedding buffer text :
      getFileContent fid (mimeOrPlain f) = Ok buffer →
      length buffer ≠ 0 →
      extractTextFromDocument buffer (mimeOrPlain f) = Ok text →
      String.length (trim text) ≠ 0 →
      chunkText text ≠ [] →
      buildVectors getEmbedding fid fname (mimeType f) (chunkText text) = Throw e →
      raises f fid fname e
  | raises_upsert buffer text vectors :
      getFileContent fid (mimeOrPlain f) = Ok buffer →
      length buffer ≠ 0 →
      extractTextFromDocument buffer (mimeOrPlain f) = Ok text →
      String.length (trim text) ≠ 0 →
      chunkText text ≠ [] →
      buildVectors getEmbedding fid fname (mimeType f) (chunkText text) = Ok vectors →
      upsertToPinecone vectors = Throw e →
      raises f fid fname e.

(** Lines 39-142: one iteration of the loop over the listing. *)
Definition loopBody (acc : Acc) (f : DriveFile) : Acc :=
  match id f, name f with
  | Some fid, Some fname =>
      if bool_decide (fid = "") || bool_decide (fname = "") then acc
      else
        match tryBody f fid fname acc with
        | Ok acc' => acc'
        | Throw e =>
            let errorMessage := errorMessage e in
            {| processedFiles :=
                 processedFiles acc
                 ++ [{| e_name := fname; chunks := 0; error := Some errorMessage |}];
               totalChunks := totalChunks acc;
               failedFileDetails :=
                 failedFileDetails acc ++ [{| f_name := fname; f_error := errorMessage |}] |}
        end
  | _, _ => acc
  end.

Definition processFiles (files : list DriveFile) : Acc :=
  foldl loopBody emptyAcc files.

Inductive Response :=
  | BadRequest (error : string)
  | NoFiles
  | Report (message : string) (totalFiles totalChunks : nat)
      (processedFiles : list Entry) (failedFileDetails : option (list Failed))
  | ServerError (details : string).

Definition summary (acc : Acc) : string :=
  if 0 <? totalChunks acc then
    "Successfully processed " +:+ pretty (length (processedFiles acc))
    +:+ " file(s) and created " +:+ pretty (totalChunks acc)
    +:+ " chunk(s) in Pinecone!"
  else
    "⚠️ No chunks were created. " +:+ pretty (length (processedFiles acc))
    +:+ " file(s) processed but no valid chunks found. Check file types and content.".

(** The handler; [queryFolderId] is the [folderId] search parameter and
    [envFolderId] is [process.env.GOOGLE_DRIVE_FOLDER_ID]. *)
Definition POST (queryFolderId envFolderId : option string) : Response :=
  match or_else (λ s, negb (bool_decide (s = ""))) queryFolderId envFolderId with
  | None => BadRequest "Folder ID is required"
  | Some folderId =>
      if bool_decide (folderId = "") then BadRequest "Folder ID is required"
      else
        match listFilesInFolder folderId with
        | Throw e => ServerError (errorMessage e)
        | Ok files =>
            if length files =? 0 then NoFiles
            else
              let acc := processFiles files in
              Report (summary acc) (length (processedFiles acc)) (totalChunks acc)
                (processedFiles acc)
                (if 0 <? length (failedFileDetails acc)
                 then Some (failedFileDetails acc) else None)
        end
  end.

End Route.

(** The invariant of the report: the total is the sum of the counts, an
    entry has an error exactly when it has no chunk, and every failure
    detail repeats an entry. *)
Record Consistent (acc : Acc) : Prop := {
  total_is_sum : totalChunks acc = sum_list_with chunks (processedFiles acc);
  error_iff_no_chunk :
    Forall (λ e, error e = None ↔ 0 < chunks e) (processedFiles acc);
  failures_are_entries :
    Forall (λ d, {| e_name := f_name d; chunks := 0; error := Some (f_error d) |}
                 ∈ processedFiles acc)
      (failedFileDetails acc);
}.

(** The index behind [upsertToPinecone], keyed by vector id: an upsert
    overwrites the entry stored under the same id. *)
Definition upsert {E} (vectors : list (Vector E)) (index : gmap string (Vector E))
    : gmap string (Vector E) :=
  foldl (λ m v, <[vid v := v]> m) index vectors.

End Sync.

(** ** The document preview route: reconstruction of a file's text *)

Module Preview.
Import JS.

(** A metadata value as the index returns it.  Numbers are the integral
    ones; they print in decimal. *)
Inductive mval :=
  | MStr (s : string)
  | MNum (n : Z)
  | MBool (b : bool).

Global Instance mval_eq_dec : EqDecision mval.
Proof. solve_decision. Defined.

Definition truthy (v : mval) : bool :=
  match v with
  | MStr s => negb (bool_decide (s = ""))
  | MNum n => negb (n =? 0)%Z
  | MBool b => b
  end.

(** The metadata keys the route reads; an absent key is [None]. *)
Record RecordMetadata := {
  fileId : option mval;
  file_id : option mval;
  chunkIndex : option mval;
  chunk_index : option mval;
  text : option mval;
  content : option mval;
}.

Record ScoredMatch := {
  id : string;
  metadata : option RecordMetadata;
}.

(** [match.metadata?.key] *)
Definition field (key : RecordMetadata → option mval) (m : ScoredMatch) : option mval :=
  metadata m ≫= key.

Class Collaborators := {
  Embedding : Type;
  getEmbedding : string → Exc Embedding;
  queryPinecone : Embedding → nat → Exc (list ScoredMatch);
  (** [Number(s)] of a string, [None] for NaN. *)
  StringToNumber : string → option Z;
}.

(** [match.metadata?.fileId || match.metadata?.file_id] *)
Definition matchFileId (m : ScoredMatch) : option mval :=
  or_else truthy (field fileId m) (field file_id m).

(** [matchFileId === fileId] for the string [fileId] of the request. *)
Definition sameFile (fileId : string) (m : ScoredMatch) : Prop :=
  matchFileId m = Some (MStr fileId).
Global Instance sameFile_dec fileId m : Decision (sameFile fileId m).
Proof. unfold sameFile. apply _. Defined.

Definition filterMatches (fileId : string) (matches : list ScoredMatch) : list ScoredMatch :=
  filter (sameFile fileId) matches.

(** [String(v)], as [join] applies it. *)
Definition toString (v : mval) : string :=
  match v with
  | MStr s => s
  | MNum n => pretty n
  | MBool true => "true"
  | MBool false => "false"
  end.

(** [match.metadata?.text || match.metadata?.content || ''] *)
Definition matchText (m : ScoredMatch) : mval :=
  default (MStr "") (or_else truthy (or_else truthy (field text m) (field content m))
                       (Some (MStr ""))).

Definition topK : nat := 500.
Definition separator : string := String LF (String LF "").

Section Route.
Context `{C : Collaborators}.

(** [Number(v)], [None] for NaN. *)
Definition toNumber (v : mval) : option Z :=
  match v with
  | MStr s => StringToNumber s
  | MNum n => Some n
  | MBool b => Some (if b then 1 else 0)%Z
  end.

(** [Number(m.metadata?.chunkIndex || m.metadata?.chunk_index || 0) || 0] *)
Definition sortIndex (m : ScoredMatch) : Z :=
  default 0%Z
    (or_else truthy (or_else truthy (field chunkIndex m) (field chunk_index m))
       (Some (MNum 0))
     ≫= toNumber).

(** The comparator [(a, b) => aIndex - bIndex] orders [a] before [b] when
    the difference is not positive. *)
Definition byIndex (a b : ScoredMatch) : Prop := (sortIndex a ≤ sortIndex b)%Z.
Global Instance byIndex_dec a b : Decision (byIndex a b).
Proof. unfold byIndex. apply _. Defined.

(** [matches.sort(comparator)]: the sort of the platform is stable, and so
    is this insertion sort.  A match goes in front of the first match that
    the comparator does not put before it, so it stays in front of the
    later matches of the same index. *)
Fixpoint insertMatch (m : ScoredMatch) (sorted : list ScoredMatch) : list ScoredMatch :=
  match sorted with
  | [] => [m]
  | x :: rest =>
      if decide (byIndex m x) then m :: sorted else x :: insertMatch m rest
  end.

Definition sortMatches (matches : list ScoredMatch) : list ScoredMatch :=
  foldr insertMatch [] matches.

(** [.map(text || content || '').filter(Boolean).join('\n\n')] *)
Definition previewText (matches : list ScoredMatch) : string :=
  join separator
    (toString <$> filter (λ v, truthy v = true) (matchText <$> matches)).

Inductive Response :=
  | BadRequest
  | PreviewOk (preview : string) (fileId : string) (chunkCount : nat)
  | NotIndexed (fileId : string)
  | ServerError.

(** Lines 62-89: the sort and the answer on the matches of the first
    query. *)
Definition reconstruct (fileId : string) (filteredMatches : list ScoredMatch) : Response :=
  let sorted := sortMatches filteredMatches in
  let previewText := previewText sorted in
  if String.length (trim previewText) =? 0 then NotIndexed fileId
  else PreviewOk previewText fileId (length sorted).

(** Lines 16-89 inside the [try]. *)
Definition tryBody (fileId : string) : Exc Response :=
  queryEmbedding ← getEmbedding fileId;;;
  matches ← queryPinecone queryEmbedding topK;;;
  let filteredMatches := filterMatches fileId matches in
  if length filteredMatches =? 0 then
    genericEmbedding ← getEmbedding "text content document";;;
    genericMatches ← queryPinecone genericEmbedding topK;;;
    let altFiltered := filterMatches fileId genericMatches in
    if 0 <? length altFiltered then
      let sorted := sortMatches altFiltered in
      let previewText := previewText sorted in
      Ok (PreviewOk
            (if bool_decide (previewText = "")
             then "No content found for this document" else previewText)
            fileId (length sorted))
    else Ok (reconstruct fileId filteredMatches)
  else Ok (reconstruct fileId filteredMatches).

Definition POST (fileId : option string) : Response :=
  match fileId with
  | None => BadRequest
  | Some fileId =>
      if bool_decide (fileId = "") then BadRequest
      else
        match tryBody fileId with
        | Ok r => r
        | Throw _ => ServerError
        end
  end.

End Route.

(** What a query returns for a vector that the sync route stored: its id
    and, with [includeMetadata], the metadata it was written with. *)
Definition storedAs (vid : string) (md : Sync.Metadata) : ScoredMatch :=
  {| id := vid;
     metadata := Some
       {| fileId := Some (MStr (Sync.fileId md));
          file_id := None;
          chunkIndex := Some (MNum (Z.of_nat (Sync.chunkIndex md)));
          chunk_index := None;
          text := Some (MStr (Sync.text md));
          content := None |} |}.

Definition stored {E} (v : Sync.Vector E) : ScoredMatch :=
  storedAs (Sync.vid v) (Sync.metadata v).


End Preview.

(** ** The Pinecone client wrapper *)

Module Pinecone.
Import JS.

(** [process.env] *)
Abbreviation Env := (gmap string string).

(** What [new Pinecone({apiKey})] is built from. *)
Record Client := { apiKey : string }.

(** The calls of the SDK on an index handle: [client.index(indexName)],
    then [.namespace(ns)] when a namespace is given, then [.query] or
    [.upsert].  [sdk_query] returns the [matches] field of the response,
    which may be absent. *)
Class Sdk := {
  QueryVector : Type;
  Match : Type;
  Record_ : Type;
  UpsertAck : Type;
  sdk_query : Client → string → option string → QueryVector → nat
              → Exc (option (list Match));
  sdk_upsert : Client → string → option string → list Record_ → Exc UpsertAck;
}.

(** The module-level [pineconeClient]: [None] is [null]. *)
Abbreviation Singleton := (option Client).

Definition configError : thrown :=
  ErrorObj "Pinecone API key and environment must be set".

Definition getPineconeClient (env : Env) (pineconeClient : Singleton)
    : Exc Client * Singleton :=
  match pineconeClient with
  | Some client => (Ok client, pineconeClient)
  | None =>
      let apiKey := env !! "PINECONE_API_KEY" in
      let environment := env !! "PINECONE_ENVIRONMENT" in
      if negb (truthy_str apiKey) || negb (truthy_str environment)
      then (Throw configError, None)
      else
        let client := {| apiKey := default "" apiKey |} in
        (Ok client, Some client)
  end.

(** [process.env.PINECONE_INDEX_NAME || 'adacompliance-index'] *)
Definition indexName (env : Env) : string :=
  default "adacompliance-index"
    (or_else (λ s, negb (bool_decide (s = ""))) (env !! "PINECONE_INDEX_NAME")
       (Some "adacompliance-index")).

(** [if (namespace)]: an empty namespace counts as none. *)
Definition namespaceOf (namespace : option string) : option string :=
  if truthy_str namespace then namespace else None.

Section Calls.
Context `{S : Sdk}.

Definition queryPinecone (env : Env) (pineconeClient : Singleton)
    (queryVector : QueryVector) (topK : nat) (namespace : option string)
    : Exc (list Match) * Singleton :=
  match getPineconeClient env pineconeClient with
  | (Throw e, st) => (Throw e, st)
  | (Ok client, st) =>
      (matches ← sdk_query client (indexName env) (namespaceOf namespace) queryVector topK;;;
       Ok (default [] matches), st)
  end.

Definition upsertToPinecone (env : Env) (pineconeClient : Singleton)
    (vectors : list Record_) (namespace : option string)
    : Exc UpsertAck * Singleton :=
  match getPineconeClient env pineconeClient with
  | (Throw e, st) => (Throw e, st)
  | (Ok client, st) =>
      (match sdk_upsert client (indexName env) (namespaceOf namespace) vectors with
       | Ok result => Ok result
       | Throw e => Throw (ErrorObj ("Failed to upsert to Pinecone: " +:+ errorMessage e))
       end, st)
  end.

End Calls.

End Pinecone.

(** ** The PDF compliance analysis route *)

Module Analyze.
Import JS.

(** A parsed JSON value.  Numbers are the integral ones; the route tests a
    number for truthiness only. *)
Inductive json :=
  | JNull
  | JBool (b : bool)
  | JNum (n : Z)
  | JStr (s : string)
  | JArr (items : list json)
  | JObj (members : list (string * json)).

Definition truthy (v : json) : bool :=
  match v with
  | JNull => false
  | JBool b => b
  | JNum n => negb (n =? 0)%Z
  | JStr s => negb (bool_decide (s = ""))
  | JArr _ | JObj _ => true
  end.

(** The value of the last member named [key], as [JSON.parse] keeps it. *)
Fixpoint member (key : string) (members : list (string * json)) : option json :=
  match members with
  | [] => None
  | (k, v) :: rest =>
      match member key rest with
      | Some v' => Some v'
      | None => if bool_decide (k = key) then Some v else None
      end
  end.

(** [analysis.key]: reading a property of [null] throws a TypeError; the
    keys read here are own properties of objects only. *)
Definition getProp (analysis : json) (key : string) : Exc (option json) :=
  match analysis with
  | JNull =>
      Throw (ErrorObj ("Cannot read properties of null (reading '" +:+ key +:+ "')"))
  | JObj members => Ok (member key members)
  | _ => Ok None
  end.

(** The first position holding [c] and what follows it. *)
Fixpoint dropTo (c : ascii) (s : string) : option string :=
  match s with
  | "" => None
  | String a s' => if decide (a = c) then Some s' else dropTo c s'
  end.

(** The longest prefix of [s] that ends in [c]. *)
Fixpoint takeToLast (c : ascii) (s : string) : option string :=
  match s with
  | "" => None
  | String a s' =>
      match takeToLast c s' with
      | Some t => Some (String a t)
      | None => if decide (a = c) then Some (String a "") else None
      end
  end.

(** [response.match(/\{[\s\S]*\}/)]: from the first opening brace to the
    last closing brace after it. *)
Definition jsonMatch (response : string) : option string :=
  rest ← dropTo "{"%char response;
  body ← takeToLast "}"%char rest;
  Some (String "{"%char body).

Definition nonConformant (failedCriteria warnings : list json) : json :=
  JObj [("level", JStr "Non-conformant"); ("passedCriteria", JArr []);
        ("failedCriteria", JArr failedCriteria); ("warnings", JArr warnings)].

(** Lines 121-131: the analysis used when the response has no JSON. *)
Definition fallbackAnalysis : json :=
  JObj [("risks", JArr [JStr "Unable to parse detailed analysis"]);
        ("summary", JStr "PDF analyzed but detailed results unavailable");
        ("riskLevel", JStr "medium");
        ("wcagConformance", nonConformant [] [JStr "Analysis parsing failed"])].

Record Result := {
  filename : string;
  success : bool;
  error : option string;
  risks : json;
  summary : json;
  riskLevel : json;
  wcagConformance : json;
}.

(** The modules the route imports.  [chatCompletionAnalysis wcagContext
    pdfContent] is the call of [chatCompletion] on the fixed analysis
    prompt filled in with the two texts, with [wcagContext] as context and
    temperature 0.3; [JSON_parse] is [JSON.parse], [None] when it throws. *)
Class Collaborators := {
  File : Type;
  file_name : File → string;
  file_type : File → string;
  extractTextFromDocument : File → string → Exc string;
  findRelevantContext : string → nat → Exc string;
  chatCompletionAnalysis : string → string → Exc string;
  JSON_parse : string → option json;
}.

(** [text.substring(0, 8000)] *)
Definition excerptLength : nat := 8 * 1000.

(** [v || d] *)
Definition orDefault (v : option json) (d : json) : json :=
  match v with
  | Some x => if truthy x then x else d
  | None => d
  end.

Section Route.
Context `{C : Collaborators}.

(** Lines 110-132: the analysis taken from the response. *)
Definition parseAnalysis (analysisResponse : string) : json :=
  match jsonMatch analysisResponse with
  | Some jsonText =>
      match JSON_parse jsonText with
      | Some analysis => analysis
      | None => fallbackAnalysis
      end
  | None => fallbackAnalysis
  end.

Definition noTextResult (pdfFile : File) : Result :=
  {| filename := file_name pdfFile; success := false;
     error := Some "No text extracted from PDF";
     risks := JArr [];
     summary := JStr "Unable to extract text for analysis";
     riskLevel := JStr "high";
     wcagConformance :=
       nonConformant
         [JObj [("criterion", JStr "N/A"); ("name", JStr "Unable to analyze");
                ("level", JStr "AA");
                ("description", JStr "PDF could not be processed for analysis");
                ("impact", JStr "Cannot determine compliance status")]]
         [] |}.

(** Lines 134-146: the entry pushed for an analysis. *)
Definition analysisResult (pdfFile : File) (analysis : json) : Exc Result :=
  risks ← getProp analysis "risks";;;
  summary ← getProp analysis "summary";;;
  riskLevel ← getProp analysis "riskLevel";;;
  wcagConformance ← getProp analysis "wcagConformance";;;
  Ok {| filename := file_name pdfFile; success := true; error := None;
        risks := orDefault risks (JArr []);
        summary := orDefault summary (JStr "Analysis completed");
        riskLevel := orDefault riskLevel (JStr "medium");
        wcagConformance := orDefault wcagConformance (nonConformant [] []) |}.

(** Lines 30-146: the body of the [try] for one file. *)
Definition tryBody (pdfFile : File) : Exc Result :=
  text ← extractTextFromDocument pdfFile (file_type pdfFile);;;
  if bool_decide (text = "") || (String.length (trim text) =? 0) then
    Ok (noTextResult pdfFile)
  else
    wcagContext ← findRelevantContext "WCAG 2.1 AA compliance standards requirements" 10;;;
    analysisResponse ← chatCompletionAnalysis wcagContext (substring text 0 excerptLength);;;
    analysisResult pdfFile (parseAnalysis analysisResponse).

(** Lines 147-163: the entry pushed by the [catch]. *)
Definition failedResult (pdfFile : File) (e : thrown) : Result :=
  {| filename := file_name pdfFile; success := false;
     error := Some (errorMessage e);
     risks := JArr [];
     summary := JStr "Analysis failed";
     riskLevel := JStr "high";
     wcagConformance := nonConformant [] [] |}.

Definition loopBody (results : list Result) (pdfFile : File) : list Result :=
  match tryBody pdfFile with
  | Ok r => results ++ [r]
  | Throw e => results ++ [failedResult pdfFile e]
  end.

(** The entry of one file: the one its [try] pushes, or the one of the
    [catch]. *)
Definition fileResult (pdfFile : File) : Result :=
  match tryBody pdfFile with
  | Ok r => r
  | Throw e => failedResult pdfFile e
  end.

(** No text between an opening and a closing brace of the response is
    accepted by [JSON.parse]. *)
Definition noParseableObject (response : string) : Prop :=
  ∀ sub, includes response sub = true →
    startsWith sub "{" = true → endsWith sub "}" = true →
    JSON_parse sub = None.

Inductive Response :=
  | BadRequest (error : string)
  | Results (results : list Result).

Definition POST (pdfFiles : list File) : Response :=
  if length pdfFiles =? 0 then BadRequest "No PDF files provided"
  else if 10 <? length pdfFiles then BadRequest "Maximum 10 PDFs allowed per request"
  else Results (foldl loopBody [] pdfFiles).

End Route.

(** The entry the route reports when the response held no JSON. *)
Definition fallbackResult (name : string) : Result :=
  {| filename := name; success := true; error := None;
     risks := JArr [JStr "Unable to parse detailed analysis"];
     summary := JStr "PDF analyzed but detailed results unavailable";
     riskLevel := JStr "medium";
     wcagConformance := nonConformant [] [JStr "Analysis parsing failed"] |}.

End Analyze.

(** ** The discovery crawler for PDF links *)

Module Crawler.
Import JS.

(** The URL class of the platform.  [URL_new s] is [new URL(s)] and
    [URL_new_base s base] is [new URL(s, base)], [None] when the
    constructor throws; [clearHash u] is [u] after [u.hash = '']. *)
Class UrlApi := {
  URL : Type;
  URL_new : string → option URL;
  URL_new_base : string → string → option URL;
  protocol : URL → string;
  hostname : URL → string;
  pathname : URL → string;
  searchParams_toString : URL → string;
  href : URL → string;
  clearHash : URL → URL;
}.

(** [fetchPage]: the body of the page, [None] for the [null] that a failed
    request yields. *)
Class Web := { fetchPage : string → option string }.

Definition is_quote (c : ascii) : bool :=
  match c with
  | "034"%char | "'"%char => true
  | _ => false
  end.

(** The longest prefix without a quote, and what follows it. *)
Fixpoint spanUnquoted (s : string) : string * string :=
  match s with
  | "" => ("", "")
  | String c s' =>
      if is_quote c then ("", s)
      else let '(a, b) := spanUnquoted s' in (String c a, b)
  end.

(** The [hrefRegex] of [extractPDFLinks] anchored at the start of [s]:
    [href=] in any case, a quote, the longest non-empty run of characters
    other than quotes (the captured link), a quote.  The result is the
    capture and the length of the whole match. *)
Definition hrefAt (s : string) : option (string * nat) :=
  if startsWith (toLowerCase (substring s 0 5)) "href=" then
    match substring s 5 (String.length s - 5) with
    | String q rest =>
        if is_quote q then
          match spanUnquoted rest with
          | (String c link, String _ _) =>
              Some (String c link, 5 + 1 + String.length (String c link) + 1)
          | _ => None
          end
        else None
    | "" => None
    end
  else None.

(** The captures of the successive [hrefRegex.exec(html)] calls. *)
Fixpoint hrefScan (s : string) (skip : nat) : list string :=
  match s with
  | "" => []
  | String _ s' =>
      match skip with
      | S k => hrefScan s' k
      | 0 =>
          match hrefAt s with
          | Some (link, n) => link :: hrefScan s' (n - 1)
          | None => hrefScan s' 0
          end
      end
  end.

Definition hrefMatches (html : string) : list string := hrefScan html 0.

(** [s.replace(/\/$/, '')] *)
Definition stripTrailingSlash (s : string) : string :=
  match String.rev s with
  | String "/"%char r => String.rev r
  | _ => s
  end.

(** [pathname.split('/').pop()]: what follows the last slash. *)
Fixpoint lastSegment (s : string) : string :=
  match s with
  | "" => ""
  | String c s' => if includes s' "/" then lastSegment s'
                   else if decide (c = "/"%char) then s' else s
  end.

Section Crawl.
Context `{U : UrlApi} `{W : Web}.

(** Lines 41-45: the absolute form of a link, [None] when [new URL]
    throws. *)
Definition absolutize (baseUrl : string) (baseUrlObj : URL) (link : string)
    : option string :=
  if startsWith link "/" then
    Some (protocol baseUrlObj +:+ "//" +:+ hostname baseUrlObj +:+ link)
  else if negb (startsWith link "http") then
    href <$> URL_new_base link baseUrl
  else Some link.

(** Lines 52-54 *)
Definition isPdf (link : string) (linkUrl : URL) : bool :=
  endsWith (toLowerCase (pathname linkUrl)) ".pdf"
  || includes (toLowerCase link) ".pdf"
  || includes (searchParams_toString linkUrl) ".pdf".

(** Line 50 *)
Definition sameDomain (baseDomain : string) (linkUrl : URL) : bool :=
  bool_decide (hostname linkUrl = baseDomain)
  || endsWith (hostname linkUrl) ("." +:+ baseDomain).

(** Lines 32-66: the body of the [while] for one captured link. *)
Definition visitLink (baseUrl : string) (baseUrlObj : URL) (pdfLinks : list string)
    (link : string) : list string :=
  if startsWith link "javascript:" || startsWith link "mailto:"
     || startsWith link "tel:" || startsWith link "#"
  then pdfLinks
  else
    match absolutize baseUrl baseUrlObj link with
    | None => pdfLinks
    | Some link =>
        match URL_new link with
        | None => pdfLinks
        | Some linkUrl =>
            if sameDomain (hostname baseUrlObj) linkUrl && isPdf link linkUrl then
              let normalizedUrl := stripTrailingSlash (href (clearHash linkUrl)) in
              if bool_decide (normalizedUrl ∈ pdfLinks) then pdfLinks
              else pdfLinks ++ [normalizedUrl]
            else pdfLinks
        end
    end.

(** The [while] of [extractPDFLinks] over the remaining captures. *)
Fixpoint linkLoop (baseUrl : string) (baseUrlObj : URL) (maxPdfs : number)
    (links : list string) (pdfLinks : list string) : list string :=
  match links with
  | [] => pdfLinks
  | link :: rest =>
      if lengthBelow (length pdfLinks) maxPdfs
      then linkLoop baseUrl baseUrlObj maxPdfs rest (visitLink baseUrl baseUrlObj pdfLinks link)
      else pdfLinks
  end.

Definition invalidUrl : thrown := ErrorObj "Invalid URL".

Definition extractPDFLinks (html baseUrl : string) (maxPdfs : number)
    : Exc (list string) :=
  match URL_new baseUrl with
  | None => Throw invalidUrl
  | Some baseUrlObj => Ok (linkLoop baseUrl baseUrlObj maxPdfs (hrefMatches html) [])
  end.

Record PdfRecord := { url : string; name : string }.

Global Instance PdfRecord_eq_dec : EqDecision PdfRecord.
Proof. solve_decision. Defined.

(** The locals of [crawlForPDFs]; [fetched] is the log of the calls of
    [fetchPage], oldest first. *)
Record State := {
  visited : gset string;
  pdfLinks : list PdfRecord;
  queue : list string;
  depthMap : gmap string nat;
  fetched : list string;
}.

Definition maxDepth : nat := 3.

Definition init (startUrl : string) : State :=
  {| visited := ∅; pdfLinks := []; queue := [startUrl];
     depthMap := {[ startUrl := 0 ]}; fetched := [] |}.

(** Lines 98-107: the records added for the links found on a page. *)
Fixpoint recordLoop (foundPDFs : list string) (pdfLinks : list PdfRecord)
    : Exc (list PdfRecord) :=
  match foundPDFs with
  | [] => Ok pdfLinks
  | pdfUrl :: rest =>
      if bool_decide (Exists (λ p, url p = pdfUrl) pdfLinks) then recordLoop rest pdfLinks
      else
        match URL_new pdfUrl with
        | None => Throw invalidUrl
        | Some urlObj =>
            let name :=
              let seg := lastSegment (pathname urlObj) in
              if bool_decide (seg = "") then "document.pdf" else seg in
            recordLoop rest
              (pdfLinks ++ [{| url := pdfUrl;
                               name := if endsWith name ".pdf" then name
                                       else name +:+ ".pdf" |}])
        end
  end.

(** Lines 113-118: the loop over [pageLinks]. *)
Fixpoint enqueueLoop (depth : nat) (pageLinks : list string)
    (visited : gset string) (queue : list string) (depthMap : gmap string nat)
    : list string * gmap string nat :=
  match pageLinks with
  | [] => (queue, depthMap)
  | pageLink :: rest =>
      if negb (bool_decide (pageLink ∈ visited))
         && negb (bool_decide (is_Some (depthMap !! pageLink)))
      then enqueueLoop depth rest visited (queue ++ [pageLink])
             (<[pageLink := depth + 1]> depthMap)
      else enqueueLoop depth rest visited queue depthMap
  end.

(** Line 112 *)
Definition pageLinksOf (html url : string) : Exc (list string) :=
  links ← extractPDFLinks html url (Finite 50);;;
  Ok (List.filter (λ link, negb (endsWith link ".pdf")) links).

Inductive Step :=
  | Exit
  | Next (st : State)
  | Raise (e : thrown).

(** Lines 84-121: the loop test and one iteration. *)
Definition step (maxPdfs : number) (st : State) : Step :=
  match queue st with
  | [] => Exit
  | url :: queue' =>
      if negb (lengthBelow (length (pdfLinks st)) maxPdfs) then Exit
      else
        let depth := default 0 (depthMap st !! url) in
        if bool_decide (url ∈ visited st) || (maxDepth <? depth) then
          Next {| visited := visited st; pdfLinks := pdfLinks st; queue := queue';
                  depthMap := depthMap st; fetched := fetched st |}
        else
          let visited' := {[ url ]} ∪ visited st in
          let fetched' := fetched st ++ [url] in
          match fetchPage url with
          | Some (String c html' as html) =>
              match extractPDFLinks html url
                      (minusLength maxPdfs (length (pdfLinks st))) with
              | Throw e => Raise e
              | Ok foundPDFs =>
                  match recordLoop foundPDFs (pdfLinks st) with
                  | Throw e => Raise e
                  | Ok pdfLinks' =>
                      if lengthBelow (length pdfLinks') maxPdfs && (depth <? maxDepth) then
                        match pageLinksOf html url with
                        | Throw e => Raise e
                        | Ok pageLinks =>
                            let '(queue'', depthMap') :=
                              enqueueLoop depth pageLinks visited' queue' (depthMap st) in
                            Next {| visited := visited'; pdfLinks := pdfLinks';
                                    queue := queue''; depthMap := depthMap';
                                    fetched := fetched' |}
                        end
                      else
                        Next {| visited := visited'; pdfLinks := pdfLinks'; queue := queue';
                                depthMap := depthMap st; fetched := fetched' |}
                  end
              end
          | _ =>
              Next {| visited := visited'; pdfLinks := pdfLinks st; queue := queue';
                      depthMap := depthMap st; fetched := fetched' |}
          end
  end.

(** The states the loop passes through. *)
Inductive reachable (startUrl : string) (maxPdfs : number) : State → Prop :=
  | reachable_init : reachable startUrl maxPdfs (init startUrl)
  | reachable_step st st' :
      reachable startUrl maxPdfs st →
      step maxPdfs st = Next st' →
      reachable startUrl maxPdfs st'.

(** [crawlForPDFs] run for at most [fuel] iterations; [None] when the loop
    has not ended by then. *)
Fixpoint run (maxPdfs : number) (fuel : nat) (st : State)
    : option (Exc (list PdfRecord)) :=
  match fuel with
  | 0 => None
  | S fuel' =>
      match step maxPdfs st with
      | Exit => Some (Ok (pdfLinks st))
      | Raise e => Some (Throw e)
      | Next st' => run maxPdfs fuel' st'
      end
  end.

Definition crawlForPDFs (fuel : nat) (startUrl : string) (maxPdfs : number)
    : option (Exc (list PdfRecord)) :=
  run maxPdfs fuel (init startUrl).

(** A link the crawl follows from a fetched page. *)
Definition follows (u v : string) : Prop :=
  ∃ html pageLinks, fetchPage u = Some html ∧ html ≠ ""
    ∧ pageLinksOf html u = Ok pageLinks ∧ v ∈ pageLinks.

(** [hops n u v]: a chain of [n] followed links leads from [u] to [v]. *)
Inductive hops : nat → string → string → Prop :=
  | hops_O u : hops 0 u u
  | hops_S n u v w : hops n u v → follows v w → hops (S n) u w.

(** A link that [extractPDFLinks] returns for the page [html] at
    [baseUrl]: a captured [href] of the page that is not skipped, whose
    absolute form [link] parses to a URL [linkUrl] of the same domain, and
    for which [link] and [linkUrl] pass the PDF test; [normalizedUrl] is
    the normalised form of [linkUrl]. *)
Definition pdfCandidate (html baseUrl : string) (baseUrlObj : URL)
    (normalizedUrl : string) : Prop :=
  ∃ captured link linkUrl,
    captured ∈ hrefMatches html
    ∧ (startsWith captured "javascript:" || startsWith captured "mailto:"
       || startsWith captured "tel:" || startsWith captured "#") = false
    ∧ absolutize baseUrl baseUrlObj captured = Some link
    ∧ URL_new link = Some linkUrl
    ∧ sameDomain (hostname baseUrlObj) linkUrl = true
    ∧ isPdf link linkUrl = true
    ∧ normalizedUrl = stripTrailingSlash (href (clearHash linkUrl)).

(** The invariant of the crawl loop. *)
Record Inv (startUrl : string) (st : State) : Prop := {
  inv_nodup : NoDup (fetched st);
  inv_visited : ∀ u, u ∈ visited st ↔ u ∈ fetched st;
  inv_depth : ∀ u d, depthMap st !! u = Some d → d ≤ maxDepth ∧ hops d startUrl u;
  inv_queue : ∀ u, u ∈ queue st → is_Some (depthMap st !! u);
  inv_fetched : ∀ u, u ∈ fetched st → is_Some (depthMap st !! u);
}.

(** *** The handler and the bounds of the crawl *)

(** The number of loop iterations that a URL waiting in the queue can
    still cause when [k] more levels may be followed below it: its own,
    and those of up to 50 page links. *)
Fixpoint cost (k : nat) : nat :=
  match k with
  | 0 => 1
  | S k' => 1 + 50 * cost k'
  end.

Definition weight (depth : nat) : nat := cost (maxDepth - depth).

(** The iterations that the queue can still cause. *)
Definition potential (st : State) : nat :=
  sum_list_with (λ u, weight (default 0 (depthMap st !! u))) (queue st).

(** What holds of the records collected so far. *)
Record Collected (maxPdfs : number) (pdfLinks : list PdfRecord) : Prop := {
  collected_nodup : NoDup (url <$> pdfLinks);
  collected_bound : admits maxPdfs (length pdfLinks);
  collected_names : Forall (λ p, endsWith (name p) ".pdf" = true) pdfLinks;
}.

Inductive Response :=
  | BadRequest (error : string)
  | ScanOk (pdfs : list PdfRecord) (count : nat)
  | ServerError (error : string).

(** [url.startsWith('http') ? url : `https://${url}`] *)
Definition validateUrl (url : string) : string :=
  if startsWith url "http" then url else "https://" +:+ url.

(** The handler on the body [{url, maxPdfs = 100}], the crawl running for
    at most [fuel] iterations ([None] when it has not ended by then).
    The handler does not validate [maxPdfs]: it enters comparisons and a
    subtraction only, which read whatever value the body holds as the
    number given here; [None] is an absent field. *)
Definition POST (fuel : nat) (url : option string) (maxPdfs : option number)
    : option Response :=
  let maxPdfs := default (Finite 100) maxPdfs in
  if negb (truthy_str url) then Some (BadRequest "URL is required")
  else
    let validatedUrl := validateUrl (default "" url) in
    match URL_new validatedUrl with
    | None => Some (BadRequest "Invalid URL format")
    | Some _ =>
        if above maxPdfs 100 then Some (BadRequest "Maximum 100 PDFs allowed")
        else
          match crawlForPDFs fuel validatedUrl maxPdfs with
          | None => None
          | Some (Ok pdfs) => Some (ScanOk pdfs (length pdfs))
          | Some (Throw e) =>
              Some (ServerError
                      match e with
                      | ErrorObj message => message
                      | NonError => "Failed to scan for PDFs"
                      end)
          end
    end.

End Crawl.

End Crawler.

(** ** Concrete collaborators, used to run the routes on examples *)

Module SimpleUrl.
Import JS Crawler.

(** Absolute [http:] and [https:] URLs made of a host, a path, a query and
    a fragment (no user, no port, no dot segments, no escapes), which the
    URL class takes apart as follows. *)
Record url := {
  u_protocol : string;
  u_hostname : string;
  u_pathname : string;
  u_search : string;
  u_hash : string;
}.

Definition is_in (set : string) (c : ascii) : bool := includes set (String c "").

(** The longest prefix without a character of [stop], and the rest. *)
Fixpoint break (stop : string) (s : string) : string * string :=
  match s with
  | "" => ("", "")
  | String c s' =>
      if is_in stop c then ("", s)
      else let '(a, b) := break stop s' in (String c a, b)
  end.

Definition dropChars (n : nat) (s : string) : string :=
  substring s n (String.length s - n).

Definition afterScheme (s : string) : option (string * string) :=
  if startsWith (toLowerCase s) "https://" then Some ("https:", dropChars 8 s)
  else if startsWith (toLowerCase s) "http://" then Some ("http:", dropChars 7 s)
  else None.

Definition parse (s : string) : option url :=
  match afterScheme s with
  | None => None
  | Some (proto, rest) =>
      let '(host, r1) := break "/?#" rest in
      let '(path, r2) := break "?#" r1 in
      let '(search, hash) := break "#" r2 in
      if bool_decide (host = "") then None
      else Some {| u_protocol := proto; u_hostname := toLowerCase host;
                   u_pathname := if bool_decide (path = "") then "/" else path;
                   u_search := search; u_hash := hash |}
  end.

Definition serialize (u : url) : string :=
  u_protocol u +:+ "//" +:+ u_hostname u +:+ u_pathname u +:+ u_search u +:+ u_hash u.

(** The path up to and including its last slash. *)
Definition directory (path : string) : string :=
  substring path 0 (String.length path - String.length (lastSegment path)).

(** A reference is absolute, or a path relative to the directory of the
    base. *)
Definition parseWithBase (s base : string) : option url :=
  match parse s with
  | Some u => Some u
  | None =>
      b ← parse base;
      parse (u_protocol b +:+ "//" +:+ u_hostname b +:+ directory (u_pathname b) +:+ s)
  end.

Global Instance api : UrlApi := {|
  URL := url;
  URL_new := parse;
  URL_new_base := parseWithBase;
  protocol := u_protocol;
  hostname := u_hostname;
  pathname := u_pathname;
  searchParams_toString := λ u, dropChars 1 (u_search u);
  href := serialize;
  clearHash := λ u, {| u_protocol := u_protocol u; u_hostname := u_hostname u;
                       u_pathname := u_pathname u; u_search := u_search u;
                       u_hash := "" |};
|}.

End SimpleUrl.

Module Examples.
Import JS.

Definition dq : string := String "034"%char "".

(** [<a href="target">link</a>] *)
Definition anchor (target : string) : string :=
  "<a href=" +:+ dq +:+ target +:+ dq +:+ ">link</a>".

(** The site of the example scenario: the homepage links to a PDF and to a
    second page, which links to another PDF. *)
Definition scenarioWeb : Crawler.Web := {|
  Crawler.fetchPage := λ url,
    if bool_decide (url = "https://example.com")
    then Some (anchor "/docs/a.pdf" +:+ anchor "/page2")
    else if bool_decide (url = "https://example.com/page2")
    then Some (anchor "/docs/b.pdf")
    else None
|}.

(** A site whose pages form a chain: the page [n] links to a download link
    for page [n + 1], which the crawl follows because it does not end in
    [.pdf]. *)
Definition chainPage (n : nat) : string := "/p" +:+ pretty n +:+ ".pdf?view=1".

Definition chainWeb : Crawler.Web := {|
  Crawler.fetchPage := λ url,
    if bool_decide (url = "https://example.com") then Some (anchor (chainPage 1))
    else if bool_decide (url = "https://example.com" +:+ chainPage 1)
    then Some (anchor (chainPage 2))
    else if bool_decide (url = "https://example.com" +:+ chainPage 2)
    then Some (anchor (chainPage 3))
    else if bool_decide (url = "https://example.com" +:+ chainPage 3)
    then Some (anchor (chainPage 4))
    else if bool_decide (url = "https://example.com" +:+ chainPage 4)
    then Some (anchor (chainPage 5))
    else None
|}.

(** The state after [n] further iterations of the crawl loop, as long as
    the loop goes on. *)
Fixpoint advance `{U : Crawler.UrlApi} `{W : Crawler.Web}
    (maxPdfs : number) (n : nat) (st : Crawler.State) : Crawler.State :=
  match n with
  | 0 => st
  | S n' =>
      match Crawler.step maxPdfs st with
      | Crawler.Next st' => advance maxPdfs n' st'
      | _ => st
      end
  end.

(** A folder of three files; the text of the second cannot be
    extracted. *)
Definition driveFile (n : string) : Sync.DriveFile :=
  {| Sync.id := Some ("id-" +:+ n); Sync.name := Some n;
     Sync.mimeType := Some "text/plain" |}.

Definition batch : list Sync.DriveFile :=
  [driveFile "one.txt"; driveFile "two.pdf"; driveFile "three.txt"].

(** A listing entry without a name. *)
Definition untitled : Sync.DriveFile :=
  {| Sync.id := Some "id-untitled"; Sync.name := None; Sync.mimeType := None |}.

Definition textOne : string := "The quick brown fox jumps over the lazy dog.".

Definition textThree : string :=
  "First paragraph of the third document." +:+ Chunker.LFLF
  +:+ "Second paragraph of the third document.".

Definition syncExample : Sync.Collaborators := {|
  Sync.Embedding := list Z;
  Sync.listFilesInFolder := λ folderId,
    if bool_decide (folderId = "folder") then Ok batch
    else if bool_decide (folderId = "mixed") then Ok (untitled :: batch)
    else Throw (ErrorObj "File not found");
  Sync.getFileContent := λ fid _, Ok (String.list_byte_of_string fid);
  Sync.extractTextFromDocument := λ buffer _,
    let fid := String.string_of_list_byte buffer in
    if bool_decide (fid = "id-one.txt") then Ok textOne
    else if bool_decide (fid = "id-three.txt") then Ok textThree
    else Throw (ErrorObj "Invalid PDF structure");
  Sync.getEmbedding := λ chunk, Ok [Z.of_nat (String.length chunk)];
  Sync.upsertToPinecone := λ _, Ok ();
|}.


Definition handbookVector (chunkIndex : nat) (chunk : string) : Sync.Vector (list Z) :=
  Sync.chunkVector "f1" "handbook.txt" None chunkIndex chunk [0%Z].

Definition otherMatch : Preview.ScoredMatch :=
  Preview.storedAs "f2-chunk-0"
    {| Sync.fileId := "f2"; Sync.title := "notes.txt";
       Sync.text := "Unrelated text of another document.";
       Sync.chunkIndex := 0; Sync.md_mimeType := None |}.

Definition previewExample : Preview.Collaborators := {|
  Preview.Embedding := list Z;
  Preview.getEmbedding := λ _, Ok [0%Z];
  Preview.queryPinecone := λ _ _,
    Ok [Preview.stored (handbookVector 2 "Chapter two covers operable interfaces.");
        otherMatch;
        Preview.stored (handbookVector 0 "Introduction to the accessibility handbook.");
        Preview.stored (handbookVector 1 "Chapter one covers perceivable content.")];
  Preview.StringToNumber := λ _, None;
|}.

(** Three uploads; the model answers the second one with prose around
    braces that hold no JSON.  The stand-in for [JSON.parse] accepts the
    empty object only. *)
Definition analyzeExample : Analyze.Collaborators := {|
  Analyze.File := string;
  Analyze.file_name := λ f, f;
  Analyze.file_type := λ _, "application/pdf";
  Analyze.extractTextFromDocument := λ f _, Ok ("Text of " +:+ f);
  Analyze.findRelevantContext := λ _ _, Ok "WCAG 2.1 success criteria";
  Analyze.chatCompletionAnalysis := λ _ pdfContent,
    if bool_decide (pdfContent = "Text of second.pdf")
    then Ok "The document {as far as I can tell} looks fine."
    else Ok "{}";
  Analyze.JSON_parse := λ s,
    if bool_decide (s = "{}") then Some (Analyze.JObj []) else None;
|}.

Fixpoint repeatChar (n : nat) (c : ascii) : string :=
  match n with
  | 0 => ""
  | S n' => String c (repeatChar n' c)
  end.

(** One 3000-character run of letters. *)
Definition letters3000 : string := repeatChar (6 * 500) "a"%char.

End Examples.

(** ** Further concrete collaborators *)

Module MoreExamples.
Import JS.

(** A folder whose only file holds a short greeting. *)
Definition tinySync : Sync.Collaborators := {|
  Sync.Embedding := list Z;
  Sync.listFilesInFolder := λ _, Ok [Examples.driveFile "note.txt"];
  Sync.getFileContent := λ fid _, Ok (String.list_byte_of_string fid);
  Sync.extractTextFromDocument := λ _ _, Ok "  Hello world.  ";
  Sync.getEmbedding := λ chunk, Ok [Z.of_nat (String.length chunk)];
  Sync.upsertToPinecone := λ _, Ok ();
|}.

End MoreExamples.

(** ** The OpenAI helper of the library *)

Module OpenAI.
Import JS.

(** [process.env] *)
Abbreviation Env := (gmap string string).

(** What [new OpenAI({apiKey})] is built from. *)
Record Client := { apiKey : string }.

(** The module-level [openaiClient]: [None] is [null]. *)
Abbreviation Singleton := (option Client).

(** A chat message.  The role is a string at run time: the route that
    builds the history only casts it. *)
Record Message := { role : string; content : string }.

Global Instance Message_eq_dec : EqDecision Message.
Proof. solve_decision. Defined.

(** The body of [client.chat.completions.create]. *)
Record ChatRequest {Number : Type} := {
  model : string;
  messages : list Message;
  temperature : Number;
  max_tokens : nat;
}.
Arguments ChatRequest : clear implicits.

(** The [options] argument of [chatCompletion]; an absent field is
    [None]. *)
Record Options {Number : Type} := {
  opt_temperature : option Number;
  preserveSystemMessage : option bool;
}.
Arguments Options : clear implicits.

(** The calls of the SDK.  [embeddings_create client model input] returns
    the embeddings of [response.data], in order; [chat_create] returns
    [response.choices[0]?.message?.content], [None] when it is absent.
    [Number] is the type of the temperature and [number_0_7] the literal
    [0.7]. *)
Class Sdk := {
  Number : Type;
  number_0_7 : Number;
  Embedding : Type;
  embeddings_create : Client → string → string → Exc (list Embedding);
  chat_create : Client → ChatRequest Number → Exc (option string);
}.

Definition keyError : thrown := ErrorObj "OpenAI API key must be set".

Definition getOpenAIClient (env : Env) (openaiClient : Singleton)
    : Exc Client * Singleton :=
  match openaiClient with
  | Some client => (Ok client, openaiClient)
  | None =>
      let apiKey := env !! "OPENAI_API_KEY" in
      if negb (truthy_str apiKey) then (Throw keyError, None)
      else
        let client := {| apiKey := default "" apiKey |} in
        (Ok client, Some client)
  end.

Definition contextPrompt (context : string) : string :=
  "You are an intelligent advisor for ADA Compliance transformation. Use the following context from the knowledge base to answer questions accurately and helpfully:"
  +:+ String LF (String LF "") +:+ context +:+ String LF (String LF "")
  +:+ "If the context doesn't contain relevant information, use your general knowledge but indicate when you're doing so.".

Definition defaultPrompt : string :=
  "You are an intelligent advisor for ADA Compliance transformation. Provide helpful, accurate information about project management and ADA compliance.".

(** [messages.some(msg => msg.role === 'system')] *)
Definition hasSystemMessage (messages : list Message) : bool :=
  existsb (λ msg, bool_decide (role msg = "system")) messages.

(** Reading [data[0].embedding] of an empty [data] is a [TypeError]. *)
Definition noEmbedding : thrown :=
  ErrorObj "Cannot read properties of undefined (reading 'embedding')".

Section Calls.
Context `{S : Sdk}.

(** The [systemMessage] of [chatCompletion]; [None] is [undefined]. *)
Definition systemMessage (messages : list Message) (context : option string)
    (options : option (Options Number)) : option string :=
  if hasSystemMessage messages
     && default false (options ≫= preserveSystemMessage)
  then None
  else if truthy_str context then Some (contextPrompt (default "" context))
  else Some defaultPrompt.

Definition allMessages (messages : list Message) (context : option string)
    (options : option (Options Number)) : list Message :=
  let systemMessage := systemMessage messages context options in
  if truthy_str systemMessage
  then {| role := "system"; content := default "" systemMessage |} :: messages
  else messages.

(** The request that [chatCompletion] sends. *)
Definition chatRequest (messages : list Message) (context : option string)
    (options : option (Options Number)) : ChatRequest Number :=
  {| model := "gpt-4o-mini";
     messages := allMessages messages context options;
     temperature := default number_0_7 (options ≫= opt_temperature);
     max_tokens := 4 * 1000 |}.

Definition getEmbedding (env : Env) (openaiClient : Singleton) (text : string)
    : Exc Embedding * Singleton :=
  match getOpenAIClient env openaiClient with
  | (Throw e, st) => (Throw e, st)
  | (Ok client, st) =>
      (data ← embeddings_create client "text-embedding-3-small" text;;;
       match data with
       | first :: _ => Ok first
       | [] => Throw noEmbedding
       end, st)
  end.

Definition chatCompletion (env : Env) (openaiClient : Singleton)
    (messages : list Message) (context : option string)
    (options : option (Options Number)) : Exc string * Singleton :=
  match getOpenAIClient env openaiClient with
  | (Throw e, st) => (Throw e, st)
  | (Ok client, st) =>
      (content ← chat_create client (chatRequest messages context options);;;
       Ok (if truthy_str content then default "" content else ""), st)
  end.

End Calls.

End OpenAI.

(** ** The chat route *)

Module Chat.
Import JS.

Abbreviation mval := Preview.mval.
Abbreviation Message := OpenAI.Message.

(** The metadata keys the route reads; an absent key is [None]. *)
Record RecordMetadata := {
  title : option mval;
  text : option mval;
  fileId : option mval;
  chunkIndex : option mval;
}.

Record ScoredMatch {Score : Type} := {
  id : string;
  score : option Score;
  metadata : option RecordMetadata;
}.
Arguments ScoredMatch : clear implicits.

(** An entry of [sources]. *)
Record Source {Score : Type} := {
  s_id : string;
  s_title : mval;
  s_text : mval;
  s_score : Score;
  s_fileId : mval;
  s_chunkIndex : mval;
}.
Arguments Source : clear implicits.

(** [Score] is the type of the numbers that the index returns as scores,
    [score_truthy] tells those that are neither zero nor NaN, and
    [score_0] is the literal [0]. *)
Class Collaborators := {
  Embedding : Type;
  Score : Type;
  score_truthy : Score → bool;
  score_0 : Score;
  getEmbedding : string → Exc Embedding;
  queryPinecone : Embedding → nat → Exc (list (ScoredMatch Score));
  chatCompletion : list Message → option string → Exc string;
}.

(** [match.metadata || {}] *)
Definition metadataOf {Score} (m : ScoredMatch Score) : RecordMetadata :=
  default {| title := None; text := None; fileId := None; chunkIndex := None |}
    (metadata m).

(** [a || b] where [b] is a literal. *)
Definition orLiteral (a : option mval) (b : mval) : mval :=
  default b (or_else Preview.truthy a (Some b)).

(** One line of the context. *)
Definition contextLine {Score} (m : ScoredMatch Score) : string :=
  let metadata := metadataOf m in
  "[" +:+ Preview.toString (orLiteral (title metadata) (Preview.MStr "Document"))
  +:+ "]: "
  +:+ Preview.toString (orLiteral (text metadata) (Preview.MStr (id m))).

Definition contextOf {Score} (matches : list (ScoredMatch Score)) : string :=
  join (String LF (String LF "")) (contextLine <$> matches).

Definition is_star (c : ascii) : bool := bool_decide (c = "*"%char).

(** [response.replace(/\*\*/g, '')]: the scan goes from left to right and
    resumes after each match. *)
Fixpoint stripBold (s : string) : string :=
  match s with
  | "" => ""
  | String c s' =>
      match s' with
      | String d s'' =>
          if is_star c && is_star d then stripBold s''
          else String c (stripBold s')
      | "" => String c ""
      end
  end.

(** Two asterisks in a row. *)
Definition stars (a b : ascii) : bool := is_star a && is_star b.

(** The characters of [s] other than asterisks, in order. *)
Fixpoint others (s : string) : string :=
  match s with
  | "" => ""
  | String c s' => if is_star c then others s' else String c (others s')
  end.

(** [history.map(msg => ({role, content}))] followed by the push of the
    current message. *)
Definition messagesOf (history : list Message) (message : string) : list Message :=
  ((λ msg, {| OpenAI.role := OpenAI.role msg; OpenAI.content := OpenAI.content msg |})
     <$> history)
  ++ [{| OpenAI.role := "user"; OpenAI.content := message |}].

Section Route.
Context `{C : Collaborators}.

(** [matches.length > 0 ? matches[0].score || 0 : 0] *)
Definition confidenceScore (matches : list (ScoredMatch Score)) : Score :=
  match matches with
  | first :: _ => default score_0 (or_else score_truthy (score first) (Some score_0))
  | [] => score_0
  end.

Definition sourceOf (m : ScoredMatch Score) : Source Score :=
  {| s_id := id m;
     s_title := orLiteral (metadata m ≫= title) (Preview.MStr "Untitled Document");
     s_text := orLiteral (metadata m ≫= text) (Preview.MStr "");
     s_score := default score_0 (or_else score_truthy (score m) (Some score_0));
     s_fileId := orLiteral (metadata m ≫= fileId) (Preview.MStr "");
     s_chunkIndex := orLiteral (metadata m ≫= chunkIndex) (Preview.MNum 0) |}.

Inductive Response :=
  | BadRequest (error : string)
  | ChatOk (response : string) (contextUsed : bool)
      (sources : list (Source Score)) (confidenceScore : Score)
  | ServerError (error : string).

(** Lines 16-65, after the check of the message. *)
Definition tryBody (message : string) (history : list Message) : Exc Response :=
  queryEmbedding ← getEmbedding message;;;
  matches ← queryPinecone queryEmbedding 5;;;
  let confidenceScore := confidenceScore matches in
  let context := contextOf matches in
  let sources := sourceOf <$> matches in
  let messages := messagesOf history message in
  response ← chatCompletion messages (Some context);;;
  let response := stripBold response in
  Ok (ChatOk response (0 <? length matches) sources confidenceScore).

(** [history] is [None] when the body has no such field. *)
Definition POST (message : option string) (history : option (list Message))
    : Response :=
  if negb (truthy_str message) then BadRequest "Message is required"
  else
    match tryBody (default "" message) (default [] history) with
    | Ok answer => answer
    | Throw _ => ServerError "Failed to process chat message"
    end.

End Route.

End Chat.

(** ** The PDF processing route *)

Module Process.
Import JS.

Abbreviation Message := OpenAI.Message.

Definition nl : string := String LF "".

(** What the route reads of a parsed analysis: [analysis.risks] is an
    array, whose elements are given as the template prints them, a value
    of positive length without a [map] method, such as a string, or
    anything for which [analysis && analysis.risks &&
    analysis.risks.length > 0] is falsy. *)
Inductive Risks :=
  | RisksArray (risks : list string)
  | RisksOther
  | RisksFalsy.

(** An entry of [processedPDFs]. *)
Inductive Entry :=
  | Processed (filename data : string)
  | Failed (filename error : string).

Definition filename (e : Entry) : string :=
  match e with
  | Processed filename _ => filename
  | Failed filename _ => filename
  end.

Inductive Response :=
  | BadRequest (error : string)
  | ProcessOk (processedPDFs : list Entry)
  | ServerError (error : string).

(** [File] is an uploaded file with its [name] and [type]; [Doc] is a
    document of pdf-lib, whose setters return the document they have
    changed; [JSON_parse] gives the parsed analysis as the route reads
    it; [base64] is [Buffer.from(bytes).toString('base64')]; [Number] is
    the type of the temperature and [number_0_3] the literal [0.3]. *)
Class Collaborators := {
  File : Type;
  name : File → string;
  type : File → string;
  Bytes : Type;
  Doc : Type;
  Number : Type;
  number_0_3 : Number;
  JSON_parse : string → Exc Risks;
  arrayBuffer : File → Exc Bytes;
  PDFDocument_load : Bytes → Exc Doc;
  extractTextFromDocument : File → string → Exc string;
  getPages : Doc → Exc nat;
  setTitle : Doc → string → Exc Doc;
  setProducer : Doc → string → Exc Doc;
  setCreator : Doc → string → Exc Doc;
  setLanguage : Doc → string → Exc Doc;
  chatCompletion : list Message → option string → option (OpenAI.Options Number)
                   → Exc string;
  save : Doc → Exc Bytes;
  base64 : Bytes → string;
}.

(** [s.replace(p, '')] for a string [p]: the first occurrence goes. *)
Fixpoint removeFirst (p s : string) : string :=
  if startsWith s p then substring s (String.length p) (String.length s)
  else
    match s with
    | "" => ""
    | String c s' => String c (removeFirst p s')
    end.

(** Calling [map] on a value that has none. *)
Definition mapTypeError : thrown := ErrorObj "analysis.risks.map is not a function".

Definition correctionPrompt (risks : list string) (text : string) : string :=
  "Based on the following ADA compliance risks identified in a PDF document, provide corrected/improved text content that addresses these issues:"
  +:+ nl +:+ nl +:+ "Risks identified:" +:+ nl
  +:+ join nl ((λ r, "- " +:+ r) <$> risks)
  +:+ nl +:+ nl +:+ "Original PDF content (first 6000 characters):" +:+ nl
  +:+ substring text 0 (6 * 1000)
  +:+ nl +:+ nl +:+ "Provide improved text content that:" +:+ nl
  +:+ "1. Adds proper structure with clear headings" +:+ nl
  +:+ "2. Ensures proper reading order" +:+ nl
  +:+ "3. Includes descriptive text for any visual elements" +:+ nl
  +:+ "4. Uses accessible language and formatting" +:+ nl
  +:+ "5. Maintains the original meaning and content" +:+ nl +:+ nl
  +:+ "Return only the corrected text content, no JSON or explanations.".

Section Route.
Context `{C : Collaborators}.

(** Lines 32-41: the analysis of the file at index [i]; [RisksFalsy]
    stands for [null] too. *)
Definition analysisOf (analysesJson : list string) (i : nat) : Risks :=
  match analysesJson !! i with
  | Some json =>
      if bool_decide (json = "") then RisksFalsy
      else match JSON_parse json with
           | Ok analysis => analysis
           | Throw _ => RisksFalsy
           end
  | None => RisksFalsy
  end.

(** Lines 72-107: [correctedText]. *)
Definition correctedText (analysis : Risks) (text : string) : Exc string :=
  match analysis with
  | RisksArray risks =>
      if 0 <? length risks then
        match chatCompletion
                [{| OpenAI.role := "user";
                    OpenAI.content := correctionPrompt risks text |}]
                None
                (Some {| OpenAI.opt_temperature := Some number_0_3;
                         OpenAI.preserveSystemMessage := None |}) with
        | Ok answer => Ok answer
        | Throw _ => Ok text
        end
      else Ok text
  | RisksOther => Throw mapTypeError
  | RisksFalsy => Ok text
  end.

(** Lines 44-126, inside the [try] of one file.  The loop over the first
    page has an empty body. *)
Definition tryBody (pdfFile : File) (analysis : Risks) : Exc string :=
  buffer ← arrayBuffer pdfFile;;;
  pdfDoc ← PDFDocument_load buffer;;;
  text ← extractTextFromDocument pdfFile (type pdfFile);;;
  pageCount ← getPages pdfDoc;;;
  pdfDoc ← setTitle pdfDoc (removeFirst ".pdf" (name pdfFile));;;
  pdfDoc ← setProducer pdfDoc "ADA Compliance Processor";;;
  pdfDoc ← setCreator pdfDoc "ADA Compliance Advisor";;;
  let pdfDoc := match setLanguage pdfDoc "en-US" with
                | Ok changed => changed
                | Throw _ => pdfDoc
                end in
  correctedText ← correctedText analysis text;;;
  pdfBytes ← save pdfDoc;;;
  Ok (base64 pdfBytes).

Definition loopBody (pdfFile : File) (analysis : Risks) : Entry :=
  match tryBody pdfFile analysis with
  | Ok data => Processed (name pdfFile) data
  | Throw e => Failed (name pdfFile) (errorMessage e)
  end.

(** The loop of lines 30-142 from index [i] on. *)
Fixpoint processLoop (analysesJson : list string) (i : nat) (pdfFiles : list File)
    (processedPDFs : list Entry) : list Entry :=
  match pdfFiles with
  | [] => processedPDFs
  | pdfFile :: rest =>
      processLoop analysesJson (S i) rest
        (processedPDFs ++ [loopBody pdfFile (analysisOf analysesJson i)])
  end.

(** [formData] is the outcome of [request.formData()] with the values
    of its [pdfs] and [analyses] fields. *)
Definition POST (formData : Exc (list File * list string)) : Response :=
  match formData with
  | Throw e =>
      ServerError match e with
                  | ErrorObj message => message
                  | NonError => "Failed to process PDFs"
                  end
  | Ok (pdfFiles, analysesJson) =>
      if length pdfFiles =? 0 then BadRequest "No PDF files provided"
      else if 10 <? length pdfFiles
      then BadRequest "Maximum 10 PDFs allowed per request"
      else ProcessOk (processLoop analysesJson 0 pdfFiles [])
  end.

End Route.

(** The same collaborators with another model behind [chatCompletion]. *)
Definition withChat (C : Collaborators)
    (chat : list Message → option string → option (OpenAI.Options (@Number C))
            → Exc string) : Collaborators :=
  {| File := @File C; name := @name C; type := @type C; Bytes := @Bytes C;
     Doc := @Doc C; Number := @Number C; number_0_3 := @number_0_3 C;
     JSON_parse := @JSON_parse C; arrayBuffer := @arrayBuffer C;
     PDFDocument_load := @PDFDocument_load C;
     extractTextFromDocument := @extractTextFromDocument C;
     getPages := @getPages C; setTitle := @setTitle C;
     setProducer := @setProducer C; setCreator := @setCreator C;
     setLanguage := @setLanguage C; chatCompletion := chat;
     save := @save C; base64 := @base64 C |}.

End Process.

Module ServiceExamples.
Import JS.

(** An index whose every call throws a value that is not an [Error]. *)
Definition brokenIndex : Pinecone.Sdk := {|
  Pinecone.QueryVector := list Z;
  Pinecone.Match := string;
  Pinecone.Record_ := string;
  Pinecone.UpsertAck := unit;
  Pinecone.sdk_query := λ _ _ _ _ _, Throw NonError;
  Pinecone.sdk_upsert := λ _ _ _ _, Throw NonError;
|}.

(** A model that answers every chat with the same marked-up sentence. *)
Definition echoModel : OpenAI.Sdk := {|
  OpenAI.Number := Z;
  OpenAI.number_0_7 := 0%Z;
  OpenAI.Embedding := list Z;
  OpenAI.embeddings_create := λ _ _ input, Ok [[Z.of_nat (String.length input)]];
  OpenAI.chat_create := λ _ _, Ok (Some "Use **alt text** on images.");
|}.

Definition guideMatch : Chat.ScoredMatch Z := {|
  Chat.id := "guide-chunk-0";
  Chat.score := Some 9%Z;
  Chat.metadata := Some {|
    Chat.title := Some (Preview.MStr "Guide");
    Chat.text := Some (Preview.MStr "Images need alt text.");
    Chat.fileId := Some (Preview.MStr "guide");
    Chat.chunkIndex := None |};
|}.

(** A chat whose index returns one match and whose model answers with
    bold markers. *)
Definition chatExample : Chat.Collaborators := {|
  Chat.Embedding := list Z;
  Chat.Score := Z;
  Chat.score_truthy := λ n, negb (n =? 0)%Z;
  Chat.score_0 := 0%Z;
  Chat.getEmbedding := λ text, Ok [Z.of_nat (String.length text)];
  Chat.queryPinecone := λ _ _, Ok [guideMatch];
  Chat.chatCompletion := λ _ _, Ok "Use **alt text** on images.";
|}.

End ServiceExamples.

Module ProcessExamples.
Import JS.

(** An analysis whose field [risks] is the string [none]. *)
Definition risksAsText : string :=
  "{" +:+ Examples.dq +:+ "risks" +:+ Examples.dq +:+ ":"
  +:+ Examples.dq +:+ "none" +:+ Examples.dq +:+ "}".

(** An analysis whose field [risks] is an array of one string. *)
Definition risksAsList : string :=
  "{" +:+ Examples.dq +:+ "risks" +:+ Examples.dq +:+ ":["
  +:+ Examples.dq +:+ "No alt text" +:+ Examples.dq +:+ "]}".

(** [JSON.parse] on the three texts used here, as the route reads the
    result: the risks of [risksAsText] are a string, of length 4 and
    without [map]; the empty object has no risks; every other text is
    taken as malformed. *)
Definition parse (json : string) : Exc Process.Risks :=
  if bool_decide (json = risksAsText) then Ok Process.RisksOther
  else if bool_decide (json = risksAsList) then Ok (Process.RisksArray ["No alt text"])
  else if bool_decide (json = "{}") then Ok Process.RisksFalsy
  else Throw (ErrorObj "Unexpected token").

(** Files are given by name and are their own documents; saving a
    document whose name starts with [bad] fails; the model always
    fails. *)
Definition processExample : Process.Collaborators := {|
  Process.File := string;
  Process.name := λ f, f;
  Process.type := λ _, "application/pdf";
  Process.Bytes := string;
  Process.Doc := string;
  Process.Number := Z;
  Process.number_0_3 := 0%Z;
  Process.JSON_parse := parse;
  Process.arrayBuffer := λ f, Ok f;
  Process.PDFDocument_load := λ b, Ok b;
  Process.extractTextFromDocument := λ f _, Ok f;
  Process.getPages := λ _, Ok 1;
  Process.setTitle := λ d _, Ok d;
  Process.setProducer := λ d _, Ok d;
  Process.setCreator := λ d _, Ok d;
  Process.setLanguage := λ _ _, Throw NonError;
  Process.chatCompletion := λ _ _ _, Throw NonError;
  Process.save := λ d, if startsWith d "bad" then Throw (ErrorObj "cannot save") else Ok d;
  Process.base64 := λ b, b;
|}.

End ProcessExamples.
(** * Properties *)

(** ** Strings *)

Section StringFacts.
Import JS.

Lemma string_app_cons c (a b : string) : String c a +:+ b = String c (a +:+ b).
Proof. reflexivity. Qed.

Lemma string_app_nil_l (b : string) : "" +:+ b = b.
Proof. reflexivity. Qed.

Lemma string_length_app (a b : string) :
  String.length (a +:+ b) = String.length a + String.length b.
Proof.
  induction a as [|c a IH]; [done|]. rewrite string_app_cons. simpl. by rewrite IH.
Qed.

Lemma string_app_nil_r (a : string) : a +:+ "" = a.
Proof. induction a as [|c a IH]; [done|]. by rewrite string_app_cons, IH. Qed.

Lemma string_app_assoc (a b c : string) : (a +:+ b) +:+ c = a +:+ b +:+ c.
Proof. induction a as [|x a IH]; [done|]. by rewrite !string_app_cons, IH. Qed.

Lemma rev_app_spec (a b : string) : String.rev_app a b = String.rev a +:+ b.
Proof.
  unfold String.rev. revert b.
  induction a as [|c a IH]; intros b; simpl; [done|].
  rewrite (IH (String c "")), IH, string_app_assoc. done.
Qed.

Lemma rev_involutive_str (a : string) : String.rev (String.rev a) = a.
Proof.
  assert (H : ∀ a b, String.rev (String.rev_app a b) = String.rev_app b a).
  { clear a. induction a as [|c a IH]; intros b; simpl; [done|]. by rewrite IH. }
  unfold String.rev at 2. rewrite H. done.
Qed.

(** The length of [trimEnd] grows with the string it is applied to. *)
Lemma trimEnd_length_cons c s :
  String.length (trimEnd (String c s)) =
  match String.length (trimEnd s) with
  | 0 => if is_ws c then 0 else 1
  | S k => S (S k)
  end.
Proof.
  simpl. destruct (trimEnd s) as [|d t]; simpl; [by destruct (is_ws c) | done].
Qed.

Lemma trimEnd_idem s : trimEnd (trimEnd s) = trimEnd s.
Proof.
  induction s as [|c s IH]; [done|].
  simpl. destruct (trimEnd s) as [|d t] eqn:E.
  - destruct (is_ws c) eqn:Hc; simpl; [done | by rewrite Hc].
  - change (trimEnd (String c (String d t))) with
      (match trimEnd (String d t) with
       | "" => if is_ws c then "" else String c ""
       | t' => String c t' end).
    rewrite IH. done.
Qed.

Lemma trimStart_no_lead s : no_lead_ws (trimStart s).
Proof.
  induction s as [|c s IH]; simpl; [done|].
  destruct (is_ws c) eqn:Hc; [done | by simpl].
Qed.

Lemma trimStart_id s : no_lead_ws s → trimStart s = s.
Proof. destruct s as [|c s]; simpl; [done | by intros ->]. Qed.

Lemma trimEnd_no_lead s : no_lead_ws s → no_lead_ws (trimEnd s).
Proof.
  destruct s as [|c s]; simpl; [done|]. intros Hc.
  destruct (trimEnd s); simpl; [by rewrite Hc | done].
Qed.

Lemma trim_idem s : trim (trim s) = trim s.
Proof.
  unfold trim.
  rewrite (trimStart_id (trimEnd (trimStart s))).
  - apply trimEnd_idem.
  - apply trimEnd_no_lead, trimStart_no_lead.
Qed.

Lemma trimEnd_length_le s : String.length (trimEnd s) ≤ String.length s.
Proof.
  induction s as [|c s IH]; [done|].
  rewrite trimEnd_length_cons. simpl.
  destruct (String.length (trimEnd s)); [destruct (is_ws c)|]; lia.
Qed.

Lemma trimStart_length_le s : String.length (trimStart s) ≤ String.length s.
Proof.
  induction s as [|c s IH]; simpl; [done|].
  destruct (is_ws c); simpl; lia.
Qed.

Lemma trim_length_le s : String.length (trim s) ≤ String.length s.
Proof.
  unfold trim. etrans; [apply trimEnd_length_le | apply trimStart_length_le].
Qed.

Lemma trimEnd_trimStart_le s :
  String.length (trimEnd (trimStart s)) ≤ String.length (trimEnd s).
Proof.
  induction s as [|c s IH]; [done|].
  cbn [trimStart]. destruct (is_ws c) eqn:Hc; [|done].
  rewrite trimEnd_length_cons, Hc.
  destruct (String.length (trimEnd s)); lia.
Qed.

(** Dropping the first character does not lengthen the trimmed string. *)
Lemma trim_tail_le c s : String.length (trim s) ≤ String.length (trim (String c s)).
Proof.
  unfold trim. cbn [trimStart]. destruct (is_ws c) eqn:Hc; [done|].
  rewrite trimEnd_length_cons, Hc.
  pose proof (trimEnd_trimStart_le s).
  destruct (String.length (trimEnd s)); lia.
Qed.

Lemma trimEnd_prefix_le n s :
  String.length (trimEnd (String.substring 0 n s)) ≤ String.length (trimEnd s).
Proof.
  revert n. induction s as [|c s IH]; intros [|n]; simpl String.substring; try done.
  - simpl. lia.
  - rewrite !trimEnd_length_cons. specialize (IH n).
    destruct (String.length (trimEnd (String.substring 0 n s))),
             (String.length (trimEnd s)); destruct (is_ws c); lia.
Qed.

(** Cutting a string short does not lengthen the trimmed string. *)
Lemma trim_prefix_le n s :
  String.length (trim (String.substring 0 n s)) ≤ String.length (trim s).
Proof.
  revert n. induction s as [|c s IH]; intros [|n]; simpl String.substring; try done.
  - simpl. lia.
  - unfold trim in *. cbn [trimStart]. destruct (is_ws c) eqn:Hc; [apply IH|].
    rewrite !trimEnd_length_cons, Hc.
    pose proof (trimEnd_prefix_le n s).
    destruct (String.length (trimEnd (String.substring 0 n s))),
             (String.length (trimEnd s)); lia.
Qed.

Lemma trim_substring_le s i n :
  String.length (trim (substring s i n)) ≤ String.length (trim s).
Proof.
  unfold substring. revert i. induction s as [|c s IH]; intros [|i].
  - apply trim_prefix_le.
  - simpl. lia.
  - apply trim_prefix_le.
  - simpl String.substring. etrans; [apply IH | apply trim_tail_le].
Qed.


End StringFacts.

(** ** The chunker *)

Section ChunkerFacts.
Import JS Chunker.

Example split_paragraphs :
  split_re match_blank ("ab" +:+ LFLF +:+ String LF "cd" +:+ LFLF) = ["ab"; "cd"; ""].
Proof. reflexivity. Qed.

Example split_sentences :
  split_re match_sentence "One. Two?!  Three.x. " = ["One"; "Two"; "Three.x"; ""].
Proof. reflexivity. Qed.

(** A split whose separator never matches returns the string whole. *)
Lemma split_go_never m s cur :
  never m s → split_go m s 0 cur = [String.rev_app cur s].
Proof.
  revert cur. induction s as [|c s IH]; intros cur; [done|].
  intros [Hm Hs]. cbn [split_go]. rewrite Hm. by rewrite IH.
Qed.

Lemma split_re_never m s : never m s → split_re m s = [s].
Proof. intros H. unfold split_re. by rewrite split_go_never. Qed.

Lemma nl_run_startsWith s : 2 ≤ nl_run s → startsWith s LFLF = true.
Proof.
  destruct s as [|c [|d s]]; simpl; try lia.
  - destruct (decide (c = LF)); simpl; lia.
  - destruct (decide (c = LF)) as [->|]; [|lia].
    destruct (decide (d = LF)) as [->|]; [|simpl; lia].
    intros _. reflexivity.
Qed.

Lemma never_blank s : includes s LFLF = false → never match_blank s.
Proof.
  induction s as [|c s IH]; [done|].
  intros H. cbn [includes] in H. apply orb_false_iff in H as [H1 H2].
  split; [|by apply IH].
  unfold match_blank. destruct (2 <=? nl_run (String c s)) eqn:E; [|done].
  apply Nat.leb_le, nl_run_startsWith in E. congruence.
Qed.

Lemma match_sentence_break s :
  has_sentence_break s = false → match_sentence s = None.
Proof.
  induction s as [|c s IH]; [done|].
  cbn [has_sentence_break match_sentence].
  destruct s as [|d s]; [by destruct (is_terminator c)|].
  intros H. apply orb_false_iff in H as [H1 H2].
  destruct (is_terminator c); [|done].
  rewrite (IH H2). cbn [ws_run]. simpl in H1. by rewrite H1.
Qed.

Lemma never_sentence s : has_sentence_break s = false → never match_sentence s.
Proof.
  induction s as [|c s IH]; [done|].
  intros H. split; [by apply match_sentence_break|].
  apply IH. cbn [has_sentence_break] in H.
  destruct s as [|d s]; [done|]. by apply orb_false_iff in H as [_ H].
Qed.

(** The fixed-size loop appends exactly the windows that pass the filter. *)
Lemma fixedLoop_windows text m k fuel chunks :
  m = rounds text - k → k ≤ rounds text → m ≤ fuel →
  fixedLoop text (k * chunkSize) fuel chunks
  = chunks ++ filter (λ c, minLength < String.length c) (window text <$> seq k m).
Proof.
  revert k fuel chunks. unfold rounds, chunkSize.
  induction m as [|m IH]; intros k fuel chunks Hm Hk Hfuel.
  - rewrite app_nil_r. destruct fuel as [|fuel]; [done|]. cbn [fixedLoop].
    assert (H : (k * 500 <? String.length text) = false).
    { apply Nat.ltb_ge.
      pose proof (Nat.div_mod_eq (String.length text + (500 - 1)) 500).
      pose proof (Nat.mod_upper_bound (String.length text + (500 - 1)) 500).
      lia. }
    unfold chunkSize. by rewrite H.
  - destruct fuel as [|fuel]; [lia|]. cbn [fixedLoop].
    assert (H : (k * 500 <? String.length text) = true).
    { apply Nat.ltb_lt.
      pose proof (Nat.div_mod_eq (String.length text + (500 - 1)) 500).
      pose proof (Nat.mod_upper_bound (String.length text + (500 - 1)) 500).
      lia. }
    unfold chunkSize. rewrite H.
    replace (k * 500 + 500) with (S k * 500) by lia.
    unfold chunkSize in IH. rewrite IH by lia.
    cbn [seq fmap list_fmap]. rewrite filter_cons.
    unfold window at 2. unfold chunkSize.
    destruct (decide (minLength < String.length (trim (substring text (k * 500) 500))));
      [by rewrite <- app_assoc | done].
Qed.

Lemma rounds_le_length text : rounds text ≤ String.length text.
Proof.
  unfold rounds, chunkSize.
  pose proof (Nat.div_mod_eq (String.length text + (500 - 1)) 500).
  pose proof (Nat.mod_upper_bound (String.length text + (500 - 1)) 500).
  lia.
Qed.

Lemma fixedChunks_windows text :
  fixedChunks text
  = filter (λ c, minLength < String.length c) (window text <$> seq 0 (rounds text)).
Proof.
  unfold fixedChunks.
  rewrite (fixedLoop_windows text (rounds text) 0 _ []); [done | lia | lia |].
  apply rounds_le_length.
Qed.


Lemma tierChunks_keep t text : Forall keep (tierChunks t text).
Proof.
  apply Forall_forall. intros c Hc. destruct t; simpl in Hc.
  - by apply list_elem_of_filter in Hc as [? _].
  - by apply list_elem_of_filter in Hc as [? _].
  - rewrite fixedChunks_windows in Hc.
    apply list_elem_of_filter in Hc as [Hlen Hc].
    apply list_elem_of_fmap in Hc as (k & -> & _).
    unfold keep, window in *. by rewrite trim_idem.
Qed.


(** Without separators the paragraph split returns the text whole, and so
    does the sentence split. *)
Lemma chunkText_unbroken text :
  includes text LFLF = false → has_sentence_break text = false →
  chunkText text = if decide (20 < String.length (trim text)) then [text] else [].
Proof.
  intros Hb Hs. unfold chunkText, chunkTraced, paragraphChunks, sentenceChunks.
  rewrite (split_re_never _ _ (never_blank _ Hb)).
  rewrite (split_re_never _ _ (never_sentence _ Hs)).
  rewrite !filter_cons, !filter_nil. unfold keep, minLength.
  destruct (decide (20 < String.length (trim text))) as [H|H]; [done|].
  cbn. rewrite fixedChunks_windows.
  induction (seq 0 (rounds text)) as [|k l IH]; [done|].
  cbn [fmap list_fmap]. rewrite filter_cons.
  destruct (decide _) as [H'|_]; [|apply IH].
  exfalso. unfold window, minLength in H'.
  pose proof (trim_substring_le text (k * chunkSize) chunkSize). lia.
Qed.

(** C2, as the code has it: a text without blank-line separators and
    without a sentence terminator followed by white space is a single
    paragraph, so the chunking step returns the whole text as its only
    chunk, however long, when the trimmed text is longer than 20
    characters, and no chunk otherwise. *)
Theorem unbroken_text_is_one_chunk (text : string) :
  includes text LFLF = false →
  has_sentence_break text = false →
  (20 < String.length (trim text) → chunkText text = [text])
  ∧ (String.length (trim text) ≤ 20 → chunkText text = []).
Proof.
  intros Hb Hs. rewrite (chunkText_unbroken text Hb Hs).
  split; intros H; destruct (decide _); (done || lia).
Qed.

Lemma unbroken_text_is_one_chunk_witness :
  includes Examples.letters3000 LFLF = false
  ∧ has_sentence_break Examples.letters3000 = false
  ∧ (20 < String.length (trim Examples.letters3000) →
     chunkText Examples.letters3000 = [Examples.letters3000])
  ∧ (String.length (trim Examples.letters3000) ≤ 20 →
     chunkText Examples.letters3000 = []).
Proof.
  split; [vm_compute; reflexivity|]. split; [vm_compute; reflexivity|].
  apply (unbroken_text_is_one_chunk Examples.letters3000); vm_compute; reflexivity.
Defined.

(** The 3000-character run of letters has neither kind of separator, yet
    the chunking step returns it whole, as one chunk of 3000 characters. *)
Lemma unbroken_text_chunks_counterexample :
  includes Examples.letters3000 LFLF = false
  ∧ has_sentence_break Examples.letters3000 = false
  ∧ chunkText Examples.letters3000 = [Examples.letters3000]
  ∧ String.length Examples.letters3000 = 6 * 500
  ∧ ¬ Forall (λ c, String.length c ≤ 500) (chunkText Examples.letters3000).
Proof.
  assert (E : chunkText Examples.letters3000 = [Examples.letters3000])
    by (vm_compute; reflexivity).
  assert (L : String.length Examples.letters3000 = 6 * 500) by (vm_compute; reflexivity).
  repeat split; try (vm_compute; reflexivity).
  rewrite E. intros H. apply Forall_cons_1 in H as [H _]. rewrite L in H. lia.
Qed.

(** A short text without separators yields no chunk at all. *)
Example short_text_has_no_chunk : chunkText "hello" = [].
Proof. reflexivity. Qed.

End ChunkerFacts.

(** ** The Drive sync route *)

Section SyncFacts.
Import JS Chunker Sync.

Lemma merge_empty_l a : merge emptyAcc a = a.
Proof. by destruct a. Qed.

Lemma merge_empty_r a : merge a emptyAcc = a.
Proof.
  destruct a as [p t f]. unfold merge; simpl. by rewrite !app_nil_r, Nat.add_0_r.
Qed.

Lemma merge_assoc a b c : merge (merge a b) c = merge a (merge b c).
Proof. unfold merge; simpl. by rewrite <- !app_assoc, Nat.add_assoc. Qed.

Lemma pushProcessed_merge acc e : pushProcessed acc e = merge acc (pushProcessed emptyAcc e).
Proof. unfold pushProcessed, merge; simpl. by rewrite app_nil_r, Nat.add_0_r. Qed.

Context `{C : Collaborators}.

(** What the [try] pushes does not depend on what was pushed before. *)
Lemma tryBody_merge f fid fname acc :
  tryBody f fid fname acc
  = match tryBody f fid fname emptyAcc with
    | Ok d => Ok (merge acc d)
    | Throw e => Throw e
    end.
Proof.
  unfold tryBody.
  destruct (getFileContent fid (mimeOrPlain f)) as [buffer|e]; [|done]. simpl.
  destruct (length buffer =? 0); [by rewrite pushProcessed_merge|].
  destruct (extractTextFromDocument buffer (mimeOrPlain f)) as [text|e]; [|done]. simpl.
  destruct (bool_decide (text = "") || (String.length (trim text) =? 0));
    [by rewrite pushProcessed_merge|].
  destruct (length (chunkText text) =? 0); [by rewrite pushProcessed_merge|].
  destruct (buildVectors _ _ _ _ _) as [vectors|e]; [|done]. simpl.
  destruct (upsertToPinecone vectors) as [[]|e]; [|done]. simpl.
  unfold merge; simpl. by rewrite app_nil_r.
Qed.

Lemma loopBody_merge acc f : loopBody acc f = merge acc (loopBody emptyAcc f).
Proof.
  unfold loopBody.
  destruct (id f) as [fid|], (name f) as [fname|]; try by rewrite merge_empty_r.
  destruct (bool_decide (fid = "") || bool_decide (fname = ""));
    [by rewrite merge_empty_r|].
  rewrite (tryBody_merge f fid fname acc).
  destruct (tryBody f fid fname emptyAcc) as [d|err]; [done|].
  unfold merge; simpl. by rewrite Nat.add_0_r.
Qed.

Lemma foldl_loopBody_merge acc files :
  foldl loopBody acc files = merge acc (processFiles files).
Proof.
  unfold processFiles. revert acc.
  induction files as [|f files IH]; intros acc; simpl.
  - by rewrite merge_empty_r.
  - rewrite IH, (IH (loopBody emptyAcc f)), <- merge_assoc.
    by rewrite <- loopBody_merge.
Qed.

Lemma processFiles_app pre post :
  processFiles (pre ++ post) = merge (processFiles pre) (processFiles post).
Proof.
  unfold processFiles at 1. rewrite foldl_app. apply foldl_loopBody_merge.
Qed.

Lemma processFiles_cons f files :
  processFiles (f :: files) = merge (loopBody emptyAcc f) (processFiles files).
Proof. unfold processFiles at 1. simpl. apply foldl_loopBody_merge. Qed.

(** A throw at any of the four stages ends the [try] with that throw. *)
Lemma raises_tryBody f fid fname e acc :
  raises f fid fname e → tryBody f fid fname acc = Throw e.
Proof.
  assert (Hlen : ∀ n, n ≠ 0 → (n =? 0) = false) by (intros; by apply Nat.eqb_neq).
  assert (Htext : ∀ t, String.length (trim t) ≠ 0 →
            bool_decide (t = "") || (String.length (trim t) =? 0) = false).
  { intros t Ht. rewrite (Hlen _ Ht), orb_false_r. apply bool_decide_eq_false.
    intros ->. by apply Ht. }
  assert (Hchunks : ∀ l : list string, l ≠ [] → (length l =? 0) = false).
  { intros [|??] ?; [done | reflexivity]. }
  unfold tryBody.
  intros [H1 | buffer H1 H2 H3 | buffer text H1 H2 H3 H4 H5 H6
          | buffer text vectors H1 H2 H3 H4 H5 H6 H7]; rewrite H1; simpl; [done|..];
    rewrite (Hlen _ H2), H3; simpl; [done|..];
    rewrite (Htext _ H4), (Hchunks _ H5), H6; simpl; [done|].
  by rewrite H7.
Qed.

(** Conversely, the [try] throws at one of these four stages only. *)
Lemma tryBody_raises f fid fname e acc :
  tryBody f fid fname acc = Throw e → raises f fid fname e.
Proof.
  unfold tryBody.
  destruct (getFileContent fid (mimeOrPlain f)) as [buffer|e1] eqn:E1;
    [|intros [= <-]; by apply raises_download].
  cbn [exc_bind]. destruct (length buffer =? 0) eqn:E2; [done|].
  apply Nat.eqb_neq in E2.
  destruct (extractTextFromDocument buffer (mimeOrPlain f)) as [text|e3] eqn:E3;
    [|intros [= <-]; by eapply raises_extraction].
  cbn [exc_bind].
  destruct (bool_decide (text = "") || (String.length (trim text) =? 0)) eqn:E4; [done|].
  apply orb_false_iff in E4 as [_ E4]. apply Nat.eqb_neq in E4.
  destruct (length (chunkText text) =? 0) eqn:E5; [done|].
  assert (chunkText text ≠ []) as E5' by (intros E; by rewrite E in E5).
  destruct (buildVectors _ _ _ _ _) as [vectors|e6] eqn:E6;
    [|intros [= <-]; by eapply raises_embedding].
  cbn [exc_bind].
  destruct (upsertToPinecone vectors) as [[]|e7] eqn:E7; [done|].
  intros [= <-]. by eapply raises_upsert.
Qed.

Lemma loopBody_throw f fid fname e :
  id f = Some fid → name f = Some fname → fid ≠ "" → fname ≠ "" →
  raises f fid fname e →
  loopBody emptyAcc f = failure fname e.
Proof.
  intros Hid Hname Hfid Hfname Hr. unfold loopBody. rewrite Hid, Hname.
  rewrite (bool_decide_eq_false_2 _ Hfid), (bool_decide_eq_false_2 _ Hfname). simpl.
  by rewrite (raises_tryBody _ _ _ e emptyAcc Hr).
Qed.

(** C4: when the processing of one file of the listing throws, at the
    download, the text extraction, the embedding or the upsert, the handler
    still answers with the report; the file has one entry with the message
    of the exception as its error and zero chunks (and one entry in
    [failedFileDetails]), and the files before and after it contribute the
    entries and the chunk counts they have when processed on their own. *)
Theorem one_failing_file_does_not_abort_the_batch
    (folderId : string) (envFolderId : option string)
    (pre post : list DriveFile) (f : DriveFile) (fid fname : string) (e : thrown) :
  folderId ≠ "" →
  listFilesInFolder folderId = Ok (pre ++ f :: post) →
  id f = Some fid → name f = Some fname → fid ≠ "" → fname ≠ "" →
  raises f fid fname e →
  let before := processFiles pre in
  let after := processFiles post in
  let acc := merge before (merge (failure fname e) after) in
  processFiles (pre ++ f :: post) = acc
  ∧ POST (Some folderId) envFolderId
    = Report (summary acc)
        (length (processedFiles before) + 1 + length (processedFiles after))
        (totalChunks before + totalChunks after)
        (processedFiles before
         ++ [{| e_name := fname; chunks := 0; error := Some (errorMessage e) |}]
         ++ processedFiles after)
        (Some (failedFileDetails before
               ++ [{| f_name := fname; f_error := errorMessage e |}]
               ++ failedFileDetails after)).
Proof.
  intros Hfolder Hlist Hid Hname Hfid Hfname Hr before after acc.
  assert (Hacc : processFiles (pre ++ f :: post) = acc).
  { rewrite processFiles_app, processFiles_cons.
    by rewrite (loopBody_throw f fid fname e). }
  split; [done|].
  unfold POST. simpl. rewrite (bool_decide_eq_false_2 _ Hfolder). simpl.
  rewrite (bool_decide_eq_false_2 _ Hfolder), Hlist.
  assert (Hn : (length (pre ++ f :: post) =? 0) = false).
  { rewrite length_app. simpl. apply Nat.eqb_neq. lia. }
  rewrite Hn, Hacc. subst acc. simpl.
  rewrite !length_app. simpl.
  replace (0 <? length (failedFileDetails before)
                + S (length (failedFileDetails after))) with true
    by (symmetry; apply Nat.ltb_lt; lia).
  f_equal. lia.
Qed.

Lemma loopBody_skip acc f : missingIdOrName f = true → loopBody acc f = acc.
Proof.
  unfold missingIdOrName, loopBody, truthy_str.
  destruct (id f) as [fid|], (name f) as [fname|]; try done.
  intros H. by rewrite !negb_involutive in H; rewrite H.
Qed.

(** A file with an id and a name gets exactly one entry, whatever
    happens. *)
Lemma loopBody_one_entry f :
  missingIdOrName f = false → length (processedFiles (loopBody emptyAcc f)) = 1.
Proof.
  unfold missingIdOrName, loopBody, truthy_str.
  destruct (id f) as [fid|], (name f) as [fname|]; try done; [|by rewrite orb_true_r].
  intros H. rewrite !negb_involutive in H. rewrite H.
  destruct (tryBody f fid fname emptyAcc) as [d|err] eqn:E; [|done].
  unfold tryBody in E.
  destruct (getFileContent fid (mimeOrPlain f)) as [buffer|?]; [|done]. simpl in E.
  destruct (length buffer =? 0); [by inversion E|].
  destruct (extractTextFromDocument buffer (mimeOrPlain f)) as [text|?]; [|done].
  simpl in E.
  destruct (bool_decide (text = "") || (String.length (trim text) =? 0));
    [by inversion E|].
  destruct (length (chunkText text) =? 0); [by inversion E|].
  destruct (buildVectors _ _ _ _ _) as [vectors|?]; [|done]. simpl in E.
  destruct (upsertToPinecone vectors) as [[]|?]; [|done]. by inversion E.
Qed.

Lemma processed_length files :
  length (processedFiles (processFiles files))
  = length (filter (λ f, missingIdOrName f = false) files).
Proof.
  induction files as [|f files IH]; [done|].
  rewrite processFiles_cons, filter_cons. simpl. rewrite length_app, IH.
  destruct (decide (missingIdOrName f = false)) as [H|H].
  - by rewrite loopBody_one_entry.
  - apply not_false_is_true in H. by rewrite loopBody_skip.
Qed.

Lemma filter_length_lt {A} (P : A → Prop) `{∀ x, Decision (P x)} (l : list A) :
  length (filter P l) < length l ↔ ∃ x, x ∈ l ∧ ¬ P x.
Proof.
  induction l as [|x l IH]; simpl.
  - split; [lia | intros (x & Hx & _); by apply elem_of_nil in Hx].
  - rewrite filter_cons. pose proof (length_filter P l).
    destruct (decide (P x)) as [HP|HP]; simpl.
    + rewrite <- Nat.succ_lt_mono, IH. split.
      * intros (y & Hy & HPy). exists y. split; [by right | done].
      * intros (y & Hy & HPy). apply elem_of_cons in Hy as [->|Hy]; [done|]. eauto.
    + split; [|lia]. intros _. exists x. split; [by left | done].
Qed.

(** C10: a listed file whose id or name is missing leaves the three
    accumulators of the loop unchanged, so the report is the one of the
    listing without that file: it has no entry in [processedFiles] and none
    in [failedFileDetails].  The reported [totalFiles] is the length of
    [processedFiles], which is the number of listed files that have an id
    and a name; it is strictly smaller than the number of listed files
    exactly when some listed file lacks its id or its name. *)
Theorem files_without_id_or_name_are_skipped :
  (∀ acc f, missingIdOrName f = true → loopBody acc f = acc)
  ∧ (∀ pre f post, missingIdOrName f = true →
       processFiles (pre ++ f :: post) = processFiles (pre ++ post))
  ∧ (∀ queryFolderId envFolderId,
       match POST queryFolderId envFolderId with
       | Report _ totalFiles _ processedFiles _ =>
           totalFiles = length processedFiles
           ∧ ∃ folderId files,
               listFilesInFolder folderId = Ok files
               ∧ totalFiles = length (filter (λ f, missingIdOrName f = false) files)
               ∧ (totalFiles < length files
                  ↔ ∃ f, f ∈ files ∧ missingIdOrName f = true)
       | _ => True
       end).
Proof.
  split; [apply loopBody_skip|]. split.
  - intros pre f post H.
    rewrite !processFiles_app, processFiles_cons, (loopBody_skip _ _ H).
    by rewrite merge_empty_l.
  - intros q e. unfold POST.
    destruct (or_else _ q e) as [folderId|]; [|done].
    destruct (bool_decide (folderId = "")); [done|].
    destruct (listFilesInFolder folderId) as [files|?] eqn:Hlist; [|done].
    destruct (length files =? 0); [done|].
    split; [done|]. exists folderId, files. split; [done|].
    rewrite processed_length. split; [done|].
    rewrite filter_length_lt. split.
    + intros (f & Hf & HP). exists f. split; [done|]. by apply not_false_is_true.
    + intros (f & Hf & HP). exists f. split; [done|]. by rewrite HP.
Qed.

End SyncFacts.

Section SyncExamples.
Import JS Chunker Sync.

Lemma one_failing_file_witness :
  @POST Examples.syncExample (Some "folder") None
  = Report "Successfully processed 3 file(s) and created 3 chunk(s) in Pinecone!" 3 3
      [{| e_name := "one.txt"; chunks := 1; error := None |};
       {| e_name := "two.pdf"; chunks := 0; error := Some "Invalid PDF structure" |};
       {| e_name := "three.txt"; chunks := 2; error := None |}]
      (Some [{| f_name := "two.pdf"; f_error := "Invalid PDF structure" |}]).
Proof.
  destruct (@one_failing_file_does_not_abort_the_batch Examples.syncExample
              "folder" None [Examples.driveFile "one.txt"] [Examples.driveFile "three.txt"]
              (Examples.driveFile "two.pdf") "id-two.pdf" "two.pdf"
              (ErrorObj "Invalid PDF structure")) as [_ H];
    [done | reflexivity | reflexivity | reflexivity | done | done | | ].
  - eapply raises_extraction; [reflexivity | done | reflexivity].
  - etrans; [exact H | vm_compute; reflexivity].
Defined.

(** A listing of four files, one of them without a name: the report counts
    three. *)
Example nameless_file_is_not_counted :
  ∃ message processed failed,
    @POST Examples.syncExample (Some "mixed") None
    = Report message 3 3 processed failed
    ∧ e_name <$> processed = ["one.txt"; "two.pdf"; "three.txt"]
    ∧ @listFilesInFolder Examples.syncExample "mixed"
      = Ok (Examples.untitled :: Examples.batch).
Proof. eexists _, _, _. vm_compute. done. Qed.

End SyncExamples.

(** ** Chunk ids *)

Section ChunkIds.
Import JS Sync.

Global Instance chunkId_inj fid : Inj (=) (=) (chunkId fid).
Proof.
  intros i j H. unfold chunkId in H.
  apply (inj (String.app fid)), (inj (String.app "-chunk-")) in H.
  by apply (inj pretty) in H.
Qed.

(** The loop pushes, for the chunks left, the vectors with the next
    indices in order; the embedder only decides their [values].  So any
    view [f] of a vector that ignores its values is known for the result. *)
Lemma vectorLoop_view {E B} (embed : string → Exc E) (f : Vector E → B)
    (g : nat → string → B) fid fname mime rest k vs out :
  (∀ i c emb, f (chunkVector fid fname mime i c emb) = g i c) →
  vectorLoop embed fid fname mime rest k vs = Ok out →
  f <$> out = (f <$> vs) ++ imap (λ i, g (k + i)) rest.
Proof.
  intros Hf. revert k vs. induction rest as [|chunk rest IH]; intros k vs; simpl.
  - intros [= ->]. by rewrite app_nil_r.
  - destruct (embed chunk) as [emb|?]; [|done]. simpl. intros H.
    apply IH in H. rewrite H, fmap_app, <- app_assoc. simpl.
    rewrite Hf, Nat.add_0_r. do 2 f_equal.
    apply imap_ext. intros i c _. simpl. f_equal. lia.
Qed.

Lemma buildVectors_view {E B} (embed : string → Exc E) (f : Vector E → B)
    (g : nat → string → B) fid fname mime chunks out :
  (∀ i c emb, f (chunkVector fid fname mime i c emb) = g i c) →
  buildVectors embed fid fname mime chunks = Ok out →
  f <$> out = imap g chunks.
Proof.
  intros Hf H. apply (vectorLoop_view embed f g) in H; [|done].
  rewrite H. simpl. by apply imap_ext.
Qed.

Lemma buildVectors_ids {E} (embed : string → Exc E) fid fname mime chunks out :
  buildVectors embed fid fname mime chunks = Ok out →
  vid <$> out = chunkId fid <$> seq 0 (length chunks).
Proof.
  intros H. rewrite <- imap_seq_0.
  by apply (buildVectors_view embed vid (λ i _, chunkId fid i)) in H.
Qed.

Lemma buildVectors_indices {E} (embed : string → Exc E) fid fname mime chunks out :
  buildVectors embed fid fname mime chunks = Ok out →
  (λ v, chunkIndex (metadata v)) <$> out = seq 0 (length chunks).
Proof.
  intros H. rewrite <- (list_fmap_id (seq 0 (length chunks))), <- imap_seq_0.
  by apply (buildVectors_view embed (λ v, chunkIndex (metadata v)) (λ i _, i)) in H.
Qed.

Lemma dom_upsert {E} (vectors : list (Vector E)) (index : gmap string (Vector E)) :
  dom (upsert vectors index) = dom index ∪ list_to_set (vid <$> vectors).
Proof.
  unfold upsert. revert index.
  induction vectors as [|v vectors IH]; intros index; simpl.
  - set_solver.
  - rewrite IH, dom_insert_L. set_solver.
Qed.

(** C5: the vectors built for a file have the ids [fileId-chunk-0],
    [fileId-chunk-1], ... in chunk order, with [chunkIndex] running
    through 0, 1, ... without a gap, and the ids are pairwise distinct.
    They are the same for any second run on the same file with as many
    chunks, whatever the embedder returns, so upserting the second run
    after the first leaves the set of ids in the index, and its size, as
    the first run left them. *)
Theorem reingestion_reuses_chunk_ids {E} (embed1 embed2 : string → Exc E)
    (fid : string) (fname1 fname2 : string) (mime1 mime2 : option string)
    (chunks1 chunks2 : list string) (run1 run2 : list (Vector E))
    (index : gmap string (Vector E)) :
  length chunks1 = length chunks2 →
  buildVectors embed1 fid fname1 mime1 chunks1 = Ok run1 →
  buildVectors embed2 fid fname2 mime2 chunks2 = Ok run2 →
  vid <$> run1 = (λ chunkIndex, fid +:+ "-chunk-" +:+ pretty chunkIndex)
                   <$> seq 0 (length chunks1)
  ∧ (λ v, chunkIndex (metadata v)) <$> run1 = seq 0 (length chunks1)
  ∧ NoDup (vid <$> run1)
  ∧ vid <$> run2 = vid <$> run1
  ∧ dom (upsert run2 (upsert run1 index)) = dom (upsert run1 index)
  ∧ size (dom (upsert run2 (upsert run1 index))) = size (dom (upsert run1 index)).
Proof.
  intros Hlen H1 H2.
  pose proof (buildVectors_ids _ _ _ _ _ _ H1) as I1.
  pose proof (buildVectors_ids _ _ _ _ _ _ H2) as I2.
  assert (I21 : vid <$> run2 = vid <$> run1) by (by rewrite I1, I2, Hlen).
  assert (D : dom (upsert run2 (upsert run1 index)) = dom (upsert run1 index)).
  { rewrite !dom_upsert, I21. set_solver. }
  split; [exact I1|]. split; [by eapply buildVectors_indices|].
  split; [rewrite I1; apply NoDup_fmap; [apply _ | apply NoDup_seq]|].
  split; [done|]. split; [done | by rewrite D].
Qed.

End ChunkIds.

Section ChunkIdExamples.
Import JS Sync.

Lemma reingestion_reuses_chunk_ids_witness :
  let first := [chunkVector "f1" "a.txt" None 0 "alpha" [1%Z];
                chunkVector "f1" "a.txt" None 1 "beta" [1%Z]] in
  let second := [chunkVector "f1" "a.txt" None 0 "alpha" [2%Z];
                 chunkVector "f1" "a.txt" None 1 "beta" [2%Z]] in
  vid <$> first = ["f1-chunk-0"; "f1-chunk-1"]
  ∧ (λ v, chunkIndex (metadata v)) <$> first = [0; 1]
  ∧ NoDup (vid <$> first)
  ∧ vid <$> second = vid <$> first
  ∧ dom (upsert second (upsert first ∅)) = dom (upsert first ∅)
  ∧ size (dom (upsert second (upsert first ∅))) = size (dom (upsert first ∅)).
Proof.
  exact (reingestion_reuses_chunk_ids (λ _, Ok [1%Z]) (λ _, Ok [2%Z])
           "f1" "a.txt" "a.txt" None None ["alpha"; "beta"] ["alpha"; "beta"]
           _ _ ∅ eq_refl eq_refl eq_refl).
Defined.

End ChunkIdExamples.

(** ** The preview route *)

Section PreviewFacts.
Import JS Preview.
Context `{C : Collaborators}.

Global Instance byIndex_trans : Transitive byIndex.
Proof. unfold byIndex. intros a b c. lia. Qed.

Global Instance byIndex_total : Total byIndex.
Proof. unfold byIndex. intros a b. lia. Qed.

Lemma insertMatch_perm m l : insertMatch m l ≡ₚ m :: l.
Proof.
  induction l as [|x l IH]; [done|]. simpl. case_decide; [done|].
  rewrite IH. apply perm_swap.
Qed.



Lemma sortMatches_perm l : sortMatches l ≡ₚ l.
Proof.
  induction l as [|m l IH]; [done|]. simpl. by rewrite insertMatch_perm, IH.
Qed.

(** The sort is stable: the matches of each index keep the order in
    which the query returned them. *)
Lemma insertMatch_filter k m l :
  filter (λ x, sortIndex x = k) (insertMatch m l)
  = filter (λ x, sortIndex x = k) (m :: l).
Proof.
  induction l as [|x l IH]; [done|]. simpl. case_decide as Hm; [done|].
  rewrite filter_cons, IH, !filter_cons.
  repeat case_decide; try done. unfold byIndex in Hm. lia.
Qed.

Lemma sortMatches_stable k l :
  filter (λ x, sortIndex x = k) (sortMatches l) = filter (λ x, sortIndex x = k) l.
Proof.
  induction l as [|m l IH]; [done|]. simpl.
  by rewrite insertMatch_filter, !filter_cons, IH.
Qed.

(** A list that is in order already is left as it is. *)
Lemma sortMatches_sorted_id l : Sorted byIndex l → sortMatches l = l.
Proof.
  induction 1 as [|m l Hs IH Hhd]; [done|]. simpl. rewrite IH.
  destruct Hhd as [|x l Hmx]; [done|]. simpl. by rewrite decide_True.
Qed.












Lemma substring_app_prefix a b : String.substring 0 (String.length a) (a +:+ b) = a.
Proof.
  induction a as [|c a IH]; [by destruct b|].
  rewrite string_app_cons. simpl. by rewrite IH.
Qed.






End PreviewFacts.

Section PreviewExamples.
Import JS Preview.


(** Matches of equal index keep the order of the response. *)
Example equal_indices_keep_response_order :
  let tie (n : string) := {| id := n; metadata := None |} in
  @sortMatches Examples.previewExample [tie "t0"; tie "t1"; tie "t2"]
  = [tie "t0"; tie "t1"; tie "t2"]
  ∧ id <$> @sortMatches Examples.previewExample
             [stored (Examples.handbookVector 1 "b"); tie "t0";
              stored (Examples.handbookVector 0 "a"); tie "t1"]
    = ["t0"; "f1-chunk-0"; "t1"; "f1-chunk-1"].
Proof. vm_compute. done. Qed.

End PreviewExamples.

(** ** The Pinecone client wrapper *)

Section PineconeFacts.
Import JS Pinecone.
Context `{S : Sdk}.

Lemma getPineconeClient_missing env :
  truthy_str (env !! "PINECONE_API_KEY") = false
  ∨ truthy_str (env !! "PINECONE_ENVIRONMENT") = false →
  getPineconeClient env None = (Throw configError, None).
Proof. unfold getPineconeClient. by intros [-> | ->]; rewrite ?orb_true_r. Qed.

Lemma getPineconeClient_cached env client :
  getPineconeClient env (Some client) = (Ok client, Some client).
Proof. done. Qed.

(** C8, as the code has it: the construction of the client checks the API
    key and the environment setting, not the index name.  With the key or
    the environment missing, the construction throws, query and upsert
    fail with that error before any call to the index, and nothing is
    cached, so the next call checks again.  With both present the
    construction succeeds, whether or not an index name is set, and the
    client is cached; from then on no call looks at the configuration of
    the client again.  A missing index name never throws: each query and
    upsert falls back to the index [adacompliance-index]. *)
Theorem client_construction_checks_key_and_environment (env : Env) :
  (truthy_str (env !! "PINECONE_API_KEY") = false
   ∨ truthy_str (env !! "PINECONE_ENVIRONMENT") = false →
   getPineconeClient env None = (Throw configError, None)
   ∧ (∀ queryVector topK namespace,
        queryPinecone env None queryVector topK namespace = (Throw configError, None))
   ∧ (∀ vectors namespace,
        upsertToPinecone env None vectors namespace = (Throw configError, None)))
  ∧ (∀ key, env !! "PINECONE_API_KEY" = Some key → key ≠ "" →
       truthy_str (env !! "PINECONE_ENVIRONMENT") = true →
       getPineconeClient env None = (Ok {| apiKey := key |}, Some {| apiKey := key |}))
  ∧ (∀ client,
       getPineconeClient env (Some client) = (Ok client, Some client)
       ∧ (∀ queryVector topK namespace,
            queryPinecone env (Some client) queryVector topK namespace
            = (matches ← sdk_query client (indexName env) (namespaceOf namespace)
                            queryVector topK;;;
               Ok (default [] matches), Some client))
       ∧ (∀ vectors namespace,
            (upsertToPinecone env (Some client) vectors namespace).2 = Some client))
  ∧ (truthy_str (env !! "PINECONE_INDEX_NAME") = false →
     indexName env = "adacompliance-index").
Proof.
  split; [|split; [|split]].
  - intros H. pose proof (getPineconeClient_missing env H) as E.
    split; [done|]. split; intros; unfold queryPinecone, upsertToPinecone; by rewrite E.
  - intros key Hkey Hne Henv. unfold getPineconeClient.
    rewrite Hkey, Henv. simpl. by rewrite (bool_decide_eq_false_2 _ Hne).
  - intros client. split; [done|]. split; [done|].
    intros vectors namespace. unfold upsertToPinecone. simpl. done.
  - unfold indexName, truthy_str, or_else.
    destruct (env !! "PINECONE_INDEX_NAME") as [name|]; [|done].
    intros H. apply negb_false_iff in H. by rewrite H.
Qed.

End PineconeFacts.

Section PineconeExamples.
Import JS Pinecone.

(** With the API key and the environment set and no index name, the
    construction of the client succeeds. *)
Lemma construction_without_index_name_counterexample :
  let env : Env := {[ "PINECONE_API_KEY" := "key"; "PINECONE_ENVIRONMENT" := "us-east-1" ]} in
  env !! "PINECONE_INDEX_NAME" = None
  ∧ getPineconeClient env None = (Ok {| apiKey := "key" |}, Some {| apiKey := "key" |})
  ∧ indexName env = "adacompliance-index".
Proof. vm_compute. done. Qed.

(** A failed check is not cached: once the environment is completed the
    next call constructs the client. *)
Example failed_check_is_repeated :
  let incomplete : Env := {[ "PINECONE_API_KEY" := "key" ]} in
  let complete : Env := <[ "PINECONE_ENVIRONMENT" := "us-east-1" ]> incomplete in
  let '(first, singleton) := getPineconeClient incomplete None in
  first = Throw configError
  ∧ getPineconeClient complete singleton
    = (Ok {| apiKey := "key" |}, Some {| apiKey := "key" |}).
Proof. vm_compute. done. Qed.

End PineconeExamples.

(** ** The analysis route *)

Section AnalyzeFacts.
Import JS Analyze.

Lemma startsWith_app m post : startsWith (m +:+ post) m = true.
Proof.
  induction m as [|c m IH]; [done|].
  rewrite string_app_cons. simpl. by rewrite decide_True.
Qed.

Lemma includes_app pre s sub :
  startsWith s sub = true → includes (pre +:+ s) sub = true.
Proof.
  intros H. induction pre as [|c pre IH].
  - rewrite string_app_nil_l. destruct s; simpl; by rewrite H.
  - rewrite string_app_cons. cbn [includes]. rewrite IH. apply orb_true_r.
Qed.

Lemma rev_cons c a : String.rev (String c a) = String.rev a +:+ String c "".
Proof. unfold String.rev at 1. simpl. apply rev_app_spec. Qed.

Lemma rev_app_distr_str a b : String.rev (a +:+ b) = String.rev b +:+ String.rev a.
Proof.
  induction a as [|c a IH].
  - by rewrite string_app_nil_l, string_app_nil_r.
  - by rewrite string_app_cons, !rev_cons, IH, string_app_assoc.
Qed.

Lemma endsWith_snoc body c : endsWith (body +:+ String c "") (String c "") = true.
Proof.
  unfold endsWith. rewrite rev_app_distr_str.
  change (String.rev (String c "")) with (String c "").
  rewrite string_app_cons. simpl. by rewrite decide_True.
Qed.

Lemma dropTo_split c s rest :
  dropTo c s = Some rest → ∃ pre, s = pre +:+ String c rest.
Proof.
  revert rest. induction s as [|a s IH]; intros rest; simpl; [done|].
  destruct (decide (a = c)) as [->|].
  - intros [= ->]. by exists "".
  - intros H. destruct (IH _ H) as [pre ->]. by exists (String a pre).
Qed.

Lemma takeToLast_split c s t :
  takeToLast c s = Some t → ∃ body post, t = body +:+ String c "" ∧ s = t +:+ post.
Proof.
  revert t. induction s as [|a s IH]; intros t; simpl; [done|].
  destruct (takeToLast c s) as [t'|] eqn:E.
  - intros [= <-]. destruct (IH _ eq_refl) as (body & post & -> & ->).
    by exists (String a body), post.
  - destruct (decide (a = c)) as [->|]; [|done].
    intros [= <-]. by exists "", s.
Qed.

(** The text matched by the regular expression is a part of the response
    that starts with an opening brace and ends with a closing one. *)
Lemma jsonMatch_object_text response jsonText :
  jsonMatch response = Some jsonText →
  includes response jsonText = true
  ∧ startsWith jsonText "{" = true
  ∧ endsWith jsonText "}" = true.
Proof.
  unfold jsonMatch. intros H.
  destruct (dropTo "{" response) as [rest|] eqn:E1; [|done]. simpl in H.
  destruct (takeToLast "}" rest) as [t|] eqn:E2; [|done]. simpl in H.
  injection H as <-.
  apply dropTo_split in E1 as [pre ->].
  apply takeToLast_split in E2 as (body & post & -> & ->).
  split; [|split].
  - apply includes_app. rewrite <- string_app_cons. apply startsWith_app.
  - done.
  - rewrite <- string_app_cons. apply endsWith_snoc.
Qed.

Context `{C : Collaborators}.

Lemma parseAnalysis_fallback response :
  noParseableObject response → parseAnalysis response = fallbackAnalysis.
Proof.
  intros H. unfold parseAnalysis.
  destruct (jsonMatch response) as [jsonText|] eqn:E; [|done].
  apply jsonMatch_object_text in E as (H1 & H2 & H3).
  by rewrite (H jsonText H1 H2 H3).
Qed.

Lemma foldl_loopBody results pdfFiles :
  foldl loopBody results pdfFiles = results ++ (fileResult <$> pdfFiles).
Proof.
  revert results. induction pdfFiles as [|f l IH]; intros results; simpl.
  - by rewrite app_nil_r.
  - rewrite IH. unfold loopBody, fileResult.
    destruct (tryBody f); by rewrite <- app_assoc.
Qed.

(** C9: when the response of the model for a file holds no text between
    braces that [JSON.parse] accepts, the entry of that file is the fixed
    fallback report (one risk saying that the analysis could not be
    parsed, the fixed summary, risk level medium, non-conformant with one
    warning), reported as a success and not as an error, and the files
    before and after it in the batch get the entries they get on their
    own. *)
Theorem unparseable_response_yields_fallback
    (pre post : list File) (pdfFile : File) (text wcagContext response : string) :
  length (pre ++ pdfFile :: post) ≤ 10 →
  extractTextFromDocument pdfFile (file_type pdfFile) = Ok text →
  String.length (trim text) ≠ 0 →
  findRelevantContext "WCAG 2.1 AA compliance standards requirements" 10 = Ok wcagContext →
  chatCompletionAnalysis wcagContext (substring text 0 excerptLength) = Ok response →
  noParseableObject response →
  fileResult pdfFile = fallbackResult (file_name pdfFile)
  ∧ POST (pre ++ pdfFile :: post)
    = Results ((fileResult <$> pre)
               ++ [{| filename := file_name pdfFile; success := true; error := None;
                      risks := JArr [JStr "Unable to parse detailed analysis"];
                      summary := JStr "PDF analyzed but detailed results unavailable";
                      riskLevel := JStr "medium";
                      wcagConformance :=
                        JObj [("level", JStr "Non-conformant");
                              ("passedCriteria", JArr []);
                              ("failedCriteria", JArr []);
                              ("warnings", JArr [JStr "Analysis parsing failed"])] |}]
               ++ (fileResult <$> post)).
Proof.
  intros Hlen Htext Hne Hctx Hresp Hnone.
  assert (Hfile : fileResult pdfFile = fallbackResult (file_name pdfFile)).
  { unfold fileResult, tryBody. rewrite Htext. cbn [exc_bind].
    assert (bool_decide (text = "") || (String.length (trim text) =? 0) = false) as ->.
    { apply orb_false_iff. split.
      - apply bool_decide_eq_false. intros ->. by apply Hne.
      - by apply Nat.eqb_neq. }
    rewrite Hctx. cbn [exc_bind]. rewrite Hresp. cbn [exc_bind].
    by rewrite (parseAnalysis_fallback _ Hnone). }
  split; [done|].
  unfold POST. rewrite foldl_loopBody. simpl.
  assert ((length (pre ++ pdfFile :: post) =? 0) = false) as ->.
  { apply Nat.eqb_neq. rewrite length_app. simpl. lia. }
  assert ((10 <? length (pre ++ pdfFile :: post)) = false) as ->.
  { apply Nat.ltb_ge. lia. }
  rewrite fmap_app, fmap_cons, Hfile. done.
Qed.

End AnalyzeFacts.

Section AnalyzeExamples.
Import JS Analyze.

Lemma unparseable_response_yields_fallback_witness :
  @fileResult Examples.analyzeExample "second.pdf" = fallbackResult "second.pdf"
  ∧ @POST Examples.analyzeExample ["first.pdf"; "second.pdf"; "third.pdf"]
    = Results
        [{| filename := "first.pdf"; success := true; error := None;
            risks := JArr []; summary := JStr "Analysis completed";
            riskLevel := JStr "medium"; wcagConformance := nonConformant [] [] |};
         fallbackResult "second.pdf";
         {| filename := "third.pdf"; success := true; error := None;
            risks := JArr []; summary := JStr "Analysis completed";
            riskLevel := JStr "medium"; wcagConformance := nonConformant [] [] |}].
Proof.
  refine (@unparseable_response_yields_fallback Examples.analyzeExample
            ["first.pdf"] ["third.pdf"] "second.pdf" "Text of second.pdf"
            "WCAG 2.1 success criteria"
            "The document {as far as I can tell} looks fine." _ eq_refl _ eq_refl eq_refl _).
  - simpl. lia.
  - vm_compute. lia.
  - intros sub Hsub _ _. simpl.
    destruct (bool_decide (sub = "{}")) eqn:E; [|done].
    apply bool_decide_eq_true in E. subst sub. vm_compute in Hsub. done.
Defined.

End AnalyzeExamples.

(** ** The discovery crawler *)

Section CrawlerFacts.
Import JS Crawler.
Context `{U : UrlApi} `{W : Web}.

Lemma visitLink_candidates html baseUrl baseUrlObj pdfLinks link :
  link ∈ hrefMatches html →
  Forall (pdfCandidate html baseUrl baseUrlObj) pdfLinks →
  Forall (pdfCandidate html baseUrl baseUrlObj) (visitLink baseUrl baseUrlObj pdfLinks link).
Proof.
  intros Hlink H. unfold visitLink.
  destruct (_ || _) eqn:Eskip; [done|].
  destruct (absolutize baseUrl baseUrlObj link) as [abs|] eqn:Eabs; [|done].
  destruct (URL_new abs) as [linkUrl|] eqn:Eurl; [|done].
  destruct (sameDomain _ linkUrl && isPdf abs linkUrl) eqn:Etest; [|done].
  case_bool_decide; [done|].
  apply andb_true_iff in Etest as [Hsame Hpdf].
  apply Forall_app. split; [done|]. constructor; [|done].
  by exists link, abs, linkUrl.
Qed.

Lemma linkLoop_candidates html baseUrl baseUrlObj maxPdfs links pdfLinks :
  (∀ link, link ∈ links → link ∈ hrefMatches html) →
  Forall (pdfCandidate html baseUrl baseUrlObj) pdfLinks →
  Forall (pdfCandidate html baseUrl baseUrlObj)
    (linkLoop baseUrl baseUrlObj maxPdfs links pdfLinks).
Proof.
  revert pdfLinks. induction links as [|link links IH]; intros pdfLinks Hin H; simpl; [done|].
  case_match; [|done]. apply IH.
  - intros l Hl. apply Hin. by right.
  - apply visitLink_candidates; [apply Hin; by left | done].
Qed.

(** The links that the crawl follows are taken from the PDF candidates:
    a link that fails the PDF test is never enqueued. *)
Lemma pageLinks_are_pdf_candidates html url pageLinks :
  pageLinksOf html url = Ok pageLinks →
  ∃ baseUrlObj, URL_new url = Some baseUrlObj
    ∧ Forall (pdfCandidate html url baseUrlObj) pageLinks.
Proof.
  unfold pageLinksOf, extractPDFLinks.
  destruct (URL_new url) as [baseUrlObj|]; [|done]. simpl. intros [= <-].
  exists baseUrlObj. split; [done|].
  apply Forall_forall. intros x Hx. apply list_elem_of_In, filter_In in Hx as [Hx _].
  apply list_elem_of_In in Hx. revert x Hx. apply Forall_forall.
  by apply linkLoop_candidates.
Qed.

(** *** The invariant of the crawl loop *)

Lemma Inv_init startUrl : Inv startUrl (init startUrl).
Proof.
  split; simpl.
  - constructor.
  - intros u. set_solver.
  - intros u d [-> <-]%lookup_singleton_Some. split; [unfold maxDepth; lia | constructor].
  - intros u ->%list_elem_of_singleton. rewrite lookup_singleton_eq. by eexists.
  - intros u Hu. by apply elem_of_nil in Hu.
Qed.

Lemma enqueueLoop_inv (P : string → nat → Prop) depth pageLinks visited queue dm queue' dm' :
  enqueueLoop depth pageLinks visited queue dm = (queue', dm') →
  (∀ u d, dm !! u = Some d → P u d) →
  (∀ v, v ∈ pageLinks → P v (depth + 1)) →
  (∀ u, u ∈ queue → is_Some (dm !! u)) →
  (∀ u d, dm' !! u = Some d → P u d)
  ∧ (∀ u, u ∈ queue' → is_Some (dm' !! u))
  ∧ (∀ u, is_Some (dm !! u) → is_Some (dm' !! u)).
Proof.
  revert queue dm. induction pageLinks as [|v pageLinks IH]; intros queue dm; simpl.
  - intros [= <- <-]. auto.
  - intros H HP Hnew Hq.
    destruct (negb (bool_decide (v ∈ visited)) && negb (bool_decide (is_Some (dm !! v)))) eqn:E.
    + apply IH in H as (H1 & H2 & H3).
      * split; [done|]. split; [done|]. intros u Hu. apply H3.
        destruct (decide (v = u)) as [->|]; [rewrite lookup_insert_eq; by eexists|].
        by rewrite lookup_insert_ne.
      * intros u d. destruct (decide (v = u)) as [->|].
        -- rewrite lookup_insert_eq. intros [= <-]. apply Hnew. by left.
        -- rewrite lookup_insert_ne by done. apply HP.
      * intros u Hu. apply Hnew. by right.
      * intros u [Hu | ->%list_elem_of_singleton]%elem_of_app.
        -- destruct (decide (v = u)) as [->|]; [rewrite lookup_insert_eq; by eexists|].
           rewrite lookup_insert_ne by done. by apply Hq.
        -- rewrite lookup_insert_eq. by eexists.
    + apply IH in H as (H1 & H2 & H3); [done | done | | done].
      intros u Hu. apply Hnew. by right.
Qed.

Lemma Inv_step startUrl maxPdfs st st' :
  Inv startUrl st → step maxPdfs st = Next st' → Inv startUrl st'.
Proof.
  intros [Hnd Hvis Hdep Hq Hf]. unfold step.
  destruct (queue st) as [|url queue'] eqn:Eq; [done|].
  destruct (negb _); [done|].
  assert (Hurl : is_Some (depthMap st !! url)) by (apply Hq; by left).
  assert (Hq' : ∀ u, u ∈ queue' → is_Some (depthMap st !! u)).
  { intros u Hu. apply Hq. by right. }
  destruct (bool_decide (url ∈ visited st) || (maxDepth <? default 0 (depthMap st !! url)))
    eqn:Eskip.
  { intros [= <-]. by split. }
  apply orb_false_iff in Eskip as [Hnv _]. apply bool_decide_eq_false in Hnv.
  assert (Hnf : url ∉ fetched st) by (by rewrite <- Hvis).
  assert (Hnd' : NoDup (fetched st ++ [url])).
  { apply NoDup_app. split; [done|]. split; [|apply NoDup_singleton].
    intros u Hu ->%list_elem_of_singleton. done. }
  assert (Hvis' : ∀ u, u ∈ {[url]} ∪ visited st ↔ u ∈ fetched st ++ [url]).
  { intros u. rewrite elem_of_app, elem_of_union, Hvis, elem_of_singleton,
      list_elem_of_singleton. tauto. }
  assert (Hf' : ∀ u, u ∈ fetched st ++ [url] → is_Some (depthMap st !! u)).
  { intros u [Hu | ->%list_elem_of_singleton]%elem_of_app; [by apply Hf | done]. }
  destruct (fetchPage url) as [[|c html']|] eqn:Efetch;
    [intros [= <-]; by split | | intros [= <-]; by split].
  destruct (extractPDFLinks _ _ _) as [foundPDFs|]; [|done].
  destruct (recordLoop foundPDFs (pdfLinks st)) as [pdfLinks'|]; [|done].
  destruct (lengthBelow (length pdfLinks') maxPdfs
            && (default 0 (depthMap st !! url) <? maxDepth)) eqn:Emore;
    [|intros [= <-]; by split].
  apply andb_true_iff in Emore as [_ Hlt]. apply Nat.ltb_lt in Hlt.
  destruct (pageLinksOf (String c html') url) as [pageLinks|] eqn:Epage; [|done].
  destruct (enqueueLoop _ pageLinks _ queue' (depthMap st)) as [queue'' depthMap'] eqn:Eenq.
  intros [= <-].
  destruct Hurl as [d Hd]. rewrite Hd in Hlt, Eenq. simpl in Hlt, Eenq.
  destruct (Hdep url d Hd) as [_ Hhops].
  apply (enqueueLoop_inv (λ u k, k ≤ maxDepth ∧ hops k startUrl u)) in Eenq
    as (H1 & H2 & H3); [| done | | done].
  - split; simpl; try done. intros u Hu. by apply H3, Hf'.
  - intros v Hv. split; [lia|]. rewrite Nat.add_1_r. econstructor; [exact Hhops|].
    exists (String c html'), pageLinks. by repeat split.
Qed.

Lemma reachable_Inv startUrl maxPdfs st :
  reachable startUrl maxPdfs st → Inv startUrl st.
Proof.
  induction 1 as [|st st' _ IH Hstep]; [apply Inv_init | by eapply Inv_step].
Qed.

(** C7: in every state that the crawl loop reaches, the log of the fetched
    URLs has no repetition and holds exactly the URLs of the visited set;
    every fetched URL has a recorded depth of at most 3, and that many
    followed links lead to it from the seed.  So a URL that only chains of
    four or more links reach is never fetched. *)
Theorem crawl_fetches_once_and_within_depth
    (startUrl : string) (maxPdfs : number) (st : State) :
  reachable startUrl maxPdfs st →
  NoDup (fetched st)
  ∧ (∀ u, u ∈ visited st ↔ u ∈ fetched st)
  ∧ (∀ u, u ∈ fetched st →
       ∃ d, depthMap st !! u = Some d ∧ d ≤ 3 ∧ hops d startUrl u)
  ∧ (∀ u, u ∈ fetched st → default 0 (depthMap st !! u) ≤ 3)
  ∧ (∀ u, (∀ d, hops d startUrl u → 4 ≤ d) → u ∉ fetched st).
Proof.
  intros [Hnd Hvis Hdep Hq Hf]%reachable_Inv.
  assert (H : ∀ u, u ∈ fetched st →
            ∃ d, depthMap st !! u = Some d ∧ d ≤ 3 ∧ hops d startUrl u).
  { intros u [d Hd]%Hf. exists d. split; [done|]. by apply Hdep. }
  split; [done|]. split; [done|]. split; [done|]. split.
  - intros u (d & -> & Hd & _)%H. done.
  - intros u Hfar (d & _ & Hd & Hh)%H. apply Hfar in Hh. lia.
Qed.

Lemma reachable_advance startUrl maxPdfs n st :
  reachable startUrl maxPdfs st →
  reachable startUrl maxPdfs (Examples.advance maxPdfs n st).
Proof.
  revert st. induction n as [|n IH]; intros st Hst; simpl; [done|].
  destruct (step maxPdfs st) as [|st'|] eqn:E; try done.
  apply IH. by econstructor.
Qed.

End CrawlerFacts.

Section CrawlerExamples.
Import JS Crawler Examples.

Lemma crawl_fetches_once_and_within_depth_witness :
  let st := @advance SimpleUrl.api chainWeb (Finite 10) 6 (init "https://example.com") in
  NoDup (fetched st)
  ∧ (∀ u, u ∈ visited st ↔ u ∈ fetched st)
  ∧ (∀ u, u ∈ fetched st →
       ∃ d, depthMap st !! u = Some d ∧ d ≤ 3
            ∧ @hops SimpleUrl.api chainWeb d "https://example.com" u)
  ∧ (∀ u, u ∈ fetched st → default 0 (depthMap st !! u) ≤ 3)
  ∧ (∀ u, (∀ d, @hops SimpleUrl.api chainWeb d "https://example.com" u → 4 ≤ d) →
          u ∉ fetched st).
Proof.
  exact (@crawl_fetches_once_and_within_depth SimpleUrl.api chainWeb
           "https://example.com" (Finite 10) _
           (reachable_advance "https://example.com" (Finite 10) 6 _
              (reachable_init "https://example.com" (Finite 10)))).
Defined.

(** On the chain of pages the crawl stops at the page three links away from
    the seed: the link to the fourth page is recorded, the page itself is
    not fetched. *)
Example chain_crawl_stops_at_depth_3 :
  fetched (@advance SimpleUrl.api chainWeb (Finite 10) 6 (init "https://example.com"))
  = ["https://example.com"; "https://example.com/p1.pdf?view=1";
     "https://example.com/p2.pdf?view=1"; "https://example.com/p3.pdf?view=1"]
  ∧ @step SimpleUrl.api chainWeb (Finite 10)
      (@advance SimpleUrl.api chainWeb (Finite 10) 6 (init "https://example.com")) = Exit.
Proof. vm_compute. done. Qed.

(** C1 on the code: on the site of the example scenario the crawl ends
    after fetching the homepage only.  Both links of the homepage are
    found, but [/page2] is not a PDF candidate, so [extractPDFLinks]
    leaves it out of the page links too: it is never enqueued, and the
    list returned holds [a.pdf] alone. *)
Theorem scenario_crawl_returns_first_pdf_only :
  let home := anchor "/docs/a.pdf" +:+ anchor "/page2" in
  hrefMatches home = ["/docs/a.pdf"; "/page2"]
  ∧ @extractPDFLinks SimpleUrl.api home "https://example.com" (Finite 10)
    = Ok ["https://example.com/docs/a.pdf"]
  ∧ @pageLinksOf SimpleUrl.api home "https://example.com" = Ok []
  ∧ @crawlForPDFs SimpleUrl.api scenarioWeb 3 "https://example.com" (Finite 10)
    = Some (Ok [{| url := "https://example.com/docs/a.pdf"; name := "a.pdf" |}])
  ∧ fetched (@advance SimpleUrl.api scenarioWeb (Finite 10) 3 (init "https://example.com"))
    = ["https://example.com"].
Proof. vm_compute. done. Qed.

End CrawlerExamples.

(** ** Numbers *)

Section NumberFacts.
Import JS.

Lemma lengthBelow_Finite n q :
  lengthBelow n (Finite q) = true ↔ (inject_Z (Z.of_nat n) < q)%Q.
Proof.
  unfold lengthBelow. rewrite negb_true_iff, <- not_true_iff_false, Qle_bool_iff.
  split; [apply Qnot_le_lt | apply Qlt_not_le].
Qed.

Lemma lengthBelow_mono j k x :
  j ≤ k → lengthBelow k x = true → lengthBelow j x = true.
Proof.
  intros Hjk. destruct x as [q| | |]; try done.
  rewrite !lengthBelow_Finite. intros H.
  eapply Qle_lt_trans; [|exact H]. rewrite <- Zle_Qle. lia.
Qed.

Lemma lengthBelow_minus k n x :
  lengthBelow k (minusLength x n) = lengthBelow (k + n) x.
Proof.
  destruct x as [q| | |]; try done.
  cbn [minusLength]. apply eq_true_iff_eq. rewrite !lengthBelow_Finite.
  rewrite Nat2Z.inj_add, inject_Z_plus. unfold Qminus.
  split; intros H.
  - apply (Qplus_lt_l _ _ (- inject_Z (Z.of_nat n))).
    rewrite <- Qplus_assoc, Qplus_opp_r, Qplus_0_r. exact H.
  - apply (Qplus_lt_l _ _ (- inject_Z (Z.of_nat n))) in H.
    rewrite <- Qplus_assoc, Qplus_opp_r, Qplus_0_r in H. exact H.
Qed.

Lemma admits_mono x j k : j ≤ k → admits x k → admits x j.
Proof.
  intros Hjk [->|H]; [left; lia|].
  destruct j as [|j]; [by left|]. right.
  apply (lengthBelow_mono _ (k - 1)); [lia | done].
Qed.

Lemma admits_next x n : lengthBelow n x = true → admits x (S n).
Proof. intros H. right. simpl. by rewrite Nat.sub_0_r. Qed.

(** Under the guard [length < x] a list grows to at most the ceiling of
    [x] elements, and to none when [x] is not positive. *)
Lemma admits_Finite q n :
  admits (Finite q) n ↔ (Z.of_nat n ≤ Z.max 0 (Qceiling q))%Z.
Proof.
  unfold admits. rewrite lengthBelow_Finite. split.
  - intros [->|H]; [lia|].
    pose proof (Qle_ceiling q) as Hc.
    pose proof (Qlt_le_trans _ _ _ H Hc) as Hlt.
    rewrite <- Zlt_Qlt in Hlt. lia.
  - intros H. destruct n as [|n]; [by left|]. right.
    simpl. rewrite Nat.sub_0_r.
    eapply Qle_lt_trans; [|apply Qceiling_lt].
    rewrite <- Zle_Qle. lia.
Qed.

Lemma admits_integer z n :
  admits (Finite (inject_Z z)) n ↔ (Z.of_nat n ≤ Z.max 0 z)%Z.
Proof. by rewrite admits_Finite, Qceiling_Z. Qed.


End NumberFacts.

(** ** More on the chunker *)

Section ChunkerParts.
Import JS Chunker.

Lemma partOf_refl s : partOf s s.
Proof. exists "", "". by rewrite string_app_nil_l, string_app_nil_r. Qed.

Lemma partOf_trans a b c : partOf a b → partOf b c → partOf a c.
Proof.
  intros (x & y & ->) (u & v & ->). exists (u +:+ x), (y +:+ v).
  by rewrite !string_app_assoc.
Qed.

Lemma partOf_cons c p s : partOf p s → partOf p (String c s).
Proof. intros (a & b & ->). by exists (String c a), b. Qed.

Lemma trimStart_part s : partOf (trimStart s) s.
Proof.
  induction s as [|c s IH]; simpl; [apply partOf_refl|].
  destruct (is_ws c); [by apply partOf_cons | apply partOf_refl].
Qed.

Lemma trimEnd_prefix s : ∃ b, s = trimEnd s +:+ b.
Proof.
  induction s as [|c s [b IH]]; [by exists ""|]. simpl.
  destruct (trimEnd s) as [|d t] eqn:E.
  - destruct (is_ws c); [by exists (String c s) | exists s; by rewrite string_app_cons].
  - exists b. by rewrite string_app_cons, <- IH.
Qed.

Lemma trim_part s : partOf (trim s) s.
Proof.
  eapply partOf_trans; [|apply trimStart_part].
  destruct (trimEnd_prefix (trimStart s)) as [b Hb].
  exists "", b. by rewrite string_app_nil_l.
Qed.

Lemma substring_part s i n : partOf (substring s i n) s.
Proof.
  unfold substring. revert i n. induction s as [|c s IH]; intros i n.
  - destruct i, n; apply partOf_refl.
  - destruct i as [|i].
    + destruct n as [|n]; simpl.
      * exists "", (String c s). by rewrite !string_app_nil_l.
      * destruct (IH 0 n) as (a & b & H). clear H.
        assert (Hp : ∃ b, s = String.substring 0 n s +:+ b).
        { clear. revert n. induction s as [|d s IH]; intros [|n]; simpl.
          - by exists "".
          - by exists "".
          - by exists (String d s).
          - destruct (IH n) as [b Hb]. exists b. by rewrite string_app_cons, <- Hb. }
        destruct Hp as [b' Hb']. exists "", b'.
        by rewrite string_app_nil_l, string_app_cons, <- Hb'.
    + simpl. apply partOf_cons, IH.
Qed.

(** The pieces of a split are parts of the string. *)
Lemma split_go_parts m s skip cur :
  skip = 0 ∨ cur = "" →
  Forall (λ p, partOf p (String.rev cur +:+ s)) (split_go m s skip cur).
Proof.
  revert skip cur. induction s as [|c s IH]; intros skip cur Hsk.
  - simpl. constructor; [|done]. exists "", "".
    by rewrite string_app_nil_l.
  - cbn [split_go]. destruct skip as [|k].
    + destruct (m (String c s)) as [[|n]|] eqn:Em.
      * specialize (IH 0 (String c cur) (or_introl eq_refl)).
        by rewrite rev_cons, string_app_assoc in IH.
      * constructor.
        -- exists "", (String c s). by rewrite string_app_nil_l.
        -- specialize (IH n "" (or_intror eq_refl)).
           eapply Forall_impl; [exact IH|]. intros p (a & b & H).
           change (String.rev "" +:+ s) with s in H.
           exists (String.rev cur +:+ String c a), b.
           by rewrite H, !string_app_assoc.
      * specialize (IH 0 (String c cur) (or_introl eq_refl)).
        by rewrite rev_cons, string_app_assoc in IH.
    + destruct Hsk as [?| ->]; [done|].
      specialize (IH k "" (or_intror eq_refl)).
      eapply Forall_impl; [exact IH|]. intros p Hp.
      change (String.rev "" +:+ ?x) with x in *. by apply partOf_cons.
Qed.

Lemma split_re_parts m s : Forall (λ p, partOf p s) (split_re m s).
Proof. apply (split_go_parts m s 0 ""). by left. Qed.

Lemma chunkText_tier text : ∃ t, chunkText text = tierChunks t text.
Proof.
  unfold chunkText, chunkTraced.
  destruct (0 <? length (paragraphChunks text)); [by exists Paragraph|].
  destruct (0 <? length (sentenceChunks text)); [by exists Sentence | by exists Fixed].
Qed.

Lemma tierChunks_parts t text : Forall (λ c, partOf c text) (tierChunks t text).
Proof.
  apply Forall_forall. intros c Hc. destruct t; simpl in Hc.
  - apply list_elem_of_filter in Hc as [_ Hc].
    revert c Hc. apply Forall_forall, split_re_parts.
  - apply list_elem_of_filter in Hc as [_ Hc].
    revert c Hc. apply Forall_forall, split_re_parts.
  - rewrite fixedChunks_windows in Hc. apply list_elem_of_filter in Hc as [_ Hc].
    apply list_elem_of_fmap in Hc as (k & -> & _). unfold window.
    eapply partOf_trans; [apply trim_part | apply substring_part].
Qed.

Lemma trim_part_le p s : partOf p s → String.length (trim p) ≤ String.length (trim s).
Proof.
  intros (a & b & ->). induction a as [|c a IH].
  - rewrite string_app_nil_l.
    pose proof (trim_prefix_le (String.length p) (p +:+ b)) as H.
    by rewrite substring_app_prefix in H.
  - rewrite string_app_cons. etrans; [exact IH | apply trim_tail_le].
Qed.

Lemma chunkText_elem text chunk :
  chunk ∈ chunkText text →
  partOf chunk text
  ∧ 20 < String.length (trim chunk)
  ∧ String.length (trim chunk) ≤ String.length (trim text).
Proof.
  intros Hc. destruct (chunkText_tier text) as [t Ht]. rewrite Ht in Hc.
  pose proof (tierChunks_parts t text) as Hp.
  pose proof (tierChunks_keep t text) as Hk.
  rewrite Forall_forall in Hp, Hk.
  split; [by apply Hp|]. split; [by apply Hk | by apply trim_part_le, Hp].
Qed.

Lemma chunkText_short_nil text :
  String.length (trim text) ≤ 20 → chunkText text = [].
Proof.
  intros Hlen. destruct (chunkText text) as [|c l] eqn:E; [done|]. exfalso.
  assert (Hc : c ∈ chunkText text) by (rewrite E; by left).
  apply chunkText_elem in Hc. lia.
Qed.

(** Every chunk is a run of consecutive characters of the text, longer
    than 20 characters once trimmed and no longer, trimmed, than the
    trimmed text. *)
Theorem chunks_are_parts_of_the_text (text chunk : string) :
  chunk ∈ chunkText text →
  partOf chunk text
  ∧ 20 < String.length (trim chunk)
  ∧ String.length (trim chunk) ≤ String.length (trim text).
Proof. apply chunkText_elem. Qed.

(** A text whose trimmed length is at most 20 yields no chunk, whatever
    separators it holds. *)
Theorem short_text_yields_no_chunk (text : string) :
  String.length (trim text) ≤ 20 → chunkText text = [].
Proof. apply chunkText_short_nil. Qed.

End ChunkerParts.

Section ChunkerPartsExamples.
Import JS Chunker.

Lemma chunks_are_parts_of_the_text_witness :
  partOf "Second paragraph of the third document." Examples.textThree
  ∧ 20 < String.length (trim "Second paragraph of the third document.")
  ∧ String.length (trim "Second paragraph of the third document.")
    ≤ String.length (trim Examples.textThree).
Proof.
  apply (chunks_are_parts_of_the_text Examples.textThree).
  vm_compute. right. left.
Defined.

Lemma short_text_yields_no_chunk_witness :
  chunkText ("  Hi. Yes!" +:+ LFLF +:+ "No?  ") = [].
Proof. apply short_text_yields_no_chunk. vm_compute. lia. Defined.

End ChunkerPartsExamples.

Section ChunkerSeparators.
Import JS Chunker.

Lemma lastChar_snoc s c : lastChar (s +:+ String c "") = Some c.
Proof.
  induction s as [|d s IH]; [done|]. rewrite string_app_cons. simpl. by rewrite IH.
Qed.

Lemma hasPair_snoc q s c :
  hasPair q (s +:+ String c "")
  = hasPair q s || match lastChar s with Some l => q l c | None => false end.
Proof.
  induction s as [|d s IH]; [done|].
  rewrite string_app_cons. destruct s as [|e s].
  - simpl. by rewrite orb_false_r.
  - rewrite string_app_cons in *. cbn [hasPair lastChar] in *.
    rewrite IH. destruct (lastChar s); by rewrite orb_assoc.
Qed.

(** When the separator matches wherever two consecutive characters
    satisfy [q], no piece of the split holds such a pair. *)
Lemma split_go_no_pair q m s skip cur :
  (∀ c d rest, q c d = true → ∃ n, m (String c (String d rest)) = Some (S n)) →
  skip = 0 ∨ cur = "" →
  hasPair q (String.rev cur) = false →
  (∀ l cur' c s', cur = String l cur' → s = String c s' → q l c = false) →
  Forall (λ p, hasPair q p = false) (split_go m s skip cur).
Proof.
  intros Hm. revert skip cur. induction s as [|c s IH]; intros skip cur Hsk Hcur Hj.
  - simpl. by constructor.
  - cbn [split_go]. destruct skip as [|k].
    + assert (Hnext : hasPair q (String.rev (String c cur)) = false).
      { rewrite rev_cons, hasPair_snoc, Hcur. simpl.
        destruct cur as [|l cur']; [done|].
        rewrite rev_cons, lastChar_snoc. by eapply Hj. }
      destruct (m (String c s)) as [[|n]|] eqn:Em.
      * apply IH; [by left | done |].
        intros l cur' d s' [= <- <-] ->.
        destruct (q c d) eqn:Eq; [|done].
        destruct (Hm c d s' Eq) as [n Hn]. congruence.
      * constructor; [done|]. apply IH; [by right | done | done].
      * apply IH; [by left | done |].
        intros l cur' d s' [= <- <-] ->.
        destruct (q c d) eqn:Eq; [|done].
        destruct (Hm c d s' Eq) as [n Hn]. congruence.
    + destruct Hsk as [?| ->]; [done|]. apply IH; [by right | done | done].
Qed.

Lemma split_re_no_pair q m s :
  (∀ c d rest, q c d = true → ∃ n, m (String c (String d rest)) = Some (S n)) →
  Forall (λ p, hasPair q p = false) (split_re m s).
Proof. intros Hm. apply (split_go_no_pair q m s 0 ""); [done | by left | done | done]. Qed.

Lemma match_blank_pair c d rest :
  blankPair c d = true → ∃ n, match_blank (String c (String d rest)) = Some (S n).
Proof.
  unfold blankPair. intros [->%bool_decide_eq_true ->%bool_decide_eq_true]%andb_true_iff.
  exists (S (nl_run rest)). reflexivity.
Qed.

Lemma match_sentence_pair c d rest :
  breakPair c d = true → ∃ n, match_sentence (String c (String d rest)) = Some (S n).
Proof.
  unfold breakPair. intros [Hc Hd]%andb_true_iff.
  assert (is_terminator d = false) as Hnt.
  { destruct (is_terminator d) eqn:E; [|done]. exfalso.
    unfold is_terminator in E. unfold is_ws in Hd.
    repeat case_match; simplify_eq; done. }
  exists (S (ws_run rest)). cbn [match_sentence]. rewrite Hc, Hnt. simpl. by rewrite Hd.
Qed.

Lemma startsWith_LFLF c d s : startsWith (String c (String d s)) LFLF = blankPair c d.
Proof.
  unfold blankPair, LFLF. cbn [startsWith].
  repeat case_decide; repeat case_bool_decide; simplify_eq; done.
Qed.

Lemma includes_blank_hasPair s : includes s LFLF = hasPair blankPair s.
Proof.
  induction s as [|c s IH]; [done|]. cbn [includes hasPair]. rewrite IH.
  destruct s as [|d s].
  - unfold LFLF. cbn [startsWith]. by case_decide.
  - by rewrite startsWith_LFLF.
Qed.

Lemma has_sentence_break_hasPair s : has_sentence_break s = hasPair breakPair s.
Proof.
  induction s as [|c s IH]; [done|]. cbn [has_sentence_break hasPair].
  destruct s; [done|]. by rewrite IH.
Qed.

(** No chunk of the paragraph tier holds a blank line, and no chunk of the
    sentence tier holds a sentence terminator followed by white space:
    the split cuts at every separator. *)
Theorem tier_chunks_hold_no_separator (text : string) :
  Forall (λ c, includes c LFLF = false) (paragraphChunks text)
  ∧ Forall (λ c, has_sentence_break c = false) (sentenceChunks text).
Proof.
  split; apply Forall_forall; intros c [_ Hc]%list_elem_of_filter.
  - rewrite includes_blank_hasPair. revert c Hc.
    apply Forall_forall, split_re_no_pair, match_blank_pair.
  - rewrite has_sentence_break_hasPair. revert c Hc.
    apply Forall_forall, split_re_no_pair, match_sentence_pair.
Qed.

End ChunkerSeparators.

(** ** More on the Drive sync route *)

Section SyncReport.
Import JS Chunker Sync.

Lemma Consistent_empty : Consistent emptyAcc.
Proof. split; simpl; by constructor. Qed.

Lemma Consistent_merge a b : Consistent a → Consistent b → Consistent (merge a b).
Proof.
  intros [Ha1 Ha2 Ha3] [Hb1 Hb2 Hb3]. split; simpl.
  - rewrite sum_list_with_app. lia.
  - by apply Forall_app.
  - apply Forall_app. split; (eapply Forall_impl; [eassumption|]); intros d Hd;
      apply elem_of_app; auto.
Qed.

Lemma Consistent_push e :
  (error e = None ↔ 0 < chunks e) → chunks e = 0 →
  Consistent (pushProcessed emptyAcc e).
Proof.
  intros H1 H2. split; simpl.
  - by rewrite H2.
  - apply Forall_cons. split; [done | apply Forall_nil_2].
  - apply Forall_nil_2.
Qed.

Lemma buildVectors_length {E} (embed : string → Exc E) fid fname mime chunks out :
  buildVectors embed fid fname mime chunks = Ok out → length out = length chunks.
Proof.
  intros H. apply (buildVectors_view embed (λ _, ()) (λ _ _, ())) in H; [|done].
  apply (f_equal length) in H. by rewrite length_fmap, length_imap in H.
Qed.

Lemma buildVectors_texts {E} (embed : string → Exc E) fid fname mime chunks out :
  buildVectors embed fid fname mime chunks = Ok out →
  (λ v, text (metadata v)) <$> out = chunks.
Proof.
  intros H.
  apply (buildVectors_view embed (λ v, text (metadata v)) (λ _ c, c)) in H; [|done].
  rewrite H. clear. induction chunks as [|c l IH]; [done|].
  simpl. f_equal. exact IH.
Qed.

Context `{C : Collaborators}.

Lemma Consistent_loopBody f : Consistent (loopBody emptyAcc f).
Proof.
  unfold loopBody.
  destruct (id f) as [fid|], (name f) as [fname|]; try apply Consistent_empty.
  destruct (_ || _); [apply Consistent_empty|].
  destruct (tryBody f fid fname emptyAcc) as [d|err] eqn:E.
  - unfold tryBody in E.
    destruct (getFileContent fid (mimeOrPlain f)) as [buffer|?]; [|done].
    cbn [exc_bind] in E.
    destruct (length buffer =? 0);
      [injection E as <-; apply Consistent_push; [split; simpl; [done | lia] | done]|].
    destruct (extractTextFromDocument buffer (mimeOrPlain f)) as [text|?]; [|done].
    cbn [exc_bind] in E.
    destruct (bool_decide (text = "") || (String.length (trim text) =? 0));
      [injection E as <-; apply Consistent_push; [split; simpl; [done | lia] | done]|].
    destruct (length (chunkText text) =? 0) eqn:En;
      [injection E as <-; apply Consistent_push; [split; simpl; [done | lia] | done]|].
    destruct (buildVectors _ _ _ _ _) as [vectors|?] eqn:Eb; [|done].
    cbn [exc_bind] in E.
    destruct (upsertToPinecone vectors) as [[]|?]; [|done].
    injection E as <-. apply buildVectors_length in Eb. apply Nat.eqb_neq in En.
    split; simpl; [lia | | apply Forall_nil_2].
    apply Forall_cons. split; [|apply Forall_nil_2]. simpl. split; [lia | done].
  - split; simpl; [done | |].
    + apply Forall_cons. split; [|apply Forall_nil_2]. simpl. split; [done | lia].
    + apply Forall_cons. split; [|apply Forall_nil_2]. simpl. by left.
Qed.

Lemma Consistent_processFiles files : Consistent (processFiles files).
Proof.
  induction files as [|f files IH]; [apply Consistent_empty|].
  rewrite processFiles_cons. apply Consistent_merge; [apply Consistent_loopBody | done].
Qed.

(** Whatever the collaborators do, a report is consistent: [totalFiles] is
    the number of entries, [totalChunks] is the sum of their chunk counts,
    an entry carries an error exactly when its chunk count is zero, and
    every entry of [failedFileDetails], present only when not empty,
    repeats the name and the error of an entry with zero chunks. *)
Theorem sync_report_is_consistent (queryFolderId envFolderId : option string) :
  match POST queryFolderId envFolderId with
  | Report _ totalFiles totalChunks processedFiles failedFileDetails =>
      totalFiles = length processedFiles
      ∧ totalChunks = sum_list_with chunks processedFiles
      ∧ Forall (λ e, error e = None ↔ 0 < chunks e) processedFiles
      ∧ match failedFileDetails with
        | Some details =>
            details ≠ []
            ∧ Forall (λ d, {| e_name := f_name d; chunks := 0;
                              error := Some (f_error d) |} ∈ processedFiles) details
        | None => True
        end
  | _ => True
  end.
Proof.
  unfold POST.
  destruct (or_else _ _ _) as [folderId|]; [|done].
  destruct (bool_decide (folderId = "")); [done|].
  destruct (listFilesInFolder folderId) as [files|]; [|done].
  destruct (length files =? 0); [done|].
  destruct (Consistent_processFiles files) as [H1 H2 H3].
  split; [done|]. split; [done|]. split; [done|].
  destruct (0 <? length (failedFileDetails (processFiles files))) eqn:E; [|done].
  split; [|done]. intros E'. by rewrite E' in E.
Qed.

(** A file that is downloaded, read, embedded and upserted without a throw
    is reported with the number of chunks of its text, and the vectors
    upserted for it carry these chunks as their texts, in order, under the
    ids [fileId-chunk-0], [fileId-chunk-1], ... *)
Theorem successful_file_reports_its_chunks
    (f : DriveFile) (fid fname : string) (buffer : Buffer) (text : string)
    (vectors : list (Vector Embedding)) :
  id f = Some fid → name f = Some fname → fid ≠ "" → fname ≠ "" →
  getFileContent fid (mimeOrPlain f) = Ok buffer → length buffer ≠ 0 →
  extractTextFromDocument buffer (mimeOrPlain f) = Ok text →
  chunkText text ≠ [] →
  buildVectors getEmbedding fid fname (mimeType f) (chunkText text) = Ok vectors →
  upsertToPinecone vectors = Ok () →
  loopBody emptyAcc f
  = {| processedFiles :=
         [{| e_name := fname; chunks := length (chunkText text); error := None |}];
       totalChunks := length (chunkText text);
       failedFileDetails := [] |}
  ∧ (λ v, Sync.text (metadata v)) <$> vectors = chunkText text
  ∧ vid <$> vectors = chunkId fid <$> seq 0 (length (chunkText text)).
Proof.
  intros Hid Hname Hfid Hfname Hget Hlen Hext Hchunks Hbuild Hup.
  split; [|split; [by eapply buildVectors_texts | by eapply buildVectors_ids]].
  unfold loopBody. rewrite Hid, Hname.
  rewrite (bool_decide_eq_false_2 _ Hfid), (bool_decide_eq_false_2 _ Hfname). simpl.
  unfold tryBody. rewrite Hget. cbn [exc_bind].
  apply Nat.eqb_neq in Hlen. rewrite Hlen, Hext. cbn [exc_bind].
  assert (Hkeep : 20 < String.length (trim text)).
  { destruct (chunkText text) as [|c l] eqn:E; [done|].
    assert (Hc : c ∈ chunkText text) by (rewrite E; by left).
    apply chunkText_elem in Hc. pose proof (trim_length_le c). lia. }
  assert (bool_decide (text = "") || (String.length (trim text) =? 0) = false) as ->.
  { apply orb_false_iff. split.
    - apply bool_decide_eq_false. intros ->. simpl in Hkeep. lia.
    - apply Nat.eqb_neq. lia. }
  assert ((length (chunkText text) =? 0) = false) as ->.
  { apply Nat.eqb_neq. by destruct (chunkText text). }
  rewrite Hbuild. cbn [exc_bind]. rewrite Hup. cbn [exc_bind].
  by rewrite (buildVectors_length _ _ _ _ _ _ Hbuild).
Qed.

(** A file whose text is not blank but has at most 20 characters once
    trimmed is reported with the error [No valid chunks created]: nothing
    is embedded or upserted for it. *)
Theorem tiny_document_is_reported_without_chunks
    (f : DriveFile) (fid fname : string) (buffer : Buffer) (text : string) :
  id f = Some fid → name f = Some fname → fid ≠ "" → fname ≠ "" →
  getFileContent fid (mimeOrPlain f) = Ok buffer → length buffer ≠ 0 →
  extractTextFromDocument buffer (mimeOrPlain f) = Ok text →
  0 < String.length (trim text) ≤ 20 →
  loopBody emptyAcc f
  = {| processedFiles :=
         [{| e_name := fname; chunks := 0; error := Some "No valid chunks created" |}];
       totalChunks := 0;
       failedFileDetails := [] |}.
Proof.
  intros Hid Hname Hfid Hfname Hget Hlen Hext [Hpos Hshort].
  unfold loopBody. rewrite Hid, Hname.
  rewrite (bool_decide_eq_false_2 _ Hfid), (bool_decide_eq_false_2 _ Hfname). simpl.
  unfold tryBody. rewrite Hget. cbn [exc_bind].
  apply Nat.eqb_neq in Hlen. rewrite Hlen, Hext. cbn [exc_bind].
  assert (bool_decide (text = "") || (String.length (trim text) =? 0) = false) as ->.
  { apply orb_false_iff. split.
    - apply bool_decide_eq_false. intros ->. simpl in Hpos. lia.
    - apply Nat.eqb_neq. lia. }
  by rewrite (chunkText_short_nil text Hshort).
Qed.

End SyncReport.

Section SyncReportExamples.
Import JS Chunker Sync.

Lemma successful_file_reports_its_chunks_witness :
  @loopBody Examples.syncExample emptyAcc (Examples.driveFile "three.txt")
  = {| processedFiles := [{| e_name := "three.txt"; chunks := 2; error := None |}];
       totalChunks := 2;
       failedFileDetails := [] |}.
Proof.
  refine (proj1 (@successful_file_reports_its_chunks Examples.syncExample
            (Examples.driveFile "three.txt") "id-three.txt" "three.txt"
            (String.list_byte_of_string "id-three.txt") Examples.textThree
            _ eq_refl eq_refl _ _ eq_refl _ eq_refl _ eq_refl eq_refl)); done.
Defined.

Lemma tiny_document_is_reported_without_chunks_witness :
  @loopBody MoreExamples.tinySync emptyAcc (Examples.driveFile "note.txt")
  = {| processedFiles :=
         [{| e_name := "note.txt"; chunks := 0;
             error := Some "No valid chunks created" |}];
       totalChunks := 0;
       failedFileDetails := [] |}.
Proof.
  refine (@tiny_document_is_reported_without_chunks MoreExamples.tinySync
            (Examples.driveFile "note.txt") "id-note.txt" "note.txt"
            (String.list_byte_of_string "id-note.txt") "  Hello world.  "
            eq_refl eq_refl _ _ eq_refl _ eq_refl _); try done.
  vm_compute. lia.
Defined.

End SyncReportExamples.

Section ChunkIdInjective.
Import JS Sync.

Lemma pretty_N_go_digits x s :
  allChars is_digit s = true → allChars is_digit (pretty_N_go x s) = true.
Proof.
  revert s. induction (N.lt_wf_0 x) as [x _ IH]; intros s Hs.
  assert (x = 0 ∨ 0 < x)%N as [->|Hx] by lia; [by rewrite pretty_N_go_0|].
  rewrite pretty_N_go_step by done. apply IH; [by apply N.div_lt|].
  simpl. rewrite Hs, andb_true_r. unfold pretty_N_char. by repeat case_match.
Qed.

Lemma pretty_nat_digits (n : nat) : allChars is_digit (pretty n) = true.
Proof.
  unfold pretty, pretty_nat, pretty, pretty_N. case_decide; [done|].
  by apply pretty_N_go_digits.
Qed.

(** A dash followed by digits only marks the last dash of a string. *)
Lemma last_dash_unique a a' d d' :
  allChars is_digit d = true → allChars is_digit d' = true →
  a +:+ String "-" d = a' +:+ String "-" d' → a = a' ∧ d = d'.
Proof.
  intros Hd Hd'. revert a'. induction a as [|c a IH]; intros [|c' a'] H.
  - by injection H.
  - exfalso. rewrite string_app_nil_l, string_app_cons in H. injection H as <- ->.
    clear -Hd. induction a' as [|e a' IH]; [done|].
    rewrite string_app_cons in Hd. simpl in Hd. apply andb_true_iff in Hd as [_ Hd]. auto.
  - exfalso. rewrite string_app_nil_l, string_app_cons in H. injection H as -> <-.
    clear -Hd'. induction a as [|e a IH]; [done|].
    rewrite string_app_cons in Hd'. simpl in Hd'. apply andb_true_iff in Hd' as [_ Hd']. auto.
  - rewrite !string_app_cons in H. injection H as -> H.
    destruct (IH _ H) as [-> ->]. done.
Qed.

Lemma app_inj_r (a a' b : string) : a +:+ b = a' +:+ b → a = a'.
Proof.
  intros H. apply (f_equal String.rev) in H. rewrite !rev_app_distr_str in H.
  apply (inj (String.app (String.rev b))) in H.
  apply (f_equal String.rev) in H. by rewrite !rev_involutive_str in H.
Qed.

(** The id of a chunk determines both the file and the index: chunks of
    different files, and different chunks of one file, never share an
    id, so an upsert for one file never overwrites a vector of another. *)
Theorem chunk_ids_never_collide (fileId1 fileId2 : string) (chunkIndex1 chunkIndex2 : nat) :
  chunkId fileId1 chunkIndex1 = chunkId fileId2 chunkIndex2 →
  fileId1 = fileId2 ∧ chunkIndex1 = chunkIndex2.
Proof.
  assert (Hsplit : ∀ f i, chunkId f i = (f +:+ "-chunk") +:+ String "-" (pretty i)).
  { intros f i. unfold chunkId. by rewrite string_app_assoc. }
  rewrite !Hsplit. intros H.
  apply last_dash_unique in H as [Hf Hi]; [| apply pretty_nat_digits..].
  split; [by apply app_inj_r in Hf | by apply (inj pretty) in Hi].
Qed.

End ChunkIdInjective.

Section ChunkIdInjectiveExamples.
Import JS Sync.

Lemma chunk_ids_never_collide_witness : "doc-chunk-1" = "doc-chunk-1" ∧ 0 = 0.
Proof.
  apply (chunk_ids_never_collide "doc-chunk-1" "doc-chunk-1" 0 0). reflexivity.
Defined.

End ChunkIdInjectiveExamples.

(** ** More on the preview route *)

Section PreviewOrder.
Import JS Preview.
Context `{C : Collaborators}.




Lemma trim_empty_length s : String.length (trim s) ≠ 0 → s ≠ "".
Proof. by intros H ->. Qed.

(** A successful answer names the requested file, counts at least one
    chunk and never carries an empty preview. *)
Theorem successful_preview_is_not_empty (request : option string)
    (preview fileId : string) (chunkCount : nat) :
  POST request = PreviewOk preview fileId chunkCount →
  request = Some fileId ∧ 1 ≤ chunkCount ∧ preview ≠ "".
Proof.
  unfold POST. destruct request as [fid|]; [|done].
  destruct (bool_decide (fid = "")); [done|].
  destruct (tryBody fid) as [r|] eqn:E; [|done]. intros ->.
  unfold tryBody in E.
  destruct (getEmbedding fid) as [e1|]; [|done]. cbn [exc_bind] in E.
  destruct (queryPinecone e1 topK) as [m1|]; [|done]. cbn [exc_bind] in E.
  assert (Hrec : ∀ l, reconstruct fid l = PreviewOk preview fileId chunkCount →
                      l ≠ [] → Some fid = Some fileId ∧ 1 ≤ chunkCount ∧ preview ≠ "").
  { intros l Hl Hne. unfold reconstruct in Hl.
    destruct (String.length (trim (previewText (sortMatches l))) =? 0) eqn:Et; [done|].
    injection Hl as <- <- <-. apply Nat.eqb_neq in Et.
    split; [done|]. split; [|by apply trim_empty_length].
    rewrite (Permutation_length (sortMatches_perm l)).
    destruct l; [done | simpl; lia]. }
  assert (Hnil : reconstruct fid [] ≠ PreviewOk preview fileId chunkCount) by done.
  destruct (length (filterMatches fid m1) =? 0) eqn:E1.
  - destruct (getEmbedding "text content document") as [e2|]; [|done].
    cbn [exc_bind] in E.
    destruct (queryPinecone e2 topK) as [m2|]; [|done]. cbn [exc_bind] in E.
    apply Nat.eqb_eq in E1.
    destruct (0 <? length (filterMatches fid m2)) eqn:E2.
    + injection E as <- <- <-. apply Nat.ltb_lt in E2.
      rewrite (Permutation_length (sortMatches_perm _)).
      split; [done|]. split; [lia|]. by case_bool_decide.
    + injection E as E. destruct (filterMatches fid m1); [done | simpl in E1; lia].
  - injection E as E. apply Hrec in E; [done|].
    intros E'. by rewrite E' in E1.
Qed.

End PreviewOrder.

Section PreviewOrderExamples.
Import JS Preview.


Lemma successful_preview_is_not_empty_witness :
  Some "f1" = Some "f1" ∧ 1 ≤ 3
  ∧ ("Introduction to the accessibility handbook." +:+ separator
     +:+ "Chapter one covers perceivable content." +:+ separator
     +:+ "Chapter two covers operable interfaces.") ≠ "".
Proof.
  apply (@successful_preview_is_not_empty Examples.previewExample (Some "f1")).
  vm_compute. reflexivity.
Defined.

End PreviewOrderExamples.

(** ** More on the analysis route *)

Section AnalyzeResults.
Import JS Analyze.

Lemma includes_char_cons c a s :
  includes (String a s) (String c "") = false → a ≠ c ∧ includes s (String c "") = false.
Proof.
  cbn [includes startsWith]. intros [H1 H2]%orb_false_iff. split; [|done].
  intros ->. by rewrite decide_True in H1.
Qed.

Lemma dropTo_first c pre rest :
  includes pre (String c "") = false → dropTo c (pre +:+ String c rest) = Some rest.
Proof.
  induction pre as [|a pre IH]; intros H.
  - rewrite string_app_nil_l. simpl. by rewrite decide_True.
  - apply includes_char_cons in H as [Ha H]. rewrite string_app_cons. simpl.
    rewrite decide_False by done. by apply IH.
Qed.

Lemma takeToLast_absent c s : includes s (String c "") = false → takeToLast c s = None.
Proof.
  induction s as [|a s IH]; [done|]. intros [Ha H]%includes_char_cons.
  simpl. rewrite (IH H). by rewrite decide_False.
Qed.

Lemma takeToLast_last c body post :
  includes post (String c "") = false →
  takeToLast c (body +:+ String c post) = Some (body +:+ String c "").
Proof.
  intros H. induction body as [|a body IH].
  - rewrite !string_app_nil_l. simpl. rewrite (takeToLast_absent c post H).
    by rewrite decide_True.
  - rewrite !string_app_cons. simpl. by rewrite IH.
Qed.

(** The regular expression picks the text from the first opening brace to
    the last closing brace, whatever surrounds it. *)
Lemma jsonMatch_braces pre body post :
  includes pre "{" = false → includes post "}" = false →
  jsonMatch (pre +:+ String "{" (body +:+ String "}" post))
  = Some (String "{" (body +:+ "}")).
Proof.
  intros Hpre Hpost. unfold jsonMatch.
  rewrite (dropTo_first "{" pre _ Hpre). simpl.
  by rewrite (takeToLast_last "}" body post Hpost).
Qed.

Context `{C : Collaborators}.

(** The analysis is read from the braces of the response: with prose
    before the first opening brace and after the last closing one, the
    text handed to [JSON.parse] is the text between them, braces
    included; its value is the analysis, and the fallback analysis is
    used when it does not parse. *)
Theorem analysis_is_read_between_the_braces (pre body post : string) :
  includes pre "{" = false → includes post "}" = false →
  jsonMatch (pre +:+ "{" +:+ body +:+ "}" +:+ post) = Some ("{" +:+ body +:+ "}")
  ∧ parseAnalysis (pre +:+ "{" +:+ body +:+ "}" +:+ post)
    = default fallbackAnalysis (JSON_parse ("{" +:+ body +:+ "}")).
Proof.
  intros Hpre Hpost.
  assert (H : jsonMatch (pre +:+ "{" +:+ body +:+ "}" +:+ post)
              = Some ("{" +:+ body +:+ "}")) by (by apply jsonMatch_braces).
  split; [done|]. unfold parseAnalysis. rewrite H.
  by destruct (JSON_parse _).
Qed.

Lemma fileResult_filename pdfFile : filename (fileResult pdfFile) = file_name pdfFile.
Proof.
  unfold fileResult. destruct (tryBody pdfFile) as [r|] eqn:E; [|done].
  unfold tryBody in E.
  destruct (extractTextFromDocument _ _) as [text|]; [|done]. cbn [exc_bind] in E.
  destruct (_ || _); [by injection E as <-|].
  destruct (findRelevantContext _ _) as [ctx|]; [|done]. cbn [exc_bind] in E.
  destruct (chatCompletionAnalysis _ _) as [resp|]; [|done]. cbn [exc_bind] in E.
  unfold analysisResult in E.
  repeat (destruct (getProp _ _); [|done]; cbn [exc_bind] in E).
  by injection E as <-.
Qed.

(** The route answers with one result per uploaded file, in upload order
    and under the name of the file, exactly when one to ten files are
    uploaded; otherwise the request is refused. *)
Theorem analysis_answers_one_result_per_file (pdfFiles : list File) :
  match POST pdfFiles with
  | Results results =>
      1 ≤ length pdfFiles ≤ 10
      ∧ filename <$> results = file_name <$> pdfFiles
  | BadRequest _ => pdfFiles = [] ∨ 10 < length pdfFiles
  end.
Proof.
  unfold POST. destruct (length pdfFiles =? 0) eqn:E0.
  { left. apply Nat.eqb_eq in E0. by destruct pdfFiles. }
  destruct (10 <? length pdfFiles) eqn:E10.
  { right. by apply Nat.ltb_lt. }
  apply Nat.eqb_neq in E0. apply Nat.ltb_ge in E10. split; [lia|].
  rewrite foldl_loopBody. simpl. rewrite <- list_fmap_compose.
  apply list_fmap_ext. intros i f _. simpl. apply fileResult_filename.
Qed.

Lemma orDefault_truthy v d : truthy d = true → truthy (orDefault v d) = true.
Proof. intros Hd. unfold orDefault. destruct v as [x|]; [|done]. by destruct (truthy x) eqn:E. Qed.

(** What every entry satisfies. *)
Lemma fileResult_shape pdfFile :
  let r := fileResult pdfFile in
  (success r = true ↔ error r = None)
  ∧ truthy (risks r) = true ∧ truthy (summary r) = true
  ∧ truthy (riskLevel r) = true ∧ truthy (wcagConformance r) = true
  ∧ (success r = false → risks r = JArr [] ∧ riskLevel r = JStr "high").
Proof.
  assert (Hfail : ∀ e,
    let r := failedResult pdfFile e in
    (success r = true ↔ error r = None)
    ∧ truthy (risks r) = true ∧ truthy (summary r) = true
    ∧ truthy (riskLevel r) = true ∧ truthy (wcagConformance r) = true
    ∧ (success r = false → risks r = JArr [] ∧ riskLevel r = JStr "high")).
  { intros e. simpl. repeat split; done. }
  unfold fileResult. destruct (tryBody pdfFile) as [r|] eqn:E; [|apply Hfail].
  unfold tryBody in E.
  destruct (extractTextFromDocument _ _) as [text|]; [|done]. cbn [exc_bind] in E.
  destruct (_ || _); [injection E as <-; simpl; repeat split; done|].
  destruct (findRelevantContext _ _) as [ctx|]; [|done]. cbn [exc_bind] in E.
  destruct (chatCompletionAnalysis _ _) as [resp|]; [|done]. cbn [exc_bind] in E.
  unfold analysisResult in E.
  repeat (destruct (getProp _ _); [|done]; cbn [exc_bind] in E).
  injection E as <-. simpl.
  repeat split; try done; by apply orDefault_truthy.
Qed.

(** In every answer, an entry is marked as a success exactly when it
    carries no error; its risks, summary, risk level and conformance
    report are never missing or falsy, because each falls back to a
    default; and an entry that is not a success lists no risk and has the
    risk level [high]. *)
Theorem analysis_entries_are_complete (pdfFiles : list File) (results : list Result) :
  POST pdfFiles = Results results →
  Forall (λ r,
      (success r = true ↔ error r = None)
      ∧ truthy (risks r) = true ∧ truthy (summary r) = true
      ∧ truthy (riskLevel r) = true ∧ truthy (wcagConformance r) = true
      ∧ (success r = false → risks r = JArr [] ∧ riskLevel r = JStr "high"))
    results.
Proof.
  unfold POST. destruct (length pdfFiles =? 0); [done|].
  destruct (10 <? length pdfFiles); [done|]. intros [= <-].
  rewrite foldl_loopBody. simpl. apply Forall_fmap, Forall_forall.
  intros f _. apply fileResult_shape.
Qed.

End AnalyzeResults.

Section AnalyzeResultsExamples.
Import JS Analyze.

Lemma analysis_is_read_between_the_braces_witness :
  @jsonMatch ("Here is the report: " +:+ "{" +:+ "" +:+ "}" +:+ " Hope it helps.")
  = Some ("{" +:+ "" +:+ "}")
  ∧ @parseAnalysis Examples.analyzeExample
      ("Here is the report: " +:+ "{" +:+ "" +:+ "}" +:+ " Hope it helps.")
    = default fallbackAnalysis (@JSON_parse Examples.analyzeExample ("{" +:+ "" +:+ "}")).
Proof.
  apply (@analysis_is_read_between_the_braces Examples.analyzeExample); reflexivity.
Defined.

Lemma analysis_entries_are_complete_witness :
  Forall (λ r,
      (success r = true ↔ error r = None)
      ∧ truthy (risks r) = true ∧ truthy (summary r) = true
      ∧ truthy (riskLevel r) = true ∧ truthy (wcagConformance r) = true
      ∧ (success r = false → risks r = JArr [] ∧ riskLevel r = JStr "high"))
    [@fileResult Examples.analyzeExample "first.pdf";
     @fileResult Examples.analyzeExample "second.pdf"].
Proof.
  apply (@analysis_entries_are_complete Examples.analyzeExample ["first.pdf"; "second.pdf"]).
  reflexivity.
Defined.

End AnalyzeResultsExamples.

(** ** More on the discovery crawler *)

Section CrawlerBounds.
Import JS Crawler.
Context `{U : UrlApi} `{W : Web}.

(** *** The links extracted from one page *)

Lemma visitLink_cases baseUrl baseUrlObj pdfLinks link :
  visitLink baseUrl baseUrlObj pdfLinks link = pdfLinks
  ∨ (∃ x, (x ∉ pdfLinks) ∧ visitLink baseUrl baseUrlObj pdfLinks link = pdfLinks ++ [x]).
Proof.
  unfold visitLink. repeat case_match; auto.
  right. eexists. split; [|done].
  match goal with H : bool_decide _ = false |- _ => by apply bool_decide_eq_false in H end.
Qed.

Lemma linkLoop_distinct baseUrl baseUrlObj maxPdfs links pdfLinks :
  NoDup pdfLinks → admits maxPdfs (length pdfLinks) →
  NoDup (linkLoop baseUrl baseUrlObj maxPdfs links pdfLinks)
  ∧ admits maxPdfs (length (linkLoop baseUrl baseUrlObj maxPdfs links pdfLinks)).
Proof.
  revert pdfLinks. induction links as [|link links IH]; intros pdfLinks Hnd Had; simpl.
  { by split. }
  destruct (lengthBelow (length pdfLinks) maxPdfs) eqn:E; [|by split].
  destruct (visitLink_cases baseUrl baseUrlObj pdfLinks link) as [->|(x & Hx & ->)].
  - by apply IH.
  - apply IH.
    + apply NoDup_app. split; [done|]. split; [|apply NoDup_singleton].
      intros y Hy ->%list_elem_of_singleton. done.
    + rewrite length_app, Nat.add_1_r. by apply admits_next.
Qed.

Lemma extractPDFLinks_bounds html baseUrl maxPdfs links :
  extractPDFLinks html baseUrl maxPdfs = Ok links →
  NoDup links ∧ admits maxPdfs (length links).
Proof.
  unfold extractPDFLinks. destruct (URL_new baseUrl) as [baseUrlObj|]; [|done].
  intros [= <-]. apply linkLoop_distinct; [constructor | by left].
Qed.

(** The links extracted from a page are pairwise distinct.  The list is
    empty, or its last link was added while the length was below
    [maxPdfs]: for a finite [maxPdfs] the links are at most its ceiling,
    which is [maxPdfs] itself for an integer and one more than its integer
    part for a fraction, and none when [maxPdfs] is not positive.  Each
    link is the normalised form of a captured link of the page, made
    absolute and parsed, that is on the domain of the page and passed the
    PDF test. *)
Theorem extracted_links_are_distinct_and_capped
    (html baseUrl : string) (maxPdfs : number) (links : list string) :
  extractPDFLinks html baseUrl maxPdfs = Ok links →
  NoDup links
  ∧ (links = [] ∨ lengthBelow (length links - 1) maxPdfs = true)
  ∧ (∀ q, maxPdfs = Finite q → (Z.of_nat (length links) ≤ Z.max 0 (Qceiling q))%Z)
  ∧ (∀ z, maxPdfs = Finite (inject_Z z) → (Z.of_nat (length links) ≤ Z.max 0 z)%Z)
  ∧ ∃ baseUrlObj, URL_new baseUrl = Some baseUrlObj
      ∧ Forall (pdfCandidate html baseUrl baseUrlObj) links.
Proof.
  intros H. destruct (extractPDFLinks_bounds _ _ _ _ H) as [Hnd Had].
  split; [done|]. split; [|split; [|split]].
  - destruct Had as [H0|H1]; [left; by destruct links | by right].
  - intros q ->. by apply admits_Finite.
  - intros z ->. by apply admits_integer.
  - unfold extractPDFLinks in H. destruct (URL_new baseUrl) as [baseUrlObj|]; [|done].
    injection H as <-. exists baseUrlObj. split; [done|].
    by apply linkLoop_candidates.
Qed.

Lemma pageLinksOf_length html url pageLinks :
  pageLinksOf html url = Ok pageLinks → length pageLinks ≤ 50.
Proof.
  unfold pageLinksOf.
  destruct (extractPDFLinks html url (Finite 50)) as [links|] eqn:E; [|done].
  simpl. intros [= <-]. apply extractPDFLinks_bounds in E as [_ E].
  apply (admits_integer 50) in E.
  pose proof (filter_length_le (λ link, negb (endsWith link ".pdf")) links).
  unfold filter in *. lia.
Qed.

(** *** The records *)

Lemma endsWith_app s p : endsWith (s +:+ p) p = true.
Proof. unfold endsWith. rewrite rev_app_distr_str. apply startsWith_app. Qed.

Lemma recordLoop_shape foundPDFs pdfLinks out :
  recordLoop foundPDFs pdfLinks = Ok out →
  ∃ new, out = pdfLinks ++ new
    ∧ length new ≤ length foundPDFs
    ∧ (NoDup (url <$> pdfLinks) → NoDup (url <$> out))
    ∧ Forall (λ p, endsWith (name p) ".pdf" = true) new.
Proof.
  revert pdfLinks. induction foundPDFs as [|pdfUrl rest IH]; intros pdfLinks; simpl.
  { intros [= <-]. exists []. rewrite app_nil_r. by repeat split. }
  destruct (bool_decide (Exists (λ p, url p = pdfUrl) pdfLinks)) eqn:Ex.
  { intros (new & -> & Hlen & Hnd & Hn)%IH. exists new. repeat split; [lia | done | done]. }
  destruct (URL_new pdfUrl) as [urlObj|]; [|done].
  intros (new & -> & Hlen & Hnd & Hn)%IH.
  eexists (_ :: new). rewrite <- app_assoc. split; [done|].
  split; [simpl; lia|]. split.
  - intros H. rewrite <- app_assoc in Hnd. apply Hnd.
    rewrite fmap_app. apply NoDup_app. split; [done|].
    split; [|apply NoDup_singleton]. simpl.
    intros u Hu ->%list_elem_of_singleton.
    apply bool_decide_eq_false in Ex. apply Ex, Exists_exists.
    apply list_elem_of_fmap in Hu as (p & -> & Hp). eauto.
  - constructor; [|done]. simpl. case_match; [done | apply endsWith_app].
Qed.

(** *** The queue *)

Lemma enqueueLoop_shape depth pageLinks visited queue dm queue' dm' :
  enqueueLoop depth pageLinks visited queue dm = (queue', dm') →
  ∃ new, queue' = queue ++ new
    ∧ length new ≤ length pageLinks
    ∧ (∀ u, is_Some (dm !! u) → dm' !! u = dm !! u)
    ∧ Forall (λ v, dm' !! v = Some (depth + 1)) new.
Proof.
  revert queue dm. induction pageLinks as [|v pageLinks IH]; intros queue dm; simpl.
  { intros [= <- <-]. exists []. rewrite app_nil_r. by repeat split. }
  destruct (negb (bool_decide (v ∈ visited)) && negb (bool_decide (is_Some (dm !! v))))
    eqn:E.
  - apply andb_true_iff in E as [_ Hv]. apply negb_true_iff, bool_decide_eq_false in Hv.
    intros (new & -> & Hlen & Hsame & Hnew)%IH.
    exists (v :: new). rewrite <- app_assoc. split; [done|]. split; [simpl; lia|].
    split.
    + intros u Hu. rewrite Hsame.
      * apply lookup_insert_ne. intros ->. done.
      * rewrite lookup_insert_ne; [done|]. intros ->. done.
    + constructor; [|done]. rewrite Hsame; [apply lookup_insert_eq|].
      rewrite lookup_insert_eq. by eexists.
  - intros (new & -> & Hlen & Hsame & Hnew)%IH. exists new. repeat split; [lia|done..].
Qed.

(** *** One iteration, case by case *)

Lemma step_Next maxPdfs st st' :
  step maxPdfs st = Next st' →
  ∃ url queue',
    queue st = url :: queue'
    ∧ lengthBelow (length (pdfLinks st)) maxPdfs = true
    ∧ ((visited st' = visited st ∧ fetched st' = fetched st
        ∧ pdfLinks st' = pdfLinks st ∧ queue st' = queue' ∧ depthMap st' = depthMap st)
       ∨ ((url ∉ visited st)
          ∧ visited st' = {[url]} ∪ visited st ∧ fetched st' = fetched st ++ [url]
          ∧ ((pdfLinks st' = pdfLinks st ∧ queue st' = queue'
              ∧ depthMap st' = depthMap st)
             ∨ ∃ html foundPDFs,
                 fetchPage url = Some html ∧ html ≠ ""
                 ∧ extractPDFLinks html url (minusLength maxPdfs (length (pdfLinks st)))
                   = Ok foundPDFs
                 ∧ recordLoop foundPDFs (pdfLinks st) = Ok (pdfLinks st')
                 ∧ ((queue st' = queue' ∧ depthMap st' = depthMap st)
                    ∨ ∃ pageLinks,
                        default 0 (depthMap st !! url) < maxDepth
                        ∧ pageLinksOf html url = Ok pageLinks
                        ∧ enqueueLoop (default 0 (depthMap st !! url)) pageLinks
                            (visited st') queue' (depthMap st)
                          = (queue st', depthMap st'))))).
Proof.
  unfold step. destruct (queue st) as [|url queue'] eqn:Eq; [done|].
  destruct (lengthBelow (length (pdfLinks st)) maxPdfs) eqn:El; [|done].
  simpl. intros H. exists url, queue'.
  split; [done|]. split; [done|].
  destruct (bool_decide (url ∈ visited st) || (maxDepth <? default 0 (depthMap st !! url)))
    eqn:Eskip.
  { injection H as <-. by left. }
  apply orb_false_iff in Eskip as [Hnv _]. apply bool_decide_eq_false in Hnv.
  right. split; [done|].
  destruct (fetchPage url) as [[|c html']|] eqn:Efetch;
    [injection H as <-; simpl; split; [done|]; split; [done|]; by left |
     | injection H as <-; simpl; split; [done|]; split; [done|]; by left].
  destruct (extractPDFLinks _ _ _) as [foundPDFs|] eqn:Efound; [|done].
  destruct (recordLoop foundPDFs (pdfLinks st)) as [pdfLinks'|] eqn:Erec; [|done].
  destruct (lengthBelow (length pdfLinks') maxPdfs
            && (default 0 (depthMap st !! url) <? maxDepth)) eqn:Emore.
  - apply andb_true_iff in Emore as [_ Hlt]. apply Nat.ltb_lt in Hlt.
    destruct (pageLinksOf (String c html') url) as [pageLinks|] eqn:Epage; [|done].
    destruct (enqueueLoop _ pageLinks _ queue' (depthMap st)) as [queue'' depthMap'] eqn:Eenq.
    injection H as <-. simpl. split; [done|]. split; [done|]. right.
    exists (String c html'), foundPDFs. repeat split; try done.
    right. exists pageLinks. by repeat split.
  - injection H as <-. simpl. split; [done|]. split; [done|]. right.
    exists (String c html'), foundPDFs. repeat split; try done. by left.
Qed.

(** *** The records collected *)

Lemma Collected_step maxPdfs st st' :
  step maxPdfs st = Next st' →
  Collected maxPdfs (pdfLinks st) → Collected maxPdfs (pdfLinks st').
Proof.
  intros (url & queue' & _ & Hlen & Hcases)%step_Next Hc.
  destruct Hcases as [(_ & _ & -> & _)|(_ & _ & _ & [(-> & _)|Hpage])]; [done..|].
  destruct Hpage as (html & foundPDFs & _ & _ & Hfound & Hrec & _).
  apply extractPDFLinks_bounds in Hfound as [_ Hcap].
  apply recordLoop_shape in Hrec as (new & Hout & Hnew & Hnd & Hnames).
  destruct Hc as [H1 H2 H3]. rewrite Hout in *. split.
  - by apply Hnd.
  - destruct Hcap as [H0|Hlast].
    + destruct new; [by rewrite app_nil_r | simpl in Hnew; lia].
    + rewrite lengthBelow_minus in Hlast.
      apply (admits_mono _ _ (S (length foundPDFs - 1 + length (pdfLinks st)))).
      * rewrite length_app. lia.
      * by apply admits_next.
  - by apply Forall_app.
Qed.

Lemma Collected_run maxPdfs fuel st records :
  Collected maxPdfs (pdfLinks st) →
  run maxPdfs fuel st = Some (Ok records) → Collected maxPdfs records.
Proof.
  revert st. induction fuel as [|fuel IH]; intros st Hc; simpl; [done|].
  destruct (step maxPdfs st) as [|st'|] eqn:E.
  - by intros [= <-].
  - apply IH. by eapply Collected_step.
  - done.
Qed.

(** Whatever the site serves, the records that the crawl returns have
    pairwise distinct URLs and names that end in [.pdf].  The list is
    empty, or its length less one is below [maxPdfs]: for a finite
    [maxPdfs] the records are at most its ceiling, which is [maxPdfs]
    itself for an integer and one more than its integer part for a
    fraction, and none when [maxPdfs] is not positive. *)
Theorem crawl_returns_distinct_capped_records
    (fuel : nat) (startUrl : string) (maxPdfs : number) (records : list PdfRecord) :
  crawlForPDFs fuel startUrl maxPdfs = Some (Ok records) →
  NoDup (url <$> records)
  ∧ (records = [] ∨ lengthBelow (length records - 1) maxPdfs = true)
  ∧ (∀ q, maxPdfs = Finite q → (Z.of_nat (length records) ≤ Z.max 0 (Qceiling q))%Z)
  ∧ (∀ z, maxPdfs = Finite (inject_Z z) → (Z.of_nat (length records) ≤ Z.max 0 z)%Z)
  ∧ Forall (λ p, endsWith (name p) ".pdf" = true) records.
Proof.
  intros H. apply Collected_run in H as [H1 H2 H3];
    [|split; simpl; [constructor | by left | constructor]].
  split; [done|]. split; [|split; [|split; [|done]]].
  - destruct H2 as [H0|Hlast]; [left; by destruct records | by right].
  - intros q ->. by apply admits_Finite.
  - intros z ->. by apply admits_integer.
Qed.

End CrawlerBounds.

Section CrawlerTermination.
Import JS Crawler.
Context `{U : UrlApi} `{W : Web}.

Lemma cost_pos k : 1 ≤ cost k.
Proof. destruct k; simpl; lia. Qed.

Lemma weight_pos d : 1 ≤ weight d.
Proof. apply cost_pos. Qed.

Lemma weight_step d : d < maxDepth → weight d = 1 + 50 * weight (d + 1).
Proof.
  unfold weight. intros H.
  replace (maxDepth - d) with (S (maxDepth - (d + 1))) by lia. done.
Qed.

#[local] Opaque cost.

Lemma potential_init startUrl : potential (init startUrl) = cost maxDepth.
Proof.
  unfold potential. simpl. rewrite lookup_singleton_eq. simpl.
  unfold weight. rewrite Nat.sub_0_r. lia.
Qed.

Lemma sum_list_with_eq {A} (f g : A → nat) l :
  (∀ x, x ∈ l → f x = g x) → sum_list_with f l = sum_list_with g l.
Proof.
  induction l as [|x l IH]; [done|]. intros H. simpl.
  rewrite (H x), IH; [done | | by left]. intros y Hy. apply H. by right.
Qed.

Lemma sum_list_with_const {A} (f : A → nat) c l :
  Forall (λ x, f x = c) l → sum_list_with f l = length l * c.
Proof. induction 1 as [|x l Hx _ IH]; [done|]. simpl. rewrite Hx, IH. lia. Qed.

(** Every iteration that goes on lowers the potential of the queue and
    fetches at most one page. *)
Lemma potential_step startUrl maxPdfs st st' :
  Inv startUrl st → step maxPdfs st = Next st' →
  potential st' < potential st
  ∧ length (fetched st') + potential st' ≤ length (fetched st) + potential st.
Proof.
  intros HI (url & queue' & Hq & _ & Hcases)%step_Next.
  unfold potential. rewrite Hq. simpl.
  pose proof (weight_pos (default 0 (depthMap st !! url))) as Hw.
  assert (Hsame : ∀ fetched' : list string,
    length fetched' ≤ S (length (fetched st)) →
    sum_list_with (λ u, weight (default 0 (depthMap st !! u))) queue'
    < weight (default 0 (depthMap st !! url))
      + sum_list_with (λ u, weight (default 0 (depthMap st !! u))) queue'
    ∧ length fetched'
      + sum_list_with (λ u, weight (default 0 (depthMap st !! u))) queue'
      ≤ length (fetched st)
        + (weight (default 0 (depthMap st !! url))
           + sum_list_with (λ u, weight (default 0 (depthMap st !! u))) queue'))
    by (intros; lia).
  destruct Hcases as [(_ & -> & _ & -> & ->)|(_ & _ & Hf & Hrest)].
  { apply Hsame. lia. }
  assert (Hlen : length (fetched st') ≤ S (length (fetched st))).
  { rewrite Hf, length_app. simpl. lia. }
  destruct Hrest as [(_ & -> & ->)|(html & found & _ & _ & _ & _ & Hfollow)].
  { by apply Hsame. }
  destruct Hfollow as [(-> & ->)|(pageLinks & Hd & Hpage & Henq)].
  { by apply Hsame. }
  apply pageLinksOf_length in Hpage.
  apply enqueueLoop_shape in Henq as (new & -> & Hnew & Hkeep & Hdepth).
  rewrite sum_list_with_app.
  rewrite (sum_list_with_eq _ (λ u, weight (default 0 (depthMap st !! u))) queue').
  2:{ intros u Hu. rewrite Hkeep; [done|]. apply (inv_queue _ _ HI). rewrite Hq. by right. }
  rewrite (sum_list_with_const _ (weight (default 0 (depthMap st !! url) + 1)) new).
  2:{ eapply Forall_impl; [exact Hdepth|]. intros v Hv. simpl in Hv. by rewrite Hv. }
  rewrite (weight_step _ Hd) in *.
  assert (length new * weight (default 0 (depthMap st !! url) + 1)
          ≤ 50 * weight (default 0 (depthMap st !! url) + 1)) by (apply Nat.mul_le_mono_r; lia).
  lia.
Qed.

Lemma run_ends startUrl maxPdfs fuel st :
  Inv startUrl st → potential st < fuel → ∃ r, run maxPdfs fuel st = Some r.
Proof.
  revert st. induction fuel as [|fuel IH]; intros st HI Hp; [lia|]. simpl.
  destruct (step maxPdfs st) as [|st'|e] eqn:E; [by eexists | | by eexists].
  apply IH; [by eapply Inv_step|].
  destruct (potential_step startUrl maxPdfs st st' HI E). lia.
Qed.

Lemma fetched_bound startUrl maxPdfs st :
  reachable startUrl maxPdfs st →
  length (fetched st) + potential st ≤ cost maxDepth.
Proof.
  induction 1 as [|st st' Hr IH Hstep].
  - rewrite potential_init. simpl. lia.
  - apply reachable_Inv in Hr.
    destruct (potential_step startUrl maxPdfs st st' Hr Hstep). lia.
Qed.

(** The crawl always ends: whatever the site serves, the loop is over
    within [cost maxDepth] = 127551 iterations that go on, and no more
    pages than that are ever fetched. *)
Theorem crawl_always_ends (startUrl : string) (maxPdfs : number) :
  (∀ fuel, cost maxDepth < fuel → ∃ r, crawlForPDFs fuel startUrl maxPdfs = Some r)
  ∧ (∀ st, reachable startUrl maxPdfs st → length (fetched st) ≤ cost maxDepth)
  ∧ N.of_nat (cost maxDepth) = 127551%N.
Proof.
  split; [|split].
  - intros fuel Hfuel. apply (run_ends startUrl); [apply Inv_init|].
    by rewrite potential_init.
  - intros st Hst. pose proof (fetched_bound _ _ _ Hst). lia.
  - vm_compute. reflexivity.
Qed.


(** *** What the crawl follows *)

Lemma pageLinks_not_pdf html url pageLinks v :
  pageLinksOf html url = Ok pageLinks → v ∈ pageLinks → endsWith v ".pdf" = false.
Proof.
  unfold pageLinksOf.
  destruct (extractPDFLinks html url (Finite 50)) as [links|]; [|done].
  simpl. intros [= <-] Hv.
  apply list_elem_of_In, filter_In in Hv as [_ Hv]. by apply negb_true_iff.
Qed.

(** Every URL that the crawl ever enqueues, the seed apart, was taken
    from a page that the crawl fetched: it is the normalised form of a
    link captured on that page which, made absolute and parsed, is on the
    domain of the page and passed the PDF test, and it does not end in
    [.pdf].  So a link that fails the PDF test is never followed. *)
Theorem crawl_follows_pdf_candidates_only
    (startUrl : string) (maxPdfs : number) (st : State) :
  reachable startUrl maxPdfs st →
  ∀ u, is_Some (depthMap st !! u) →
    u = startUrl
    ∨ (endsWith u ".pdf" = false
       ∧ ∃ page html baseUrlObj,
           page ∈ fetched st
           ∧ fetchPage page = Some html
           ∧ URL_new page = Some baseUrlObj
           ∧ pdfCandidate html page baseUrlObj u).
Proof.
  set (P := λ (log : list string) (u : string),
         u = startUrl
         ∨ (endsWith u ".pdf" = false
            ∧ ∃ page html baseUrlObj,
                page ∈ log ∧ fetchPage page = Some html
                ∧ URL_new page = Some baseUrlObj
                ∧ pdfCandidate html page baseUrlObj u)).
  assert (Hmono : ∀ log url u, P log u → P (log ++ [url]) u).
  { intros log url u [->|(He & page & html & obj & Hp & Hrest)]; [by left|].
    right. split; [done|]. exists page, html, obj. split; [|done].
    apply elem_of_app. by left. }
  change (reachable startUrl maxPdfs st →
          ∀ u, is_Some (depthMap st !! u) → P (fetched st) u).
  induction 1 as [|st st' Hr IH Hstep]; intros u.
  - simpl. intros [d [-> _]%lookup_singleton_Some]. by left.
  - apply reachable_Inv in Hr.
    apply step_Next in Hstep as (url & queue' & Hq & _ & Hcases).
    destruct Hcases as [(_ & -> & _ & _ & ->)|(_ & _ & -> & Hrest)]; [apply IH|].
    destruct Hrest as [(_ & _ & ->)|(html & found & Hfetch & _ & _ & _ & Hfollow)];
      [intros Hu; by apply Hmono, IH|].
    destruct Hfollow as [(_ & ->)|(pageLinks & _ & Hpage & Henq)];
      [intros Hu; by apply Hmono, IH|].
    intros [d Hd].
    apply (enqueueLoop_inv (λ u _, P (fetched st ++ [url]) u))
      in Henq as (H1 & _ & _).
    + by eapply H1.
    + intros v k Hv. apply Hmono, IH. by eexists.
    + intros v Hv. right. split; [by eapply pageLinks_not_pdf|].
      pose proof Hpage as (baseUrlObj & Hobj & Hcand)%pageLinks_are_pdf_candidates.
      rewrite Forall_forall in Hcand.
      exists url, html, baseUrlObj. split; [|by auto].
      apply elem_of_app. right. by left.
    + intros v Hv. apply (inv_queue _ _ Hr). rewrite Hq. by right.
Qed.

(** *** The links captured from the HTML *)

Lemma spanUnquoted_fst s :
  allChars (λ c, negb (is_quote c)) (spanUnquoted s).1 = true.
Proof.
  induction s as [|c s IH]; [done|]. simpl.
  destruct (is_quote c) eqn:E; [done|].
  destruct (spanUnquoted s) as [a b]. simpl in *. by rewrite E, IH.
Qed.

(** Every link captured from the HTML is non-empty and holds no quote. *)
Theorem captured_links_are_unquoted (html : string) :
  Forall (λ link, link ≠ "" ∧ allChars (λ c, negb (is_quote c)) link = true)
    (hrefMatches html).
Proof.
  unfold hrefMatches. generalize 0.
  induction html as [|c html IH]; intros skip; simpl; [constructor|].
  destruct skip as [|k]; [|apply IH].
  destruct (hrefAt (String c html)) as [[link n]|] eqn:E; [|apply IH].
  constructor; [|apply IH].
  unfold hrefAt in E. repeat case_match; simplify_eq.
  split; [done|].
  match goal with H : spanUnquoted ?r = (_, _) |- _ =>
    pose proof (spanUnquoted_fst r) as Hs; rewrite H in Hs end.
  done.
Qed.

End CrawlerTermination.

Section CrawlerBoundsExamples.
Import JS Crawler Examples.

(** A page with three links to PDF files. *)
Lemma extracted_links_are_distinct_and_capped_witness :
  let html := anchor "/a.pdf" +:+ anchor "/b.pdf" +:+ anchor "/c.pdf"
              +:+ anchor "/d.pdf" in
  let links := ["https://example.com/a.pdf"; "https://example.com/b.pdf";
                "https://example.com/c.pdf"] in
  NoDup links
  ∧ (links = [] ∨ lengthBelow (length links - 1) (Finite (5 # 2)) = true)
  ∧ (∀ q, Finite (5 # 2) = Finite q → (Z.of_nat (length links) ≤ Z.max 0 (Qceiling q))%Z)
  ∧ (∀ z, Finite (5 # 2) = Finite (inject_Z z) → (Z.of_nat (length links) ≤ Z.max 0 z)%Z)
  ∧ ∃ baseUrlObj, @URL_new SimpleUrl.api "https://example.com" = Some baseUrlObj
      ∧ Forall (@pdfCandidate SimpleUrl.api html "https://example.com" baseUrlObj) links.
Proof.
  intros html links.
  apply (@extracted_links_are_distinct_and_capped SimpleUrl.api
           html "https://example.com" (Finite (5 # 2))).
  vm_compute. reflexivity.
Defined.

Lemma crawl_returns_distinct_capped_records_witness :
  let records :=
    [{| url := "https://example.com/p1.pdf?view=1"; name := "p1.pdf" |};
     {| url := "https://example.com/p2.pdf?view=1"; name := "p2.pdf" |};
     {| url := "https://example.com/p3.pdf?view=1"; name := "p3.pdf" |}] in
  NoDup (url <$> records)
  ∧ (records = [] ∨ lengthBelow (length records - 1) (Finite (5 # 2)) = true)
  ∧ (∀ q, Finite (5 # 2) = Finite q →
          (Z.of_nat (length records) ≤ Z.max 0 (Qceiling q))%Z)
  ∧ (∀ z, Finite (5 # 2) = Finite (inject_Z z) →
          (Z.of_nat (length records) ≤ Z.max 0 z)%Z)
  ∧ Forall (λ p, endsWith (name p) ".pdf" = true) records.
Proof.
  apply (@crawl_returns_distinct_capped_records SimpleUrl.api chainWeb
           10 "https://example.com" (Finite (5 # 2))).
  vm_compute. reflexivity.
Defined.

(** With [maxPdfs] 2.5 the guards hold at the lengths 0, 1 and 2: three
    links are extracted and three records returned, and the handler
    accepts the value, since it is not above 100. *)
Example fractional_maxPdfs_admits_three :
  let html := anchor "/a.pdf" +:+ anchor "/b.pdf" +:+ anchor "/c.pdf"
              +:+ anchor "/d.pdf" in
  @extractPDFLinks SimpleUrl.api html "https://example.com" (Finite (5 # 2))
  = Ok ["https://example.com/a.pdf"; "https://example.com/b.pdf";
        "https://example.com/c.pdf"]
  ∧ @crawlForPDFs SimpleUrl.api chainWeb 10 "https://example.com" (Finite (5 # 2))
    = Some (Ok [{| url := "https://example.com/p1.pdf?view=1"; name := "p1.pdf" |};
                {| url := "https://example.com/p2.pdf?view=1"; name := "p2.pdf" |};
                {| url := "https://example.com/p3.pdf?view=1"; name := "p3.pdf" |}])
  ∧ above (Finite (5 # 2)) 100 = false
  ∧ @extractPDFLinks SimpleUrl.api html "https://example.com" (Finite 2)
    = Ok ["https://example.com/a.pdf"; "https://example.com/b.pdf"]
  ∧ @extractPDFLinks SimpleUrl.api html "https://example.com" NaN = Ok [].
Proof. vm_compute. done. Qed.

(** On the site of the example scenario the link [/page2] is captured and
    is on the domain of the page, but it is no PDF candidate: it fails
    the PDF test. *)
Example page2_is_no_pdf_candidate :
  let home := anchor "/docs/a.pdf" +:+ anchor "/page2" in
  ∀ baseUrlObj,
    @URL_new SimpleUrl.api "https://example.com" = Some baseUrlObj →
    "/page2" ∈ hrefMatches home
    ∧ ¬ @pdfCandidate SimpleUrl.api home "https://example.com" baseUrlObj
          "https://example.com/page2".
Proof.
  intros home baseUrlObj Hobj. vm_compute in Hobj. injection Hobj as <-.
  split; [vm_compute; set_solver|].
  intros (captured & link & linkUrl & Hin & _ & Habs & Hurl & _ & Hpdf & Hnorm).
  vm_compute in Hin.
  apply elem_of_cons in Hin as [->|Hin];
    [|apply elem_of_cons in Hin as [->|Hin]; [|by apply elem_of_nil in Hin]].
  - vm_compute in Habs. injection Habs as <-.
    vm_compute in Hurl. injection Hurl as <-.
    vm_compute in Hnorm. discriminate.
  - vm_compute in Habs. injection Habs as <-.
    vm_compute in Hurl. injection Hurl as <-.
    vm_compute in Hpdf. discriminate.
Qed.

Lemma crawl_follows_pdf_candidates_only_witness :
  "https://example.com/p1.pdf?view=1" = "https://example.com"
  ∨ (endsWith "https://example.com/p1.pdf?view=1" ".pdf" = false
     ∧ ∃ page html baseUrlObj,
         page ∈ fetched (@advance SimpleUrl.api chainWeb (Finite 10) 2
                           (init "https://example.com"))
         ∧ @fetchPage chainWeb page = Some html
         ∧ @URL_new SimpleUrl.api page = Some baseUrlObj
         ∧ @pdfCandidate SimpleUrl.api html page baseUrlObj
             "https://example.com/p1.pdf?view=1").
Proof.
  apply (@crawl_follows_pdf_candidates_only SimpleUrl.api chainWeb
           "https://example.com" (Finite 10)
           (@advance SimpleUrl.api chainWeb (Finite 10) 2 (init "https://example.com"))).
  - apply reachable_advance, reachable_init.
  - vm_compute. by eexists.
Defined.


End CrawlerBoundsExamples.

(** ** The Pinecone helper: failures and namespaces *)

Section PineconeCalls.
Import JS Pinecone.
Context `{S : Sdk}.

(** A failing upsert throws either the configuration error, before any
    call to the index and with nothing cached, or an [Error] whose message
    is the fixed prefix followed by the message of the failure of the
    index, [Unknown error] for a thrown value that is not an [Error];
    the client then stays cached. *)
Theorem upsert_failures_are_wrapped (env : Env) (pineconeClient : Singleton)
    (vectors : list Record_) (namespace : option string) (e : thrown)
    (after : Singleton) :
  upsertToPinecone env pineconeClient vectors namespace = (Throw e, after) →
  (e = configError ∧ pineconeClient = None ∧ after = None)
  ∨ (∃ client cause,
       after = Some client
       ∧ sdk_upsert client (indexName env) (namespaceOf namespace) vectors = Throw cause
       ∧ e = ErrorObj ("Failed to upsert to Pinecone: " +:+ errorMessage cause)).
Proof.
  unfold upsertToPinecone, getPineconeClient.
  destruct pineconeClient as [client|].
  - destruct (sdk_upsert client _ _ vectors) as [ack|cause] eqn:E; [done|].
    intros [= <- <-]. right. by exists client, cause.
  - destruct (negb _ || negb _) eqn:Hm.
    + intros [= <- <-]. by left.
    + destruct (sdk_upsert _ _ _ vectors) as [ack|cause] eqn:E; [done|].
      intros [= <- <-]. right. by eexists _, cause.
Qed.

(** An empty namespace is no namespace: query and upsert then go to the
    default namespace of the index, as they do without the argument. *)
Theorem empty_namespace_is_the_default_namespace (env : Env)
    (pineconeClient : Singleton) :
  (∀ queryVector topK,
     queryPinecone env pineconeClient queryVector topK (Some "")
     = queryPinecone env pineconeClient queryVector topK None)
  ∧ (∀ vectors,
       upsertToPinecone env pineconeClient vectors (Some "")
       = upsertToPinecone env pineconeClient vectors None)
  ∧ (∀ namespace, namespace ≠ "" → namespaceOf (Some namespace) = Some namespace).
Proof.
  split; [done|]. split; [done|].
  intros namespace Hne. unfold namespaceOf, truthy_str.
  by rewrite (bool_decide_eq_false_2 _ Hne).
Qed.

End PineconeCalls.

(** ** The OpenAI helper *)

Section OpenAIFacts.
Import JS OpenAI.
Context `{S : Sdk}.




(** Without an API key no call reaches the SDK: the construction of the
    client, the embedding and the chat completion all throw the same
    error, whatever the SDK would answer, and nothing is cached. *)
Theorem openai_calls_need_the_key (env : Env) :
  truthy_str (env !! "OPENAI_API_KEY") = false →
  getOpenAIClient env None = (Throw keyError, None)
  ∧ (∀ text, getEmbedding env None text = (Throw keyError, None))
  ∧ (∀ messages context options,
       chatCompletion env None messages context options = (Throw keyError, None)).
Proof.
  intros H.
  assert (E : getOpenAIClient env None = (Throw keyError, None))
    by (unfold getOpenAIClient; by rewrite H).
  split; [done|]. split; intros; unfold getEmbedding, chatCompletion; by rewrite E.
Qed.

(** The client is built once.  A construction that succeeds caches the
    client it returns; when it was built by this call, its key is the
    non-empty key of the environment.  From then on every call returns and
    keeps that client, whatever the environment has become. *)
Theorem openai_client_is_built_once (env : Env) (openaiClient after : Singleton)
    (client : Client) :
  getOpenAIClient env openaiClient = (Ok client, after) →
  after = Some client
  ∧ (openaiClient = None →
     env !! "OPENAI_API_KEY" = Some (apiKey client) ∧ apiKey client ≠ "")
  ∧ ∀ env',
      getOpenAIClient env' after = (Ok client, after)
      ∧ (∀ text, (getEmbedding env' after text).2 = after)
      ∧ (∀ messages context options,
           (chatCompletion env' after messages context options).2 = after).
Proof.
  unfold getOpenAIClient. destruct openaiClient as [cached|].
  - intros [= <- <-]. repeat split; done.
  - destruct (env !! "OPENAI_API_KEY") as [key|] eqn:Ek; simpl; [|done].
    case_bool_decide as Hk; simpl; [done|].
    intros [= <- <-]. repeat split; done.
Qed.

End OpenAIFacts.

(** ** The chat route *)

Section ChatFacts.
Import JS Chat.

Lemma stripBold_other c s :
  is_star c = false → stripBold (String c s) = String c (stripBold s).
Proof. intros H. simpl. rewrite H. by destruct s. Qed.

Lemma stripBold_facts n : ∀ s, String.length s ≤ n →
  hasPair stars (stripBold s) = false
  ∧ others (stripBold s) = others s
  ∧ String.length (stripBold s) ≤ String.length s
  ∧ (hasPair stars s = false → stripBold s = s).
Proof.
  induction n as [|n IH]; intros s Hs.
  { destruct s; [done | simpl in Hs; lia]. }
  destruct s as [|c [|d s'']]; [done | done |].
  cbn [String.length] in Hs.
  change (stripBold (String c (String d s'')))
    with (if is_star c && is_star d then stripBold s''
          else String c (stripBold (String d s''))).
  destruct (is_star c && is_star d) eqn:E.
  - destruct (IH s'') as (H1 & H2 & H3 & _); [lia|].
    apply andb_true_iff in E as [Ec Ed].
    split; [done|]. split; [simpl; by rewrite Ec, Ed|].
    split; [simpl; lia|].
    change (hasPair stars (String c (String d s'')))
      with (stars c d || hasPair stars (String d s'')).
    unfold stars at 1. by rewrite Ec, Ed.
  - destruct (IH (String d s'')) as (H1 & H2 & H3 & H4); [simpl; lia|].
    split; [|split; [|split]].
    + destruct (stripBold (String d s'')) as [|e r] eqn:Er; [done|].
      change (hasPair stars (String c (String e r)))
        with (stars c e || hasPair stars (String e r)).
      rewrite H1, orb_false_r. unfold stars.
      destruct (is_star c) eqn:Ec; [|done]. simpl in E.
      rewrite (stripBold_other _ _ E) in Er. injection Er as <- _. by rewrite E.
    + cbn [others]. by rewrite H2.
    + cbn [String.length] in *. lia.
    + change (hasPair stars (String c (String d s'')))
        with (stars c d || hasPair stars (String d s'')).
      intros [_ H]%orb_false_iff. by rewrite (H4 H).
Qed.

Lemma bold_markers_are_removed_aux s : hasPair stars (stripBold s) = false.
Proof. by destruct (stripBold_facts (String.length s) s) as (H1 & _). Qed.

(** The answer of the model is returned without bold markers: it never
    holds two asterisks in a row, every other character is kept, in
    order, and an answer without two asterisks in a row is returned as it
    is.  A single asterisk can remain. *)
Theorem bold_markers_are_removed (response : string) :
  hasPair stars (stripBold response) = false
  ∧ others (stripBold response) = others response
  ∧ String.length (stripBold response) ≤ String.length response
  ∧ (hasPair stars response = false → stripBold response = response)
  ∧ stripBold "***" = "*".
Proof.
  destruct (stripBold_facts (String.length response) response) as (H1 & H2 & H3 & H4);
    [done|].
  by repeat split.
Qed.

Section Route.
Context `{C : Collaborators}.

(** An answer of the chat comes from a non-empty message; its response
    holds no two asterisks in a row; it has one source per match of the
    index, with the identifiers of the matches in their order; and the
    context counts as used exactly when there is a source, the confidence
    being zero otherwise. *)
Theorem chat_answer_shape (message : option string)
    (history : option (list Message)) (response : string) (contextUsed : bool)
    (sources : list (Source Score)) (confidence : Score) :
  POST message history = ChatOk response contextUsed sources confidence →
  truthy_str message = true
  ∧ hasPair stars response = false
  ∧ (contextUsed = true ↔ sources ≠ [])
  ∧ (contextUsed = false → confidence = score_0)
  ∧ ∃ queryEmbedding matches,
      getEmbedding (default "" message) = Ok queryEmbedding
      ∧ queryPinecone queryEmbedding 5 = Ok matches
      ∧ s_id <$> sources = id <$> matches.
Proof.
  unfold POST. destruct (truthy_str message); simpl; [|done].
  unfold tryBody.
  destruct (getEmbedding _) as [queryEmbedding|] eqn:Ee; simpl; [|done].
  destruct (queryPinecone _ _) as [matches|] eqn:Eq; simpl; [|done].
  destruct (chatCompletion _ _) as [answer|]; simpl; [|done].
  intros [= <- <- <- <-].
  split; [done|]. split; [apply bold_markers_are_removed_aux|].
  split; [|split].
  - destruct matches; simpl; [split; [done | by intros []] | done].
  - by destruct matches.
  - exists queryEmbedding, matches. split; [done|]. split; [done|].
    rewrite <- list_fmap_compose. done.
Qed.

End Route.

End ChatFacts.

Section ChatPrompt.
Import JS Chat.
Context `{S : OpenAI.Sdk} {Score : Type}.





End ChatPrompt.

Section ServiceWitnesses.
Import JS ServiceExamples.

Lemma upsert_failures_are_wrapped_witness :
  (ErrorObj "Failed to upsert to Pinecone: Unknown error" = Pinecone.configError
   ∧ Some {| Pinecone.apiKey := "key" |} = None
   ∧ Some {| Pinecone.apiKey := "key" |} = None)
  ∨ (∃ client cause,
       Some {| Pinecone.apiKey := "key" |} = Some client
       ∧ @Pinecone.sdk_upsert brokenIndex client (Pinecone.indexName ∅)
           (Pinecone.namespaceOf None) ["v"] = Throw cause
       ∧ ErrorObj "Failed to upsert to Pinecone: Unknown error"
         = ErrorObj ("Failed to upsert to Pinecone: " +:+ errorMessage cause)).
Proof.
  apply (@upsert_failures_are_wrapped brokenIndex ∅
           (Some {| Pinecone.apiKey := "key" |}) ["v"] None).
  reflexivity.
Defined.

Lemma openai_calls_need_the_key_witness :
  OpenAI.getOpenAIClient ∅ None = (Throw OpenAI.keyError, None)
  ∧ (∀ text, @OpenAI.getEmbedding echoModel ∅ None text = (Throw OpenAI.keyError, None))
  ∧ (∀ messages context options,
       @OpenAI.chatCompletion echoModel ∅ None messages context options
       = (Throw OpenAI.keyError, None)).
Proof. apply (@openai_calls_need_the_key echoModel ∅). reflexivity. Defined.

Lemma openai_client_is_built_once_witness :
  let env : OpenAI.Env := {[ "OPENAI_API_KEY" := "sk-test" ]} in
  let client := {| OpenAI.apiKey := "sk-test" |} in
  Some client = Some client
  ∧ ((None : OpenAI.Singleton) = None →
     env !! "OPENAI_API_KEY" = Some (OpenAI.apiKey client) ∧ OpenAI.apiKey client ≠ "")
  ∧ ∀ env',
      OpenAI.getOpenAIClient env' (Some client) = (Ok client, Some client)
      ∧ (∀ text, (@OpenAI.getEmbedding echoModel env' (Some client) text).2 = Some client)
      ∧ (∀ messages context options,
           (@OpenAI.chatCompletion echoModel env' (Some client) messages context options).2
           = Some client).
Proof.
  intros env client.
  apply (@openai_client_is_built_once echoModel env None (Some client) client).
  vm_compute. reflexivity.
Defined.

Lemma chat_answer_shape_witness :
  truthy_str (Some "How do I label images?") = true
  ∧ hasPair Chat.stars "Use alt text on images." = false
  ∧ (true = true ↔ [@Chat.sourceOf chatExample guideMatch] ≠ [])
  ∧ (true = false → 9%Z = @Chat.score_0 chatExample)
  ∧ ∃ queryEmbedding matches,
      @Chat.getEmbedding chatExample (default "" (Some "How do I label images?"))
      = Ok queryEmbedding
      ∧ @Chat.queryPinecone chatExample queryEmbedding 5 = Ok matches
      ∧ Chat.s_id <$> [@Chat.sourceOf chatExample guideMatch] = Chat.id <$> matches.
Proof.
  apply (@chat_answer_shape chatExample (Some "How do I label images?") None).
  vm_compute. reflexivity.
Defined.

End ServiceWitnesses.

(** ** The PDF processing route *)

Section ProcessFacts.
Import JS Process.





Section Route.
Context `{C : Collaborators}.

Lemma processLoop_imap analysesJson pdfFiles : ∀ i processedPDFs,
  processLoop analysesJson i pdfFiles processedPDFs
  = processedPDFs
    ++ imap (λ k pdfFile, loopBody pdfFile (analysisOf analysesJson (i + k))) pdfFiles.
Proof.
  induction pdfFiles as [|f rest IH]; intros i acc; simpl.
  - by rewrite app_nil_r.
  - rewrite IH, <- app_assoc. simpl. rewrite Nat.add_0_r.
    do 2 f_equal. apply imap_ext. intros k x _. simpl. f_equal. f_equal. lia.
Qed.

Lemma loopBody_filename pdfFile analysis :
  filename (loopBody pdfFile analysis) = name pdfFile.
Proof. unfold loopBody. by destruct (tryBody pdfFile analysis). Qed.

Lemma imap_filenames (g : nat → Risks) pdfFiles :
  filename <$> imap (λ k pdfFile, loopBody pdfFile (g k)) pdfFiles = name <$> pdfFiles.
Proof.
  revert g. induction pdfFiles as [|f rest IH]; intros g; [done|].
  simpl. rewrite loopBody_filename. f_equal. apply (IH (g ∘ S)).
Qed.

(** Once the form is read the route never answers with a server error.
    It refuses no file and more than ten files; otherwise every file gets
    exactly one entry, in the order of the upload and under its own name,
    and the entry of a file depends on that file and on the analysis at
    its index only: a file that fails does not touch the others. *)
Theorem every_pdf_gets_one_entry (pdfFiles : list File) (analysesJson : list string) :
  match POST (Ok (pdfFiles, analysesJson)) with
  | ProcessOk processedPDFs =>
      1 ≤ length pdfFiles ≤ 10
      ∧ filename <$> processedPDFs = name <$> pdfFiles
      ∧ ∀ i pdfFile, pdfFiles !! i = Some pdfFile →
          processedPDFs !! i = Some (loopBody pdfFile (analysisOf analysesJson i))
  | BadRequest _ => pdfFiles = [] ∨ 10 < length pdfFiles
  | ServerError _ => False
  end.
Proof.
  unfold POST.
  destruct (length pdfFiles =? 0) eqn:E0.
  { left. apply Nat.eqb_eq in E0. by destruct pdfFiles. }
  destruct (10 <? length pdfFiles) eqn:E10.
  { right. by apply Nat.ltb_lt in E10. }
  apply Nat.eqb_neq in E0. apply Nat.ltb_ge in E10.
  rewrite processLoop_imap. simpl.
  split; [lia|]. split.
  - apply (imap_filenames (λ k, analysisOf analysesJson (0 + k))).
  - intros i pdfFile Hi. rewrite list_lookup_imap, Hi. done.
Qed.

End Route.

Lemma tryBody_withChat (C : Collaborators) chat (pdfFile : @File C) analysis :
  @tryBody (withChat C chat) pdfFile analysis = @tryBody C pdfFile analysis.
Proof.
  unfold tryBody, correctedText, withChat. simpl.
  destruct (arrayBuffer pdfFile) as [buffer|]; simpl; [|done].
  destruct (PDFDocument_load buffer) as [pdfDoc|]; simpl; [|done].
  destruct (extractTextFromDocument pdfFile (type pdfFile)) as [text|]; simpl; [|done].
  destruct (getPages pdfDoc) as [pageCount|]; simpl; [|done].
  destruct (setTitle pdfDoc _) as [d1|]; simpl; [|done].
  destruct (setProducer d1 _) as [d2|]; simpl; [|done].
  destruct (setCreator d2 _) as [d3|]; simpl; [|done].
  destruct analysis as [risks| |]; [|done|done].
  destruct (0 <? length risks); [|done].
  by destruct (chat _ _ _), (chatCompletion _ _ _).
Qed.

(** The corrected text never reaches the document: whatever model is
    behind [chatCompletion], and whether it answers or fails, the route
    gives the same answer, entry by entry. *)
Theorem correction_never_reaches_the_pdf (C : Collaborators)
    (chat : list Message → option string → option (OpenAI.Options Number)
            → Exc string)
    (formData : Exc (list (@File C) * list string)) :
  @POST (withChat C chat) formData = @POST C formData.
Proof.
  destruct formData as [[pdfFiles analysesJson]|e]; [|done].
  unfold POST. simpl.
  destruct (length pdfFiles =? 0); [done|].
  destruct (10 <? length pdfFiles); [done|].
  f_equal. generalize (@nil Entry) at 1 2. generalize 0.
  induction pdfFiles as [|f rest IH]; intros i acc; [done|].
  simpl. rewrite IH. do 3 f_equal.
  unfold loopBody. by rewrite tryBody_withChat.
Qed.

(** An analysis whose risks are not an array fails its file, and only
    that file, before the document is saved. *)
Theorem malformed_risks_fail_the_file (C : Collaborators) (pdfFile : File)
    (analysesJson : list string) (i : nat) :
  analysisOf analysesJson i = RisksOther →
  (∃ error, loopBody pdfFile (analysisOf analysesJson i) = Failed (name pdfFile) error)
  ∧ ∃ json, analysesJson !! i = Some json ∧ json ≠ "" ∧ JSON_parse json = Ok RisksOther.
Proof.
  intros H. split.
  - rewrite H. unfold loopBody, tryBody, correctedText.
    destruct (arrayBuffer pdfFile) as [buffer|]; simpl; [|by eexists].
    destruct (PDFDocument_load buffer) as [pdfDoc|]; simpl; [|by eexists].
    destruct (extractTextFromDocument pdfFile (type pdfFile)) as [text|]; simpl; [|by eexists].
    destruct (getPages pdfDoc) as [pageCount|]; simpl; [|by eexists].
    destruct (setTitle pdfDoc _) as [d1|]; simpl; [|by eexists].
    destruct (setProducer d1 _) as [d2|]; simpl; [|by eexists].
    destruct (setCreator d2 _) as [d3|]; simpl; by eexists.
  - unfold analysisOf in H. destruct (analysesJson !! i) as [json|]; [|done].
    case_bool_decide as Hj; [done|].
    destruct (JSON_parse json) as [a|] eqn:Ej; [|done]. subst a.
    exists json. split; [done|]. split; [done|]. exact Ej.
Qed.

End ProcessFacts.

Section ProcessWitnesses.
Import JS Process ProcessExamples.

(** An analysis whose risks are a string fails its file with the error
    of the call of [map], while a file whose analysis is the empty object
    goes through. *)
Lemma malformed_risks_fail_the_file_witness :
  (∃ error, @loopBody processExample "a.pdf" (@analysisOf processExample [risksAsText] 0)
            = Failed "a.pdf" error)
  ∧ ∃ json, [risksAsText] !! 0 = Some json ∧ json ≠ ""
      ∧ @JSON_parse processExample json = Ok RisksOther.
Proof.
  apply (@malformed_risks_fail_the_file processExample "a.pdf" [risksAsText] 0).
  vm_compute. reflexivity.
Defined.

Example risks_as_text_against_no_risks :
  @POST processExample (Ok (["a.pdf"; "b.pdf"], [risksAsText; "{}"]))
  = ProcessOk [Failed "a.pdf" "analysis.risks.map is not a function";
               Processed "b.pdf" "b.pdf"].
Proof. vm_compute. reflexivity. Qed.

End ProcessWitnesses.
